(** * Migration property tests: a shallow embedding

    The repository's migration-verification suite (the
    [describe('Migration Property Tests')] block) checks four properties of
    a migrated project tree with fast-check.  This development embeds the
    test code: JavaScript strings, the four regular expressions, the [path]
    helpers, the filesystem reads, the fast-check driver and the four
    property bodies, and proves what the code does. *)

From Stdlib Require Import String Ascii NArith Lia List Bool Arith.
From stdpp Require Import base option list gmap.

Open Scope N_scope.
Open Scope nat_scope.
Open Scope list_scope.

(** ** JavaScript strings

    A JavaScript string is a sequence of UTF-16 code units; every string
    operation and every regular expression of the test file works on code
    units. *)

Definition jschar := N.
Definition jsstring := list N.

(** [str] turns a literal of the source into its code units (literals of the
    test file are ASCII). *)
Definition str (s : string) : jsstring :=
  map N_of_ascii (list_ascii_of_string s).

Definition in_range (lo hi c : N) : bool := (N.leb lo c) && (N.leb c hi).

(** [\d] *)
Definition isDigit (c : N) : bool := in_range 48 57 c.

(** [\w] is [[A-Za-z0-9_]]. *)
Definition isWord (c : N) : bool :=
  in_range 65 90 c || in_range 97 122 c || in_range 48 57 c || N.eqb c 95.

(** [\s]: the WhiteSpace and LineTerminator code points of ECMAScript. *)
Definition isSpace (c : N) : bool :=
  in_range 9 13 c || N.eqb c 32 || N.eqb c 160 || N.eqb c 5760
  || in_range 8192 8202 c || N.eqb c 8232 || N.eqb c 8233 || N.eqb c 8239
  || N.eqb c 8287 || N.eqb c 12288 || N.eqb c 65279.

(** LineTerminator: LF, CR, LS, PS. *)
Definition isLineTerminator (c : N) : bool :=
  N.eqb c 10 || N.eqb c 13 || N.eqb c 8232 || N.eqb c 8233.

(** [.] without the [s] flag. *)
Definition isDot (c : N) : bool := negb (isLineTerminator c).

(** [[\w-]] *)
Definition isIdent (c : N) : bool := isWord c || N.eqb c 45.

(** The class of the two quote characters, the single and the double
    quote. *)
Definition isQuote (c : N) : bool := N.eqb c 39 || N.eqb c 34.

(** [[\^~]] *)
Definition isRangePrefix (c : N) : bool := N.eqb c 94 || N.eqb c 126.

Definition isChar (a : N) (c : N) : bool := N.eqb c a.

Definition SLASH : N := 47.
Definition DOT : N := 46.
Definition COLON : N := 58.
Definition HYPHEN : N := 45.
Definition LF : N := 10.
Definition DQUOTE : N := 34.

(** ** Strings: prefixes, search, replacement *)

(** [strip_prefix p s] is [Some rest] when [s = p ++ rest]. *)
Fixpoint strip_prefix (p s : jsstring) : option jsstring :=
  match p with
  | [] => Some s
  | a :: p' =>
      match s with
      | [] => None
      | c :: s' => if N.eqb c a then strip_prefix p' s' else None
      end
  end.

(** [String.prototype.startsWith] *)
Definition startsWith (s p : jsstring) : bool :=
  match strip_prefix p s with Some _ => true | None => false end.

(** [String.prototype.includes] *)
Fixpoint includes (s p : jsstring) : bool :=
  startsWith s p || match s with [] => false | _ :: s' => includes s' p end.

(** [String.prototype.endsWith] *)
Definition endsWith (s p : jsstring) : bool :=
  startsWith (rev s) (rev p).

(** [String.prototype.replace] with a string pattern: the first occurrence
    only (the replacement texts used by the test file have no [$]). *)
Fixpoint replace (s pat by_ : jsstring) : jsstring :=
  match strip_prefix pat s with
  | Some rest => by_ ++ rest
  | None => match s with [] => [] | c :: s' => c :: replace s' pat by_ end
  end.

(** ** Regular expressions

    The four patterns of the test file use literals, character classes,
    quantified character classes (greedy [*], [+], [?] and lazy [*?], [+?]),
    one capture group and the [^] assertion.  The matcher below is the
    backtracking matcher of ECMAScript restricted to these forms: alternatives
    are tried in the priority order of the language, and the first success
    wins. *)

Inductive regex : Type :=
| RLit (l : jsstring)                       (* a literal text *)
| RChar (cls : N -> bool)                   (* one character of a class *)
| RStar (greedy : bool) (cls : N -> bool)   (* cls* or cls*? *)
| RPlus (greedy : bool) (cls : N -> bool)   (* cls+ or cls+? *)
| ROpt (cls : N -> bool)                    (* cls? *)
| RSeq (r1 r2 : regex)
| RGroup (r : regex)                        (* ( r ), capture group 1 *)
| RBol.                                     (* ^ *)

Declare Scope regex_scope.
Delimit Scope regex_scope with re.
Infix "+>" := RSeq (at level 65, right associativity) : regex_scope.

(** The state of a match: the text still to read, the index reached, and
    the capture of group 1. *)
Record mstate : Type := MState {
  m_rest : jsstring;
  m_index : nat;
  m_capture : option jsstring
}.

Definition orElse {A} (x : option A) (y : option A) : option A :=
  match x with Some r => Some r | None => y end.

Section Matcher.
Context {R : Type}.

(** A quantified class: [greedy] takes as many characters as it can and
    gives them back one at a time; lazy takes none and adds one at a
    time. *)
Fixpoint star_m (greedy : bool) (cls : N -> bool) (s : jsstring) (i : nat)
    (k : jsstring -> nat -> option R) : option R :=
  match s with
  | c :: s' =>
      if cls c then
        if greedy then orElse (star_m greedy cls s' (S i) k) (k s i)
        else orElse (k s i) (star_m greedy cls s' (S i) k)
      else k s i
  | [] => k s i
  end.

Fixpoint m (r : regex) (s : jsstring) (i : nat) (cap : option jsstring)
    (k : jsstring -> nat -> option jsstring -> option R) : option R :=
  match r with
  | RLit l =>
      match strip_prefix l s with
      | Some s' => k s' (i + length l) cap
      | None => None
      end
  | RChar cls =>
      match s with
      | c :: s' => if cls c then k s' (S i) cap else None
      | [] => None
      end
  | RStar g cls => star_m g cls s i (fun s' i' => k s' i' cap)
  | RPlus g cls =>
      match s with
      | c :: s' =>
          if cls c then star_m g cls s' (S i) (fun s' i' => k s' i' cap)
          else None
      | [] => None
      end
  | ROpt cls =>
      match s with
      | c :: s' => if cls c then orElse (k s' (S i) cap) (k s i cap) else k s i cap
      | [] => k s i cap
      end
  | RSeq r1 r2 => m r1 s i cap (fun s' i' cap' => m r2 s' i' cap' k)
  | RGroup r1 => m r1 s i cap (fun s' i' _ => k s' i' (Some (take (i' - i) s)))
  | RBol => if Nat.eqb i 0 then k s i cap else None
  end.
End Matcher.

(** One match attempt at index [i] of the subject, [s] being the subject
    from [i] on. *)
Definition match_at (r : regex) (s : jsstring) (i : nat) : option mstate :=
  m r s i None (fun s' i' cap => Some (MState s' i' cap)).

(** The search of [RegExp.prototype.exec]: the leftmost index, from [i] on,
    at which a match attempt succeeds. *)
Fixpoint search (r : regex) (s : jsstring) (i : nat) : option mstate :=
  match match_at r s i with
  | Some st => Some st
  | None =>
      match s with
      | [] => None
      | _ :: s' => search r s' (S i)
      end
  end.

(** [regex.test(text)] on a regular expression whose [lastIndex] is 0. *)
Definition test (r : regex) (text : jsstring) : bool :=
  match search r text 0 with Some _ => true | None => false end.

(** The loop
    [while ((match = regex.exec(text)) !== null) push(match[1])]
    on a global regular expression: each [exec] searches from [lastIndex]
    and moves [lastIndex] to the end of the match; [push] is what the body of
    the loop does with the capture ([imports.push], [sourceVariables.add]).
    The loop of the source has no bound; [fuel] counts its iterations and
    [None] is a loop that is still running when the fuel is spent. *)
Fixpoint exec_loop {Acc : Type} (push : Acc -> jsstring -> Acc) (fuel : nat)
    (r : regex) (s : jsstring) (lastIndex : nat) (out : Acc) : option Acc :=
  match fuel with
  | 0 => None
  | S fuel' =>
      match search r s lastIndex with
      | None => Some out
      | Some st =>
          exec_loop push fuel' r (m_rest st) (m_index st)
            (push out (default [] (m_capture st)))
      end
  end.

(** [Array.prototype.push] *)
Definition array_push (a : list jsstring) (x : jsstring) : list jsstring :=
  a ++ [x].

(** A JavaScript [Set] of strings keeps its elements in insertion order,
    each once; [Array.from] lists them in that order. *)
Definition Set_add (a : list jsstring) (x : jsstring) : list jsstring :=
  if bool_decide (x ∈ a) then a else a ++ [x].

(** The loop run to its end, with the fuel that any loop advancing at each
    iteration needs. *)
Definition exec_all {Acc : Type} (push : Acc -> jsstring -> Acc) (r : regex)
    (text : jsstring) (init : Acc) : option Acc :=
  exec_loop push (S (length text)) r text 0 init.

(** The patterns of the test file. *)

(** [/import\s+.*?\s+from\s+Q(.+?)Q/g], where [Q] stands for the class of
    the single and the double quote. *)
Definition importRegex : regex :=
  (RLit (str "import") +> RPlus true isSpace +> RStar false isDot +>
   RPlus true isSpace +> RLit (str "from") +> RPlus true isSpace +>
   RChar isQuote +> RGroup (RPlus false isDot) +> RChar isQuote)%re.

(** [/^[\^~]?\d+\.\d+\.\d+/] *)
Definition versionRegex : regex :=
  (RBol +> ROpt isRangePrefix +> RPlus true isDigit +> RChar (isChar DOT) +>
   RPlus true isDigit +> RChar (isChar DOT) +> RPlus true isDigit)%re.

(** [/--([\w-]+)\s*:/g] *)
Definition cssVariableRegex : regex :=
  (RLit (str "--") +> RGroup (RPlus true isIdent) +> RStar true isSpace +>
   RChar (isChar COLON))%re.

(** [new RegExp(`--${cssVariable}\\s*:`, 'g')].  The name is spliced into the
    pattern text; a name made of word characters and hyphens, as every
    extracted name is, has no pattern syntax in it and stands for itself. *)
Definition variablePattern (cssVariable : jsstring) : regex :=
  (RLit (str "--" ++ cssVariable) +> RStar true isSpace +>
   RChar (isChar COLON))%re.

(** ** Exceptions and results

    An [expect(...)] whose matcher fails throws an assertion error; the
    library calls throw plain errors; [fc.assert] throws an error that
    carries the counterexample and the error it met. *)

Inductive expectation : Type :=
| ToBeTrue_exists            (* expect(existsSync(targetPath)).toBe(true) *)
| ToBe_basename              (* expect(basename(targetPath)).toBe(...) *)
| ToBe_extname               (* expect(extname(targetPath)).toBe(...) *)
| ToBeTrue_resolves          (* expect(exists).toBe(true), both branches *)
| ToHaveProperty             (* expect(targetDeps).toHaveProperty(...) *)
| ToBeDefined_source         (* expect(sourceVersion).toBeDefined() *)
| ToBeDefined_target         (* expect(targetVersion).toBeDefined() *)
| ToBeTrue_validSource       (* expect(isValidVersion(sourceVersion)).toBe(true) *)
| ToBeTrue_validTarget       (* expect(isValidVersion(targetVersion)).toBe(true) *)
| ToBeTrue_existsInTarget.   (* expect(existsInTarget).toBe(true) *)

Inductive exn : Type :=
| AssertionError (e : expectation)
| Error (msg : string)
| PropertyFailed (counterexample : jsstring) (cause : exn).

(** A computation returns, throws, or is still running when its fuel is
    spent. *)
Inductive js (A : Type) : Type :=
| Ret (a : A)
| Throw (e : exn)
| Diverge.
Arguments Ret {A} a.
Arguments Throw {A} e.
Arguments Diverge {A}.

#[global] Instance js_ret : MRet js := fun A a => Ret a.
#[global] Instance js_bind : MBind js := fun A B f x =>
  match x with
  | Ret a => f a
  | Throw e => Throw e
  | Diverge => Diverge
  end.

(** [expect(b).toBe(true)] and the other matchers, once the matcher's
    verdict [b] is known. *)
Definition expect (e : expectation) (b : bool) : js unit :=
  if b then Ret tt else Throw (AssertionError e).

(** A library call that throws when it has no result. *)
Definition orThrow {A} (msg : string) (x : option A) : js A :=
  match x with Some a => Ret a | None => Throw (Error msg) end.

(** A loop that has a result with the fuel given. *)
Definition orDiverge {A} (x : option A) : js A :=
  match x with Some a => Ret a | None => Diverge end.

(** [array.forEach(f)]: the first exception ends the iteration. *)
Fixpoint forEach {A} (f : A -> js unit) (l : list A) : js unit :=
  match l with
  | [] => Ret tt
  | x :: l' => f x ;; forEach f l'
  end.

(** ** The [path] module (POSIX) *)

(** The segments of a path, split at each [/]. *)
Fixpoint split_slash (s : jsstring) : list jsstring :=
  match s with
  | [] => [[]]
  | c :: s' =>
      if N.eqb c SLASH then [] :: split_slash s'
      else match split_slash s' with
           | seg :: segs => (c :: seg) :: segs
           | [] => [[c]]
           end
  end.

(** Segments joined with [/]. *)
Fixpoint join_slash (segs : list jsstring) : jsstring :=
  match segs with
  | [] => []
  | [seg] => seg
  | seg :: segs' => seg ++ SLASH :: join_slash segs'
  end.

(** One step of [normalizeString]: the stack holds the segments kept so
    far, the last one first. *)
Definition norm_step (allowAboveRoot : bool) (stack : list jsstring)
    (seg : jsstring) : list jsstring :=
  if bool_decide (seg = []) || bool_decide (seg = str ".") then stack
  else if bool_decide (seg = str "..") then
    match stack with
    | top :: below =>
        if bool_decide (top = str "..") then seg :: stack else below
    | [] => if allowAboveRoot then [seg] else []
    end
  else seg :: stack.

Definition norm_segments (allowAboveRoot : bool) (path : jsstring)
    : list jsstring :=
  rev (fold_left (norm_step allowAboveRoot) (split_slash path) []).

Definition normalizeString (path : jsstring) (allowAboveRoot : bool)
    : jsstring :=
  join_slash (norm_segments allowAboveRoot path).

Definition isAbsolute (path : jsstring) : bool :=
  match path with c :: _ => N.eqb c SLASH | [] => false end.

Definition trailingSeparator (path : jsstring) : bool :=
  match rev path with c :: _ => N.eqb c SLASH | [] => false end.

(** [path.normalize] *)
Definition normalize (path : jsstring) : jsstring :=
  match path with
  | [] => str "."
  | _ =>
      match normalizeString path (negb (isAbsolute path)) with
      | [] =>
          if isAbsolute path then str "/"
          else if trailingSeparator path then str "./" else str "."
      | p =>
          let p' := if trailingSeparator path then p ++ [SLASH] else p in
          if isAbsolute path then SLASH :: p' else p'
      end
  end.

(** [path.join(...args)] *)
Definition join (args : list jsstring) : jsstring :=
  match filter (fun a : jsstring => a ≠ []) args with
  | [] => str "."
  | parts => normalize (join_slash parts)
  end.

(** The segments of [path.resolve(path)]: an absolute path stands for
    itself, any other is taken from the working directory. *)
Definition resolve_segments (cwd path : jsstring) : list jsstring :=
  if isAbsolute path then norm_segments false path
  else norm_segments false (cwd ++ SLASH :: path).

(** [path.resolve(path)] *)
Definition resolve (cwd path : jsstring) : jsstring :=
  SLASH :: join_slash (resolve_segments cwd path).

(** What is left of two segment lists once their common prefix is gone. *)
Fixpoint strip_common (a b : list jsstring) : list jsstring * list jsstring :=
  match a, b with
  | x :: a', y :: b' =>
      if bool_decide (x = y) then strip_common a' b' else (a, b)
  | _, _ => (a, b)
  end.

(** [path.relative(from, to)]: one [..] for each segment of [from] below the
    common directory, then the segments of [to] below it. *)
Definition relative (cwd from to : jsstring) : jsstring :=
  let '(up, down) :=
    strip_common (resolve_segments cwd from) (resolve_segments cwd to) in
  join_slash (List.repeat (str "..") (length up) ++ down).

(** [path.basename(path)]: the last segment that is not empty. *)
Definition basename (path : jsstring) : jsstring :=
  List.last (filter (fun a : jsstring => a ≠ []) (split_slash path)) [].

(** The text of [s] after its last dot, when it has a dot, with what
    precedes that dot. *)
Fixpoint split_last_dot (s : jsstring) : option (jsstring * jsstring) :=
  match s with
  | [] => None
  | c :: s' =>
      match split_last_dot s' with
      | Some (before, ext) => Some (c :: before, ext)
      | None => if N.eqb c DOT then Some ([], s') else None
      end
  end.

(** [path.extname(path)]: from the last dot of the last segment to its end;
    empty when there is no dot, when the dot starts the segment, and for
    the segment [..]. *)
Definition extname (path : jsstring) : jsstring :=
  let name := basename path in
  match split_last_dot name with
  | None => []
  | Some (before, ext) =>
      if bool_decide (before = []) || bool_decide (name = str "..") then []
      else DOT :: ext
  end.

(** ** The filesystem and the test's surroundings *)

Record filesystem : Type := {
  existsSync : jsstring -> bool;
  (** [statSync(p).isDirectory()]; [None] when [statSync] throws *)
  isDirectory : jsstring -> option bool;
  (** [None] when [readdirSync] throws *)
  readdirSync : jsstring -> option (list jsstring);
  (** [readFileSync(p, 'utf-8')]; [None] when it throws *)
  readFileSync : jsstring -> option jsstring
}.

(** An object whose values are strings, as [JSON.parse] builds it from the
    members of a JSON text, in their order: a name that comes twice keeps
    its first place and takes its last value. *)
Record object : Type := Object {
  members : list (jsstring * jsstring)
}.

(** The value the members give to a name: that of the last member with
    this name. *)
Fixpoint get (l : list (jsstring * jsstring)) (name : jsstring)
    : option jsstring :=
  match l with
  | [] => None
  | (key, value) :: l' =>
      match get l' name with
      | Some value' => Some value'
      | None => if bool_decide (name = key) then Some value else None
      end
  end.

(** [object[name]]; [None] is [undefined]. *)
#[global] Instance object_lookup : Lookup jsstring jsstring object :=
  fun name o => get (members o) name.

(** [{}] *)
#[global] Instance object_empty : Empty object := Object [].

(** A parsed [package.json]: [dependencies] may be missing. *)
Record packageJson : Type := {
  dependencies : option object
}.

Record env : Type := {
  __dirname : jsstring;
  cwd : jsstring;
  fs : filesystem;
  (** [JSON.parse] on a manifest text; [None] when it throws *)
  JSON_parse : jsstring -> option packageJson;
  (** the path lookup [toHaveProperty] falls back on when the name is not
      an own key of the object *)
  getPathInfo_exists : object -> jsstring -> bool;
  (** bound on the depth of the directory walk *)
  depth : nat
}.

(** [getAllFiles(dirPath, arrayOfFiles)].  The recursion of the source
    follows the directories as the filesystem shows them; [fuel] bounds its
    depth. *)
Fixpoint getAllFiles (fuel : nat) (f : filesystem) (dirPath : jsstring)
    (arrayOfFiles : list jsstring) : js (list jsstring) :=
  match fuel with
  | 0 => Diverge
  | S fuel' =>
      files ← orThrow "ENOENT: readdirSync" (readdirSync f dirPath);
      fold_left
        (fun (acc : js (list jsstring)) (file : jsstring) =>
           arrayOfFiles ← acc;
           let filePath := join [dirPath; file] in
           isDir ← orThrow "ENOENT: statSync" (isDirectory f filePath);
           if isDir : bool then getAllFiles fuel' f filePath arrayOfFiles
           else Ret (arrayOfFiles ++ [filePath]))
        files (Ret arrayOfFiles)
  end.

(** ** fast-check *)

(** [fc.constantFrom(...values)] throws when it is given no value. *)
Definition constantFrom (values : list jsstring) : js (list jsstring) :=
  match values with
  | [] => Throw (Error "fc.constantFrom expects at least one parameter")
  | _ => Ret values
  end.

(** The value a constant arbitrary generates from a random number. *)
Definition generate (values : list jsstring) (r : nat) : jsstring :=
  nth (r mod length values) values [].

(** A predicate fails on a value when it throws or returns [false]. *)
Definition failure (res : js bool) : option exn :=
  match res with
  | Ret true => None
  | Ret false => Some (Error "Property failed by returning false")
  | Throw e => Some e
  | Diverge => None
  end.

(** Shrinking a failing value of a constant arbitrary tries the first
    value once. *)
Definition shrink (values : list jsstring) (predicate : jsstring -> js bool)
    (r : nat) (x : jsstring) (cause : exn) : exn :=
  if Nat.eqb (r mod length values) 0 || Nat.leb (length values) 1 then
    PropertyFailed x cause
  else
    match failure (predicate (nth 0 values [])) with
    | Some cause0 => PropertyFailed (nth 0 values []) cause0
    | None => PropertyFailed x cause
    end.

(** The runs of [fc.assert(fc.property(arbitrary, predicate), ...)], one for
    each index of [runs]. *)
Fixpoint check_runs (values : list jsstring) (predicate : jsstring -> js bool)
    (random : nat -> nat) (runs : list nat) : js unit :=
  match runs with
  | [] => Ret tt
  | i :: runs' =>
      let x := generate values (random i) in
      match predicate x with
      | Diverge => Diverge
      | res =>
          match failure res with
          | Some cause => Throw (shrink values predicate (random i) x cause)
          | None => check_runs values predicate random runs'
          end
      end
  end.

Definition numRuns : nat := 100.

(** [fc.assert(fc.property(arbitrary, predicate), { numRuns: 100 })]: no seed
    is given, so the random source [random] (the number it gives at each
    run) is whatever the library draws when the test starts. *)
Definition fc_assert (values : list jsstring) (predicate : jsstring -> js bool)
    (random : nat -> nat) : js unit :=
  check_runs values predicate random (seq 0 numRuns).

(** ** The test file *)

Definition sourceRoot (w : env) : jsstring := join [__dirname w; str "../../"].
Definition targetRoot (w : env) : jsstring := join [__dirname w; str "../"].

(** *** Property 1: complete file migration *)

Definition sourceComponentsDir (w : env) : jsstring :=
  join [sourceRoot w; str "src/components"].

Definition targetPath (w : env) (sourceFilePath : jsstring) : jsstring :=
  let relativePath := relative (cwd w) (sourceComponentsDir w) sourceFilePath in
  join [targetRoot w; str "src/components"; relativePath].

Definition property1_predicate (w : env) (sourceFilePath : jsstring)
    : js bool :=
  if includes sourceFilePath (str "/src/components/") then
    let targetPath := targetPath w sourceFilePath in
    expect ToBeTrue_exists (existsSync (fs w) targetPath);;
    expect ToBe_basename
      (bool_decide (basename targetPath = basename sourceFilePath));;
    expect ToBe_extname
      (bool_decide (extname targetPath = extname sourceFilePath));;
    Ret true
  else Ret true.

Definition allSourceFiles (w : env) : js (list jsstring) :=
  if existsSync (fs w) (sourceComponentsDir w)
  then getAllFiles (depth w) (fs w) (sourceComponentsDir w) []
  else Ret [].

(** The test, in the surroundings [w], with the random source [random] of
    this run. *)
Definition property1 (w : env) (random : nat -> nat) : js unit :=
  allSourceFiles ← allSourceFiles w;
  arbitrary ← constantFrom allSourceFiles;
  fc_assert arbitrary (property1_predicate w) random.

(** *** Property 2: import path consistency *)

Definition targetComponentsDir (w : env) : jsstring :=
  join [targetRoot w; str "src/components"].

Definition componentFiles (w : env) : js (list jsstring) :=
  if existsSync (fs w) (targetComponentsDir w)
  then
    files ← getAllFiles (depth w) (fs w) (targetComponentsDir w) [];
    Ret (List.filter
           (fun f => endsWith f (str ".tsx") || endsWith f (str ".ts")) files)
  else Ret [].

(** The [imports] array of a file content. *)
Definition extractImports (content : jsstring) : option (list jsstring) :=
  exec_all array_push importRegex content [].

(** The five-way existence test, written out twice in the source. *)
Definition aliasExists (w : env) (importPath : jsstring) : bool :=
  let resolvedPath := replace importPath (str "@/") (str "src/") in
  let fullPath := join [targetRoot w; resolvedPath] in
  existsSync (fs w) fullPath
  || existsSync (fs w) (fullPath ++ str ".ts")
  || existsSync (fs w) (fullPath ++ str ".tsx")
  || existsSync (fs w) (join [fullPath; str "index.ts"])
  || existsSync (fs w) (join [fullPath; str "index.tsx"]).

Definition relativeExists (w : env) (componentFile importPath : jsstring)
    : bool :=
  let componentDir := join [componentFile; str ".."] in
  let resolvedPath := join [componentDir; importPath] in
  existsSync (fs w) resolvedPath
  || existsSync (fs w) (resolvedPath ++ str ".ts")
  || existsSync (fs w) (resolvedPath ++ str ".tsx")
  || existsSync (fs w) (join [resolvedPath; str "index.ts"])
  || existsSync (fs w) (join [resolvedPath; str "index.tsx"]).

(** The body of [imports.forEach]. *)
Definition checkImport (w : env) (componentFile importPath : jsstring)
    : js unit :=
  if negb (startsWith importPath (str ".")) &&
     negb (startsWith importPath (str "@/"))
  then Ret tt
  else if startsWith importPath (str "@/assets") then Ret tt
  else if startsWith importPath (str "@/") then
    expect ToBeTrue_resolves (aliasExists w importPath)
  else if startsWith importPath (str ".") then
    expect ToBeTrue_resolves (relativeExists w componentFile importPath)
  else Ret tt.

Definition property2_predicate (w : env) (componentFile : jsstring)
    : js bool :=
  content ← orThrow "ENOENT: readFileSync" (readFileSync (fs w) componentFile);
  imports ← orDiverge (extractImports content);
  forEach (checkImport w componentFile) imports;;
  Ret true.

Definition property2 (w : env) (random : nat -> nat) : js unit :=
  componentFiles ← componentFiles w;
  arbitrary ← constantFrom componentFiles;
  fc_assert arbitrary (property2_predicate w) random.

(** *** Property 3: dependency completeness *)

Definition readJson (w : env) (path : jsstring) : js packageJson :=
  text ← orThrow "ENOENT: readFileSync" (readFileSync (fs w) path);
  orThrow "SyntaxError: JSON.parse" (JSON_parse w text).

(** The number a key stands for when it is an array index: the decimal
    text, with no leading zero, of a number below [2^32 - 1]. *)
Definition arrayIndex (key : jsstring) : option N :=
  match key with
  | [] => None
  | c :: rest =>
      if forallb isDigit key && (negb (N.eqb c 48) || bool_decide (rest = []))
      then
        let n := fold_left (fun acc d => (10 * acc + (d - 48))%N) key 0%N in
        if (n <? 4294967295)%N then Some n else None
      else None
  end.

(** An index key put at its place among index keys in ascending order. *)
Fixpoint insert_index (n : N) (key : jsstring) (l : list (N * jsstring))
    : list (N * jsstring) :=
  match l with
  | [] => [(n, key)]
  | (n', key') :: l' =>
      if (n <? n')%N then (n, key) :: (n', key') :: l'
      else (n', key') :: insert_index n key l'
  end.

(** The own keys of an object in the order in which they were created. *)
Definition ownKeys (o : object) : list jsstring :=
  fold_left Set_add (members o).*1 [].

(** [Object.keys(object)]: the keys that are array indices, in ascending
    order, then the other keys in the order in which they were created. *)
Definition Object_keys (o : object) : list jsstring :=
  (fold_left
     (fun acc key =>
        match arrayIndex key with
        | Some n => insert_index n key acc
        | None => acc
        end)
     (ownKeys o) []).*2
  ++ List.filter
       (fun key => match arrayIndex key with Some _ => false | None => true end)
       (ownKeys o).

Definition sourceRadixPackages (sourcePackageJson : packageJson)
    : list jsstring :=
  List.filter (fun pkg => startsWith pkg (str "@radix-ui/"))
    (Object_keys (default ∅ (dependencies sourcePackageJson))).

Definition isValidVersion (version : jsstring) : bool :=
  test versionRegex version.

(** [expect(object).toHaveProperty(name)]: an own key of the object, or a
    path that leads somewhere in it. *)
Definition toHaveProperty (w : env) (received : object) (name : jsstring)
    : bool :=
  bool_decide (is_Some (received !! name))
  || getPathInfo_exists w received name.

(** What a regular expression tests when it is given a value that may be
    [undefined]. *)
Definition toString (v : option jsstring) : jsstring :=
  default (str "undefined") v.

Definition property3_predicate (w : env)
    (sourcePackageJson targetPackageJson : packageJson)
    (radixPackage : jsstring) : js bool :=
  let targetDeps := default ∅ (dependencies targetPackageJson) in
  expect ToHaveProperty (toHaveProperty w targetDeps radixPackage);;
  sourceDeps ← orThrow "TypeError: Cannot read properties of undefined"
                  (dependencies sourcePackageJson);
  let sourceVersion := sourceDeps !! radixPackage in
  let targetVersion := targetDeps !! radixPackage in
  expect ToBeDefined_source (bool_decide (is_Some sourceVersion));;
  expect ToBeDefined_target (bool_decide (is_Some targetVersion));;
  expect ToBeTrue_validSource (isValidVersion (toString sourceVersion));;
  expect ToBeTrue_validTarget (isValidVersion (toString targetVersion));;
  Ret true.

Definition property3 (w : env) (random : nat -> nat) : js unit :=
  sourcePackageJson ← readJson w (join [__dirname w; str "../../package.json"]);
  targetPackageJson ← readJson w (join [__dirname w; str "../package.json"]);
  arbitrary ← constantFrom (sourceRadixPackages sourcePackageJson);
  fc_assert arbitrary
    (property3_predicate w sourcePackageJson targetPackageJson) random.

(** *** Property 4: CSS variable preservation *)

(** The text the source side is scanned in. *)
Definition sourceCss (sourceAppCss sourceIndexCss : jsstring) : jsstring :=
  sourceAppCss ++ [LF] ++ sourceIndexCss.

(** The [sourceVariables] set of a style-sheet text, as an array. *)
Definition sourceVariables (css : jsstring) : option (list jsstring) :=
  exec_all Set_add cssVariableRegex css [].

Definition existsInTarget (targetCss cssVariable : jsstring) : bool :=
  test (variablePattern cssVariable) targetCss.

Definition property4_predicate (targetCss cssVariable : jsstring) : js bool :=
  expect ToBeTrue_existsInTarget (existsInTarget targetCss cssVariable);;
  Ret true.

Definition readText (w : env) (path : jsstring) : js jsstring :=
  orThrow "ENOENT: readFileSync" (readFileSync (fs w) path).

Definition property4 (w : env) (random : nat -> nat) : js unit :=
  sourceAppCss ← readText w (join [sourceRoot w; str "src/App.css"]);
  sourceIndexCss ← readText w (join [sourceRoot w; str "src/index.css"]);
  targetCss ← readText w (join [targetRoot w; str "src/styles.css"]);
  sourceVariablesArray ←
    orDiverge (sourceVariables (sourceCss sourceAppCss sourceIndexCss));
  arbitrary ← constantFrom sourceVariablesArray;
  fc_assert arbitrary (property4_predicate targetCss) random.

(** ** What a pattern matches

    [lang r i s c0 c1]: the text [s], found at index [i] of the subject, is
    matched by [r], which turns the capture [c0] into [c1].  This says which
    texts a pattern can match, not which match the matcher prefers. *)
Fixpoint lang (r : regex) (i : nat) (s : jsstring)
    (c0 c1 : option jsstring) : Prop :=
  match r with
  | RLit l => s = l /\ c1 = c0
  | RChar cls => (exists c, s = [c] /\ cls c = true) /\ c1 = c0
  | RStar _ cls => forallb cls s = true /\ c1 = c0
  | RPlus _ cls => s <> [] /\ forallb cls s = true /\ c1 = c0
  | ROpt cls => (s = [] \/ exists c, s = [c] /\ cls c = true) /\ c1 = c0
  | RSeq r1 r2 =>
      exists s1 s2 cm,
        s = s1 ++ s2 /\ lang r1 i s1 c0 cm /\ lang r2 (i + length s1) s2 cm c1
  | RGroup r1 => (exists cm, lang r1 i s c0 cm) /\ c1 = Some s
  | RBol => s = [] /\ i = 0 /\ c1 = c0
  end.

(** ** Version specifiers, as texts *)

(** A run of one or more digits. *)
Definition numeric (d : jsstring) : Prop :=
  d <> [] /\ forallb isDigit d = true.

(** No range prefix, a caret, or a tilde. *)
Definition rangePrefix (p : jsstring) : Prop :=
  p = [] \/ p = str "^" \/ p = str "~".

(** An optional range prefix, a three-component numeric version, and
    nothing else. *)
Definition three_component_version (v : jsstring) : Prop :=
  exists p d1 d2 d3,
    v = p ++ d1 ++ DOT :: d2 ++ DOT :: d3 /\
    rangePrefix p /\ numeric d1 /\ numeric d2 /\ numeric d3.

(** A text that begins with such a version; anything may follow. *)
Definition begins_with_version (v : jsstring) : Prop :=
  exists core rest, v = core ++ rest /\ three_component_version core.

(** ** Import texts *)

(** A run of one or more white-space characters. *)
Definition blank (ws : jsstring) : Prop :=
  ws <> [] /\ forallb isSpace ws = true.

(** A text with no line terminator in it. *)
Definition one_line (t : jsstring) : Prop := forallb isDot t = true.

(** The texts [importRegex] matches, with the specifier it captures: the
    word [import], white space, a text on one line, white space, the word
    [from], white space, and a specifier on one line between two quote
    characters.  The white space may hold line breaks. *)
Definition import_text (mt specifier : jsstring) : Prop :=
  exists ws1 clause ws2 ws3 q1 q2,
    mt = str "import" ++ ws1 ++ clause ++ ws2 ++ str "from" ++ ws3 ++
         q1 :: specifier ++ [q2] /\
    blank ws1 /\ one_line clause /\ blank ws2 /\ blank ws3 /\
    isQuote q1 = true /\ isQuote q2 = true /\
    specifier <> [] /\ one_line specifier.

(** An import text occurs somewhere in the content. *)
Definition has_import_text (content : jsstring) : Prop :=
  exists pre mt post specifier,
    content = pre ++ mt ++ post /\ import_text mt specifier.

(** ** Custom-property declarations, as texts *)

(** The longest prefix of [s] in a class, and what follows it. *)
Fixpoint span (cls : N -> bool) (s : jsstring) : jsstring * jsstring :=
  match s with
  | c :: s' =>
      if cls c then let '(a, b) := span cls s' in (c :: a, b) else ([], s)
  | [] => ([], [])
  end.

(** The declaration head that starts [s], if one does: two hyphens, the
    longest run of word characters and hyphens, white space, a colon.  Gives
    the name and the text after the colon. *)
Definition declaration_at (s : jsstring) : option (jsstring * jsstring) :=
  match strip_prefix (str "--") s with
  | Some t =>
      let '(name, t1) := span isIdent t in
      match name with
      | [] => None
      | _ =>
          match snd (span isSpace t1) with
          | c :: rest => if N.eqb c COLON then Some (name, rest) else None
          | [] => None
          end
      end
  | None => None
  end.

(** The first declaration head in [s]. *)
Fixpoint next_declaration (s : jsstring) : option (jsstring * jsstring) :=
  match declaration_at s with
  | Some d => Some d
  | None =>
      match s with
      | [] => None
      | _ :: s' => next_declaration s'
      end
  end.

(** The names of the declaration heads of [s], each found after the end of
    the one before. *)
Fixpoint declared_names (fuel : nat) (s : jsstring) : list jsstring :=
  match fuel with
  | 0 => []
  | S fuel' =>
      match next_declaration s with
      | Some (name, rest) => name :: declared_names fuel' rest
      | None => []
      end
  end.

(** A text that does not end in the middle of a declaration head: each
    word character or hyphen has, somewhere after it, a character that is
    not white space. *)
Fixpoint closed (a : jsstring) : bool :=
  match a with
  | [] => true
  | c :: a' => (negb (isIdent c) || negb (forallb isSpace a')) && closed a'
  end.

(** The target text has a declaration of the name: two hyphens, the name,
    white space if any, a colon. *)
Definition declares (targetCss name : jsstring) : Prop :=
  exists pre ws post,
    targetCss = pre ++ str "--" ++ name ++ ws ++ COLON :: post /\
    forallb isSpace ws = true.

(** The end of the declaration pattern, after the name. *)
Definition css_tail (s : jsstring) (i : nat) (cap : option jsstring)
    : option mstate :=
  m (RStar true isSpace +> RChar (isChar COLON))%re s i cap
    (fun s' i' cap' => Some (MState s' i' cap')).

(** The names of the declaration heads of a text. *)
Definition names (s : jsstring) : list jsstring :=
  declared_names (S (length s)) s.

(** ** Paths, as lists of names *)

(** A name as [readdirSync] gives it: not empty, not [.] or [..], and
    without a separator. *)
Definition valid_name (n : jsstring) : bool :=
  negb (bool_decide (n = [])) && negb (bool_decide (n = str "."))
  && negb (bool_decide (n = str "..")) &&
  forallb (fun c => negb (N.eqb c SLASH)) n.

(** The absolute path of a list of names; the root for the empty list. *)
Definition abs (names : list jsstring) : jsstring :=
  SLASH :: join_slash names.

(** Each name after a separator: the absolute path of a list that is not
    empty. *)
Fixpoint slashes (names : list jsstring) : jsstring :=
  match names with
  | [] => []
  | n :: names' => SLASH :: n ++ slashes names'
  end.

(** [normalizeString] at work on a path, from a stack of names kept so far
    (the last one first). *)
Definition walk (stack : list jsstring) (path : jsstring) : list jsstring :=
  fold_left (norm_step false) (split_slash path) stack.

(** The names of the directory above. *)
Definition parent (names : list jsstring) : list jsstring :=
  rev (tail (rev names)).

(** Every name of a list is a valid name. *)
Definition valid_names (names : list jsstring) : Prop :=
  Forall (fun n => valid_name n = true) names.

(** [readdirSync] gives valid names. *)
Definition readdir_names (f : filesystem) : Prop :=
  forall d l, readdirSync f d = Some l -> valid_names l.

(** The names of the two [src/components] directories. *)
Definition componentsNames : list jsstring := [str "src"; str "components"].

(** ** Import paths and their candidates *)

(** The references the resolution check is run on: those that begin with
    [.] or [@/], but not those that begin with [@/assets]. *)
Definition subject_to_resolution (importPath : jsstring) : bool :=
  (startsWith importPath (str ".") || startsWith importPath (str "@/"))
  && negb (startsWith importPath (str "@/assets")).

(** The candidate path of a reference. *)
Definition candidate (w : env) (componentFile importPath : jsstring)
    : jsstring :=
  if startsWith importPath (str "@/")
  then join [targetRoot w; replace importPath (str "@/") (str "src/")]
  else join [join [componentFile; str ".."]; importPath].

(** The five entries that make a candidate resolve. *)
Definition fallbacks (c : jsstring) : list jsstring :=
  [c; c ++ str ".ts"; c ++ str ".tsx";
   join [c; str "index.ts"]; join [c; str "index.tsx"]].

(** A reference resolves. *)
Definition resolves (w : env) (componentFile importPath : jsstring) : bool :=
  if startsWith importPath (str "@/") then aliasExists w importPath
  else relativeExists w componentFile importPath.

(** ** A project to run the tests on *)

Module Scenario.

Fixpoint assoc {A} (k : jsstring) (l : list (jsstring * A)) : option A :=
  match l with
  | [] => None
  | (k', v) :: l' => if bool_decide (k = k') then Some v else assoc k l'
  end.

(** A filesystem made of directories, with their entries, and files, with
    their texts. *)
Definition mkfs (dirs : list (jsstring * list jsstring))
    (files : list (jsstring * jsstring)) : filesystem :=
  {| existsSync p :=
       match assoc p dirs, assoc p files with
       | None, None => false
       | _, _ => true
       end;
     isDirectory p :=
       match assoc p dirs, assoc p files with
       | Some _, _ => Some true
       | None, Some _ => Some false
       | None, None => None
       end;
     readdirSync p := assoc p dirs;
     readFileSync p := assoc p files |}.

Definition manifest (deps : list (jsstring * jsstring)) : packageJson :=
  {| dependencies := Some (Object deps) |}.

Definition mkenv (f : filesystem) (source target : packageJson) : env :=
  {| __dirname := str "/repo/app/tests";
     cwd := str "/repo/app";
     fs := f;
     JSON_parse text :=
       if bool_decide (text = str "source manifest") then Some source
       else if bool_decide (text = str "target manifest") then Some target
       else None;
     getPathInfo_exists _ _ := false;
     depth := 8 |}.

Definition buttonTsx : jsstring :=
  str "import { cn } from '@/lib/utils'" ++ [LF] ++
  str "import logo from '@/assets/logo.svg'" ++ [LF] ++
  str "import { Card } from './ui/card'" ++ [LF] ++
  str "export const Button = () => null".

Definition cardTsx : jsstring :=
  str "import * as React from 'react'" ++ [LF] ++
  str "import { cn } from '../../lib/utils'".

Definition dirs : list (jsstring * list jsstring) :=
  [(str "/repo/src/components", [str "Button.tsx"; str "ui"]);
   (str "/repo/src/components/ui", [str "card.tsx"]);
   (str "/repo/app/src/components", [str "Button.tsx"; str "ui"]);
   (str "/repo/app/src/components/ui", [str "card.tsx"]);
   (str "/repo/app/src/lib", [str "utils.ts"])].

Definition texts : list (jsstring * jsstring) :=
  [(str "/repo/package.json", str "source manifest");
   (str "/repo/app/package.json", str "target manifest");
   (str "/repo/src/App.css", str ":root { --primary: #fff; }" ++ [LF]);
   (str "/repo/src/index.css",
    str "body { --radius: 4px; --primary: #000; }" ++ [LF]);
   (str "/repo/app/src/styles.css",
    str ":root { --primary: #fff; --radius : 4px; }" ++ [LF])].

Definition files : list (jsstring * jsstring) :=
  [(str "/repo/src/components/Button.tsx", buttonTsx);
   (str "/repo/src/components/ui/card.tsx", cardTsx);
   (str "/repo/app/src/components/Button.tsx", buttonTsx);
   (str "/repo/app/src/components/ui/card.tsx", cardTsx);
   (str "/repo/app/src/lib/utils.ts", str "export const cn = 1")]
  ++ texts.

Definition sourceManifest : packageJson :=
  manifest [(str "@radix-ui/react-dialog", str "^1.0.0");
            (str "react", str "^18.2.0")].

Definition targetManifest : packageJson :=
  manifest [(str "@radix-ui/react-dialog", str "^1.1.2");
            (str "react", str "^19.0.0")].

(** A migrated project. *)
Definition migrated : env :=
  mkenv (mkfs dirs files) sourceManifest targetManifest.

(** A source project with no components directory, no Radix dependency
    and no custom property, and a target with no components directory. *)
Definition bare : env :=
  mkenv
    (mkfs []
       [(str "/repo/package.json", str "source manifest");
        (str "/repo/app/package.json", str "target manifest");
        (str "/repo/src/App.css", str "body { margin: 0 }");
        (str "/repo/src/index.css", str "a { color: red }");
        (str "/repo/app/src/styles.css", str "a { color: red }")])
    (manifest [(str "react", str "^18.2.0")]) targetManifest.

(** A source project with two Radix dependencies, one of them missing
    from the target. *)
Definition half_migrated : env :=
  mkenv (mkfs dirs files)
    (manifest [(str "@radix-ui/react-dialog", str "^1.0.0");
               (str "@radix-ui/react-slot", str "^1.0.2")])
    targetManifest.

End Scenario.

(** A pattern that matches no empty text moves [lastIndex] forward at each
    iteration. *)
Definition advancing (r : regex) : Prop :=
  forall i mt c0 c1, lang r i mt c0 c1 -> mt <> [].

(** ** Tactics for character classes *)

Ltac cls_unfold :=
  unfold isIdent, isWord, isSpace, isChar, isDigit, isQuote, isDot,
    isLineTerminator, isRangePrefix, in_range, COLON, DOT, SLASH, HYPHEN, LF,
    DQUOTE in *.

Ltac cls_solve :=
  cls_unfold;
  repeat match goal with
         | |- _ = false => apply not_true_iff_false; intro
         | |- _ <> _ => intro
         end;
  rewrite ?negb_true_iff, ?orb_true_iff, ?andb_true_iff, ?N.leb_le, ?N.eqb_eq,
    ?orb_false_iff, ?andb_false_iff, ?N.leb_gt, ?N.eqb_neq in *;
  lia.

(** ** Files below a directory *)

(** [file_below f dir p]: the walk from [dir] meets the entry [p], which is
    not a directory, in [dir] itself or in a directory below it. *)
Inductive file_below (f : filesystem) : jsstring -> jsstring -> Prop :=
| file_below_here dir entries file :
    readdirSync f dir = Some entries -> In file entries ->
    isDirectory f (join [dir; file]) = Some false ->
    file_below f dir (join [dir; file])
| file_below_deeper dir entries sub p :
    readdirSync f dir = Some entries -> In sub entries ->
    isDirectory f (join [dir; sub]) = Some true ->
    file_below f (join [dir; sub]) p ->
    file_below f dir p.

(** The body of the [forEach] of the walk, with [walk_below] for the
    recursive call. *)
Definition visit (walk_below : jsstring -> list jsstring -> js (list jsstring))
    (f : filesystem) (dirPath : jsstring) (acc : js (list jsstring))
    (file : jsstring) : js (list jsstring) :=
  arrayOfFiles ← acc;
  let filePath := join [dirPath; file] in
  isDir ← orThrow "ENOENT: statSync" (isDirectory f filePath);
  if isDir : bool then walk_below filePath arrayOfFiles
  else Ret (arrayOfFiles ++ [filePath]).

(** ** Directories below a directory *)

(** [dir_below f dir d]: the walk from [dir] lists [d], which is [dir]
    itself or a directory met below it. *)
Inductive dir_below (f : filesystem) : jsstring -> jsstring -> Prop :=
| dir_below_here dir : dir_below f dir dir
| dir_below_deeper dir entries sub d :
    readdirSync f dir = Some entries -> In sub entries ->
    isDirectory f (join [dir; sub]) = Some true ->
    dir_below f (join [dir; sub]) d ->
    dir_below f dir d.

(** [nested f n dir]: below [dir] there are [n] directories, each in the
    one before. *)
Fixpoint nested (f : filesystem) (n : nat) (dir : jsstring) : Prop :=
  match n with
  | 0 => True
  | S n' =>
      exists entries sub,
        readdirSync f dir = Some entries /\ In sub entries /\
        isDirectory f (join [dir; sub]) = Some true /\
        nested f n' (join [dir; sub])
  end.

(** ** The root route

    [RootDocument] of [__root.tsx] puts one script in the head of the
    document.  The script runs before the page is shown: it reads the
    stored theme and sets the theme class of the root element. *)

(** What the script finds in the browser. *)
Record browser : Type := {
  (** the entries of [localStorage]; [None] when reading it throws *)
  localStorage : option (gmap jsstring jsstring);
  (** [window.matchMedia('(prefers-color-scheme: dark)').matches]; [None]
      when the call throws *)
  matchMedia_matches : option bool
}.

(** [storage.getItem(key)]: [null] for a key that is not there. *)
Definition getItem (storage : gmap jsstring jsstring) (key : jsstring)
    : option jsstring :=
  storage !! key.

(** [a || b] on a string that may be [null]: [null] and the empty string
    give [b]. *)
Definition orString (a : option jsstring) (b : jsstring) : jsstring :=
  match a with
  | Some (c :: s) => c :: s
  | _ => b
  end.

(** ASCII white space, as the DOM has it: tab, line feed, form feed,
    carriage return and space. *)
Definition isAsciiWhitespace (c : N) : bool :=
  N.eqb c 9 || N.eqb c 10 || N.eqb c 12 || N.eqb c 13 || N.eqb c 32.

(** The check a token list makes on each token it is given. *)
Definition validateToken (token : jsstring) : js unit :=
  match token with
  | [] => Throw (Error "SyntaxError")
  | _ =>
      if existsb isAsciiWhitespace token
      then Throw (Error "InvalidCharacterError")
      else Ret tt
  end.

(** A class list without some tokens. *)
Definition without (tokens classList : list jsstring) : list jsstring :=
  List.filter (fun c => negb (bool_decide (c ∈ tokens))) classList.

(** [classList.remove(...tokens)] *)
Definition classList_remove (tokens classList : list jsstring)
    : js (list jsstring) :=
  forEach validateToken tokens;;
  Ret (without tokens classList).

(** [classList.add(...tokens)]: a token that is not in the list goes to its
    end. *)
Definition classList_add (tokens classList : list jsstring)
    : js (list jsstring) :=
  forEach validateToken tokens;;
  Ret (fold_left Set_add tokens classList).

(** A call that changes the class list when it returns and leaves it as it
    was when it throws. *)
Definition update (old : list jsstring) (res : js (list jsstring))
    : js unit * list jsstring :=
  match res with
  | Ret new => (Ret tt, new)
  | Throw e => (Throw e, old)
  | Diverge => (Diverge, old)
  end.

(** The [try] block of the script, with the class list of the root element
    at its end, or at the throw. *)
Definition themeScript_try (b : browser) (classList : list jsstring)
    : js unit * list jsstring :=
  match localStorage b with
  | None => (Throw (Error "SecurityError"), classList)
  | Some storage =>
      let e := orString (getItem storage (str "vite-ui-theme")) (str "dark") in
      match update classList
              (classList_remove [str "light"; str "dark"] classList) with
      | (Ret _, classList) =>
          if bool_decide (str "system" = e) then
            match matchMedia_matches b with
            | None => (Throw (Error "TypeError"), classList)
            | Some matches =>
                update classList
                  (classList_add
                     [if matches then str "dark" else str "light"] classList)
            end
          else update classList (classList_add [e] classList)
      | thrown => thrown
      end
  end.

(** The script: [try { ... } catch (e) {}].  What is thrown is dropped; the
    class list stays as the block left it. *)
Definition themeScript (b : browser) (classList : list jsstring)
    : list jsstring :=
  snd (themeScript_try b classList).

(** ** Two runs of a test *)




(** * Properties *)

Example importRegex_two_statements :
  extractImports
    (str "import { a } from './b'" ++ [LF] ++
     str "import c from " ++ [DQUOTE] ++ str "@/d" ++ [DQUOTE])
  = Some [str "./b"; str "@/d"].
Proof. vm_compute. reflexivity. Qed.

(** ** The matcher finds what the pattern matches *)

Lemma strip_prefix_Some p s rest :
  strip_prefix p s = Some rest <-> s = p ++ rest.
Proof.
  revert s. induction p as [|a p IH]; intros s; simpl.
  - split; [intros [= ->]; reflexivity | intros ->; reflexivity].
  - destruct s as [|c s]; [split; [discriminate | intros [=]] |].
    destruct (N.eqb_spec c a) as [->|Hne].
    + rewrite IH. split; [intros ->; reflexivity | intros [= ->]; reflexivity].
    + split; [discriminate | intros [= Hc _]; congruence].
Qed.

Lemma strip_prefix_app p rest : strip_prefix p (p ++ rest) = Some rest.
Proof. apply strip_prefix_Some. reflexivity. Qed.

Lemma startsWith_true s p : startsWith s p = true <-> exists rest, s = p ++ rest.
Proof.
  unfold startsWith. destruct (strip_prefix p s) as [rest|] eqn:E.
  - apply strip_prefix_Some in E. split; eauto.
  - split; [discriminate | intros [rest ->]].
    rewrite strip_prefix_app in E. discriminate.
Qed.

Lemma orElse_Some {A} (x y : option A) r :
  orElse x y = Some r -> x = Some r \/ y = Some r.
Proof. destruct x; simpl; auto. Qed.

Lemma orElse_is_Some {A} (x y : option A) :
  is_Some x \/ is_Some y -> is_Some (orElse x y).
Proof. destruct x; simpl; intros [H|H]; eauto; destruct H; discriminate. Qed.

Lemma lang_any_capture r : forall i s c0 c1 c0',
  lang r i s c0 c1 -> exists c1', lang r i s c0' c1'.
Proof.
  induction r as [l|cls|g cls|g cls|cls|r1 IH1 r2 IH2|r1 IH1|];
    intros i s c0 c1 c0'; simpl.
  - intros [-> _]. eauto.
  - intros [H _]. eauto.
  - intros [H _]. eauto.
  - intros (H1 & H2 & _). eauto.
  - intros [H _]. eauto.
  - intros (s1 & s2 & cm & -> & L1 & L2).
    destruct (IH1 _ _ _ _ c0' L1) as [cm' L1'].
    destruct (IH2 _ _ _ _ cm' L2) as [c1' L2'].
    exists c1', s1, s2, cm'. auto.
  - intros [(cm & L) _]. destruct (IH1 _ _ _ _ c0' L) as [cm' L'].
    eauto.
  - intros (-> & -> & _). eauto.
Qed.

Section MatcherFacts.
Context {R : Type}.
Implicit Types (k : jsstring -> nat -> option jsstring -> option R).

Lemma star_m_sound g cls s i (k : jsstring -> nat -> option R) res :
  star_m g cls s i k = Some res ->
  exists s1 s2,
    s = s1 ++ s2 /\ forallb cls s1 = true /\ k s2 (i + length s1) = Some res.
Proof.
  revert i. induction s as [|c s IH]; intros i; simpl.
  - intros H. exists [], []. rewrite Nat.add_0_r. auto.
  - destruct (cls c) eqn:Ec.
    + intros H.
      assert (star_m g cls s (S i) k = Some res \/ k (c :: s) i = Some res)
        as [H'|H'].
      { destruct g; apply orElse_Some in H; tauto. }
      * destruct (IH _ H') as (s1 & s2 & -> & Hall & Hk).
        exists (c :: s1), s2. simpl. rewrite Ec, Hall.
        replace (i + S (length s1)) with (S i + length s1) by lia. auto.
      * exists [], (c :: s). rewrite Nat.add_0_r. auto.
    + intros H. exists [], (c :: s). rewrite Nat.add_0_r. auto.
Qed.

Lemma star_m_complete g cls s1 s2 i (k : jsstring -> nat -> option R) :
  forallb cls s1 = true ->
  is_Some (k s2 (i + length s1)) ->
  is_Some (star_m g cls (s1 ++ s2) i k).
Proof.
  revert i. induction s1 as [|c s1 IH]; intros i; simpl.
  - rewrite Nat.add_0_r. intros _ H.
    destruct s2 as [|c s2]; simpl; [exact H |].
    destruct (cls c); [| exact H].
    destruct g; apply orElse_is_Some; auto.
  - intros Hall Hk. apply andb_true_iff in Hall as [Ec Hall]. rewrite Ec.
    assert (is_Some (star_m g cls (s1 ++ s2) (S i) k)) as H.
    { apply IH; [exact Hall |].
      replace (S i + length s1) with (i + S (length s1)) by lia. exact Hk. }
    destruct g; apply orElse_is_Some; auto.
Qed.

Lemma m_sound r : forall s i cap k res,
  m r s i cap k = Some res ->
  exists s1 s2 cap',
    s = s1 ++ s2 /\ lang r i s1 cap cap' /\
    k s2 (i + length s1) cap' = Some res.
Proof.
  induction r as [l|cls|g cls|g cls|cls|r1 IH1 r2 IH2|r1 IH1|];
    intros s i cap k res; simpl.
  - destruct (strip_prefix l s) as [s'|] eqn:E; [|discriminate].
    apply strip_prefix_Some in E. intros H. exists l, s', cap. auto.
  - destruct s as [|c s]; [discriminate |].
    destruct (cls c) eqn:Ec; [|discriminate].
    intros H. exists [c], s, cap. simpl.
    replace (i + 1) with (S i) by lia. eauto 6.
  - intros H. apply star_m_sound in H as (s1 & s2 & -> & Hall & Hk).
    exists s1, s2, cap. auto.
  - destruct s as [|c s]; [discriminate |].
    destruct (cls c) eqn:Ec; [|discriminate].
    intros H. apply star_m_sound in H as (s1 & s2 & -> & Hall & Hk).
    exists (c :: s1), s2, cap. simpl. rewrite Ec, Hall.
    replace (i + S (length s1)) with (S i + length s1) by lia.
    repeat split; auto; discriminate.
  - destruct s as [|c s].
    + intros H. exists [], [], cap. simpl. rewrite Nat.add_0_r. auto.
    + destruct (cls c) eqn:Ec.
      * intros H. apply orElse_Some in H as [H|H].
        -- exists [c], s, cap. simpl.
           replace (i + 1) with (S i) by lia. eauto 8.
        -- exists [], (c :: s), cap. simpl. rewrite Nat.add_0_r. auto.
      * intros H. exists [], (c :: s), cap. simpl. rewrite Nat.add_0_r. auto.
  - intros H. apply IH1 in H as (s1 & s2 & cm & -> & L1 & H).
    apply IH2 in H as (s1' & s2' & cap' & -> & L2 & H).
    exists (s1 ++ s1'), s2', cap'. rewrite length_app, Nat.add_assoc.
    rewrite <- app_assoc. repeat split; auto.
    exists s1, s1', cm. auto.
  - intros H. apply IH1 in H as (s1 & s2 & cm & -> & L1 & H).
    replace (i + length s1 - i) with (length s1) in H by lia.
    rewrite take_app_length in H.
    exists s1, s2, (Some s1). eauto.
  - destruct (Nat.eqb_spec i 0) as [->|]; [|discriminate].
    intros H. exists [], s, cap. simpl. auto.
Qed.

Lemma m_complete r : forall s1 s2 i cap cap' k,
  lang r i s1 cap cap' ->
  (forall c, is_Some (k s2 (i + length s1) c)) ->
  is_Some (m r (s1 ++ s2) i cap k).
Proof.
  induction r as [l|cls|g cls|g cls|cls|r1 IH1 r2 IH2|r1 IH1|];
    intros s1 s2 i cap cap' k; simpl.
  - intros [-> ->] Hk. rewrite strip_prefix_app. apply Hk.
  - intros [(c & -> & Ec) ->] Hk. simpl. rewrite Ec.
    specialize (Hk cap). simpl in Hk.
    replace (i + 1) with (S i) in Hk by lia. exact Hk.
  - intros [Hall ->] Hk. apply star_m_complete; auto.
  - intros (Hne & Hall & ->) Hk.
    destruct s1 as [|c s1]; [congruence |]. simpl in *.
    apply andb_true_iff in Hall as [Ec Hall]. rewrite Ec.
    apply star_m_complete; [exact Hall |].
    replace (S i + length s1) with (i + S (length s1)) by lia. apply Hk.
  - intros [[->|(c & -> & Ec)] ->] Hk; simpl in *.
    + rewrite Nat.add_0_r in Hk.
      destruct s2 as [|c s2]; [apply Hk |].
      destruct (cls c); [| apply Hk].
      apply orElse_is_Some. right. apply Hk.
    + rewrite Ec. apply orElse_is_Some. left.
      specialize (Hk cap). replace (i + 1) with (S i) in Hk by lia. exact Hk.
  - intros (t1 & t2 & cm & -> & L1 & L2) Hk. rewrite <- app_assoc.
    eapply IH1; [exact L1 |]. intros c.
    destruct (lang_any_capture _ _ _ _ _ c L2) as [c' L2'].
    eapply IH2; [exact L2' |]. intros c2.
    rewrite length_app, Nat.add_assoc in Hk. apply Hk.
  - intros [(cm & L) ->] Hk.
    eapply IH1; [exact L |]. intros c.
    replace (i + length s1 - i) with (length s1) by lia.
    rewrite take_app_length. apply Hk.
  - intros (-> & -> & ->) Hk. simpl in *. apply Hk.
Qed.
End MatcherFacts.

Lemma match_at_sound r s i st :
  match_at r s i = Some st ->
  exists mt,
    s = mt ++ m_rest st /\ lang r i mt None (m_capture st) /\
    m_index st = i + length mt.
Proof.
  unfold match_at. intros H.
  apply m_sound in H as (s1 & s2 & cap' & -> & L & [= <-]). simpl. eauto.
Qed.

Lemma match_at_complete r mt post i c :
  lang r i mt None c -> is_Some (match_at r (mt ++ post) i).
Proof.
  intros L. unfold match_at. eapply m_complete; [exact L |]. intros c'. eauto.
Qed.

Lemma search_sound r : forall s i st,
  search r s i = Some st ->
  exists pre mt,
    s = pre ++ mt ++ m_rest st /\
    lang r (i + length pre) mt None (m_capture st) /\
    m_index st = i + length pre + length mt.
Proof.
  induction s as [|c s IH]; intros i st; simpl.
  - destruct (match_at r [] i) as [st'|] eqn:E; [|discriminate].
    intros [= <-]. apply match_at_sound in E as (mt & E1 & L & E2).
    exists [], mt. simpl. rewrite Nat.add_0_r. auto.
  - destruct (match_at r (c :: s) i) as [st'|] eqn:E.
    + intros [= <-]. apply match_at_sound in E as (mt & E1 & L & E2).
      exists [], mt. simpl. rewrite Nat.add_0_r. auto.
    + intros H. apply IH in H as (pre & mt & -> & L & E2).
      exists (c :: pre), mt. simpl.
      replace (i + S (length pre)) with (S i + length pre) by lia. auto.
Qed.

Lemma search_complete r : forall pre mt post i c,
  lang r (i + length pre) mt None c ->
  is_Some (search r (pre ++ mt ++ post) i).
Proof.
  induction pre as [|a pre IH]; intros mt post i c L; simpl in *.
  - rewrite Nat.add_0_r in L.
    destruct (match_at_complete r mt post i c L) as [st E].
    destruct mt as [|a mt]; simpl in *.
    + destruct post; simpl; rewrite E; eauto.
    + rewrite E. eauto.
  - destruct (match_at r (a :: pre ++ mt ++ post) i); [eauto |].
    apply IH with (c := c).
    replace (S i + length pre) with (i + S (length pre)) by lia. exact L.
Qed.

Lemma test_true r text :
  test r text = true <->
  exists pre mt post c, text = pre ++ mt ++ post /\ lang r (length pre) mt None c.
Proof.
  unfold test. split.
  - destruct (search r text 0) as [st|] eqn:E; [|discriminate]. intros _.
    apply search_sound in E as (pre & mt & -> & L & _). simpl in L. eauto 8.
  - intros (pre & mt & post & c & -> & L).
    destruct (search_complete r pre mt post 0 c L) as [st ->]. reflexivity.
Qed.

(** ** Version specifiers *)

Lemma isValidVersion_true v :
  isValidVersion v = true <-> begins_with_version v.
Proof.
  unfold isValidVersion. rewrite test_true. split.
  - intros (pre & mt & post & c & -> & L). simpl in L.
    destruct L as (b & t1 & c1 & -> & (-> & Hpre & ->) & L).
    destruct L as (p & t2 & c2 & -> & (Hp & ->) & L).
    destruct L as (d1 & t3 & c3 & -> & (Hd1 & Hd1' & ->) & L).
    destruct L as (x1 & t4 & c4 & -> & ((x & -> & Hx) & ->) & L).
    destruct L as (d2 & t5 & c5 & -> & (Hd2 & Hd2' & ->) & L).
    destruct L as (y1 & d3 & c6 & -> & ((y & -> & Hy) & ->) & L).
    destruct L as (Hd3 & Hd3' & ->).
    apply N.eqb_eq in Hx, Hy. subst x y.
    destruct pre; [|discriminate]. simpl.
    exists (p ++ d1 ++ DOT :: d2 ++ DOT :: d3), post. split.
    + rewrite <- !app_assoc. simpl. rewrite <- !app_assoc. reflexivity.
    + exists p, d1, d2, d3. repeat split; auto.
      destruct Hp as [->|(a & -> & Ha)]; [left; reflexivity |].
      unfold isRangePrefix in Ha. apply orb_true_iff in Ha as [Ha|Ha];
        apply N.eqb_eq in Ha; subst a; [right; left | right; right]; reflexivity.
  - intros (core & rest & -> & p & d1 & d2 & d3 & -> & Hp & H1 & H2 & H3).
    destruct H1 as [H1 H1'], H2 as [H2 H2'], H3 as [H3 H3'].
    exists [], (p ++ d1 ++ DOT :: d2 ++ DOT :: d3), rest, None.
    split; [reflexivity |]. simpl.
    exists [], (p ++ d1 ++ DOT :: d2 ++ DOT :: d3), None.
    repeat split; auto.
    exists p, (d1 ++ DOT :: d2 ++ DOT :: d3), None. repeat split; auto.
    { destruct Hp as [->|[->| ->]]; [left; reflexivity | right | right];
        eexists; split; reflexivity. }
    exists d1, (DOT :: d2 ++ DOT :: d3), None. repeat split; auto.
    exists [DOT], (d2 ++ DOT :: d3), None. repeat split; eauto.
    exists d2, (DOT :: d3), None. repeat split; auto.
    exists [DOT], d3, None. repeat split; eauto.
Qed.

(** ** The [exec] loop *)

Lemma search_shorter r s i st :
  advancing r -> search r s i = Some st -> length (m_rest st) < length s.
Proof.
  intros Hadv H. apply search_sound in H as (pre & mt & -> & L & _).
  apply Hadv in L. rewrite !length_app.
  destruct mt; [congruence | simpl; lia].
Qed.

Lemma exec_loop_fuel {Acc} (push : Acc -> jsstring -> Acc) r :
  advancing r ->
  forall fuel fuel' s i out,
    length s < fuel -> length s < fuel' ->
    exec_loop push fuel r s i out = exec_loop push fuel' r s i out.
Proof.
  intros Hadv. induction fuel as [|fuel IH]; intros fuel' s i out H1 H2;
    [lia |].
  destruct fuel' as [|fuel']; [lia |]. simpl.
  destruct (search r s i) as [st|] eqn:E; [|reflexivity].
  pose proof (search_shorter _ _ _ _ Hadv E). apply IH; lia.
Qed.

Lemma exec_loop_total {Acc} (push : Acc -> jsstring -> Acc) r :
  advancing r ->
  forall fuel s i out,
    length s < fuel -> is_Some (exec_loop push fuel r s i out).
Proof.
  intros Hadv. induction fuel as [|fuel IH]; intros s i out H1; [lia |].
  simpl. destruct (search r s i) as [st|] eqn:E; [|eauto].
  pose proof (search_shorter _ _ _ _ Hadv E). apply IH; lia.
Qed.

(** Whatever holds of the accumulator at the start and is kept by the push
    of a capture of a match in the text, holds at the end. *)
Lemma exec_loop_invariant {Acc} (push : Acc -> jsstring -> Acc)
    (P : Acc -> Prop) r text :
  (forall acc pre mt post c,
     P acc -> text = pre ++ mt ++ post -> lang r (length pre) mt None c ->
     P (push acc (default [] c))) ->
  forall fuel s pre0 out res,
    text = pre0 ++ s -> P out ->
    exec_loop push fuel r s (length pre0) out = Some res -> P res.
Proof.
  intros Hpush. induction fuel as [|fuel IH]; intros s pre0 out res Ht HP;
    simpl; [discriminate |].
  destruct (search r s (length pre0)) as [st|] eqn:E.
  - apply search_sound in E as (pre & mt & Hs & L & Hi).
    intros H. rewrite Hi in H.
    replace (length pre0 + length pre + length mt)
      with (length (pre0 ++ pre ++ mt)) in H by (rewrite !length_app; lia).
    eapply IH in H; [exact H | |].
    + rewrite Ht, Hs, <- !app_assoc. reflexivity.
    + eapply Hpush; [exact HP | |].
      * rewrite Ht, Hs, app_assoc. reflexivity.
      * rewrite length_app. exact L.
  - intros [= <-]. exact HP.
Qed.

(** ** Import extraction *)

Lemma lang_importRegex i mt c0 c :
  lang importRegex i mt c0 c <->
  exists specifier, c = Some specifier /\ import_text mt specifier.
Proof.
  unfold importRegex, import_text, blank, one_line. cbn [lang]. split.
  - intros (t0 & r0 & c1 & -> & (-> & ->) & L).
    destruct L as (ws1 & r1 & c2 & -> & (H1 & H1' & ->) & L).
    destruct L as (cl & r2 & c3 & -> & (Hcl & ->) & L).
    destruct L as (ws2 & r3 & c4 & -> & (H2 & H2' & ->) & L).
    destruct L as (t4 & r4 & c5 & -> & (-> & ->) & L).
    destruct L as (ws3 & r5 & c6 & -> & (H3 & H3' & ->) & L).
    destruct L as (t6 & r6 & c7 & -> & ((q1 & -> & Hq1) & ->) & L).
    destruct L as (sp & r7 & c8 & -> & ((c9 & Hsp & Hsp' & _) & ->) & L).
    destruct L as ((q2 & -> & Hq2) & ->).
    exists sp. split; [reflexivity |].
    exists ws1, cl, ws2, ws3, q1, q2. repeat split; auto.
  - intros (sp & -> & ws1 & cl & ws2 & ws3 & q1 & q2 & -> &
            (H1 & H1') & Hcl & (H2 & H2') & (H3 & H3') & Hq1 & Hq2 & Hsp & Hsp').
    exists (str "import"). eexists _, c0.
    split; [reflexivity |]. split; [split; reflexivity |].
    exists ws1. eexists _, c0. split; [reflexivity |]. split; [auto |].
    exists cl. eexists _, c0. split; [reflexivity |]. split; [auto |].
    exists ws2. eexists _, c0. split; [reflexivity |]. split; [auto |].
    exists (str "from"). eexists _, c0.
    split; [reflexivity |]. split; [split; reflexivity |].
    exists ws3. eexists _, c0. split; [reflexivity |]. split; [auto |].
    exists [q1]. eexists _, c0. split; [reflexivity |]. split; [eauto |].
    exists sp, [q2], (Some sp). split; [reflexivity |].
    split; [split; [exists c0|]; auto |]. eauto.
Qed.

Lemma importRegex_advancing : advancing importRegex.
Proof.
  intros i mt c0 c1 L. apply lang_importRegex in L as (sp & _ & L).
  destruct L as (ws1 & cl & ws2 & ws3 & q1 & q2 & -> & _). discriminate.
Qed.

Lemma extractImports_total content : is_Some (extractImports content).
Proof.
  apply exec_loop_total; [exact importRegex_advancing | lia].
Qed.

Lemma extractImports_sound content imports :
  extractImports content = Some imports ->
  forall specifier, In specifier imports ->
    exists pre mt post,
      content = pre ++ mt ++ post /\ import_text mt specifier.
Proof.
  unfold extractImports, exec_all. intros H.
  refine (exec_loop_invariant array_push
            (fun acc => forall sp, In sp acc ->
               exists pre mt post,
                 content = pre ++ mt ++ post /\ import_text mt sp)
            importRegex content _ _ content [] [] imports eq_refl _ H).
  - intros acc pre mt post c HP -> L sp Hin.
    unfold array_push in Hin. apply in_app_or in Hin as [Hin|[<-|[]]]; [auto |].
    apply lang_importRegex in L as (sp' & -> & L). simpl. eauto.
  - intros sp [].
Qed.

Lemma exec_loop_push_nonempty fuel r : forall s i out res,
  out <> [] -> exec_loop array_push fuel r s i out = Some res -> res <> [].
Proof.
  induction fuel as [|fuel IH]; intros s i out res Hne; simpl; [discriminate |].
  destruct (search r s i) as [st|].
  - apply IH. unfold array_push. destruct out; discriminate.
  - intros [= <-]. exact Hne.
Qed.

Lemma extractImports_nil content :
  extractImports content = Some [] <-> ~ has_import_text content.
Proof.
  unfold extractImports, exec_all, has_import_text. simpl. split.
  - intros H (pre & mt & post & sp & -> & L).
    destruct (search_complete importRegex pre mt post 0 (Some sp)) as [st E].
    { apply lang_importRegex. eauto. }
    rewrite E in H. apply exec_loop_push_nonempty in H; [congruence |].
    unfold array_push. discriminate.
  - intros Hno. destruct (search importRegex content 0) as [st|] eqn:E;
      [|reflexivity].
    exfalso. apply Hno. apply search_sound in E as (pre & mt & -> & L & _).
    apply lang_importRegex in L as (sp & _ & L). eauto 8.
Qed.

(** ** Character classes *)

Lemma isIdent_not_space c : isIdent c = true -> isSpace c = false.
Proof. intros H. cls_solve. Qed.

Lemma isIdent_not_colon c : isIdent c = true -> isChar COLON c = false.
Proof. intros H. cls_solve. Qed.

Lemma isSpace_not_colon c : isSpace c = true -> isChar COLON c = false.
Proof. intros H. cls_solve. Qed.

(** ** The declaration pattern is deterministic *)

Lemma span_app cls s : fst (span cls s) ++ snd (span cls s) = s.
Proof.
  induction s as [|c s IH]; simpl; [reflexivity |].
  destruct (cls c); [|reflexivity].
  destruct (span cls s) as [a b]. simpl in *. congruence.
Qed.

Lemma span_fst_all cls s : forallb cls (fst (span cls s)) = true.
Proof.
  induction s as [|c s IH]; simpl; [reflexivity |].
  destruct (cls c) eqn:E; [|reflexivity].
  destruct (span cls s) as [a b]. simpl in *. rewrite E. exact IH.
Qed.

Lemma span_snd_head cls s c rest :
  snd (span cls s) = c :: rest -> cls c = false.
Proof.
  induction s as [|a s IH]; simpl; [discriminate |].
  destruct (cls a) eqn:E.
  - destruct (span cls s) as [x y]. simpl in *. exact IH.
  - simpl. intros [= <- _]. exact E.
Qed.

Lemma span_cons_true cls c s :
  cls c = true ->
  span cls (c :: s) = (c :: fst (span cls s), snd (span cls s)).
Proof. intros E. simpl. rewrite E. destruct (span cls s); reflexivity. Qed.

Lemma span_cons_false cls c s : cls c = false -> span cls (c :: s) = ([], c :: s).
Proof. intros E. simpl. rewrite E. reflexivity. Qed.

Lemma take_span cls s : take (length (fst (span cls s))) s = fst (span cls s).
Proof.
  rewrite <- (span_app cls s) at 2. apply take_app_length.
Qed.

Lemma orElse_None_r {A} (x : option A) : orElse x None = x.
Proof. destruct x; reflexivity. Qed.

(** A greedy run followed by something that cannot start with a character
    of the run takes the whole run. *)
Lemma star_m_greedy {R} cls s i (k : jsstring -> nat -> option R) :
  (forall c s' j, cls c = true -> k (c :: s') j = None) ->
  star_m true cls s i k =
  k (snd (span cls s)) (i + length (fst (span cls s))).
Proof.
  intros Hk. revert i. induction s as [|c s IH]; intros i; simpl.
  - rewrite Nat.add_0_r. reflexivity.
  - destruct (cls c) eqn:E.
    + rewrite (Hk _ _ _ E), orElse_None_r, IH.
      destruct (span cls s) as [a b]. simpl. f_equal. lia.
    + simpl. rewrite Nat.add_0_r. reflexivity.
Qed.

Lemma css_tail_eq s i cap :
  css_tail s i cap =
  match snd (span isSpace s) with
  | c :: rest =>
      if N.eqb c COLON
      then Some (MState rest (S (i + length (fst (span isSpace s)))) cap)
      else None
  | [] => None
  end.
Proof.
  unfold css_tail. cbn [m]. rewrite star_m_greedy.
  - destruct (snd (span isSpace s)) as [|c rest]; [reflexivity |].
    unfold isChar. reflexivity.
  - intros c s' j E. rewrite (isSpace_not_colon _ E). reflexivity.
Qed.

Lemma css_tail_ident c s i cap : isIdent c = true -> css_tail (c :: s) i cap = None.
Proof.
  intros E. rewrite css_tail_eq, span_cons_false by (apply isIdent_not_space, E).
  simpl. apply isIdent_not_colon in E. unfold isChar in E. rewrite E.
  reflexivity.
Qed.

Lemma match_at_css s i :
  match declaration_at s with
  | Some (name, rest) =>
      exists j, match_at cssVariableRegex s i = Some (MState rest j (Some name))
  | None => match_at cssVariableRegex s i = None
  end.
Proof.
  unfold declaration_at, match_at, cssVariableRegex. cbn [m].
  destruct (strip_prefix (str "--") s) as [t|]; [|reflexivity].
  destruct t as [|c t]; [reflexivity |].
  destruct (isIdent c) eqn:Ec.
  - rewrite (span_cons_true _ _ _ Ec).
    rewrite (star_m_greedy isIdent t _
               (fun s' i' =>
                  css_tail s' i'
                    (Some (take (i' - (i + length (str "--"))) (c :: t))))).
    + rewrite css_tail_eq.
      replace (S (i + length (str "--")) + length (fst (span isIdent t))
               - (i + length (str "--")))
        with (S (length (fst (span isIdent t)))) by lia.
      cbn [take]. rewrite take_span.
      destruct (snd (span isSpace (snd (span isIdent t)))) as [|d rest];
        [reflexivity |].
      destruct (N.eqb d COLON); [eauto | reflexivity].
    + intros d s' j Ed. apply css_tail_ident, Ed.
  - rewrite (span_cons_false _ _ _ Ec). reflexivity.
Qed.

Lemma cssVariableRegex_advancing : advancing cssVariableRegex.
Proof.
  intros i mt c0 c1. unfold cssVariableRegex. cbn [lang].
  intros (t0 & r0 & c2 & -> & (-> & _) & _). discriminate.
Qed.

Lemma search_css : forall s i,
  match next_declaration s with
  | Some (name, rest) =>
      exists j, search cssVariableRegex s i = Some (MState rest j (Some name))
  | None => search cssVariableRegex s i = None
  end.
Proof.
  induction s as [|c s IH]; intros i; cbn [next_declaration search].
  - pose proof (match_at_css [] i) as H.
    destruct (declaration_at []) as [[name rest]|].
    + destruct H as [j ->]. eauto.
    + rewrite H. reflexivity.
  - pose proof (match_at_css (c :: s) i) as H.
    destruct (declaration_at (c :: s)) as [[name rest]|].
    + destruct H as [j ->]. eauto.
    + rewrite H. apply IH.
Qed.

Lemma next_declaration_suffix s name rest :
  next_declaration s = Some (name, rest) ->
  exists pre, s = pre ++ rest /\ length rest < length s.
Proof.
  intros H. pose proof (search_css s 0) as Hs. rewrite H in Hs.
  destruct Hs as [j Hs].
  pose proof (search_shorter _ _ _ _ cssVariableRegex_advancing Hs) as Hlt.
  apply search_sound in Hs as (pre & mt & -> & _). simpl in *.
  exists (pre ++ mt). rewrite <- app_assoc. auto.
Qed.

Lemma declared_names_fuel : forall fuel fuel' s,
  length s < fuel -> length s < fuel' ->
  declared_names fuel s = declared_names fuel' s.
Proof.
  induction fuel as [|fuel IH]; intros fuel' s H1 H2; [lia |].
  destruct fuel' as [|fuel']; [lia |]. simpl.
  destruct (next_declaration s) as [[name rest]|] eqn:E; [|reflexivity].
  apply next_declaration_suffix in E as (pre & _ & Hlt).
  f_equal. apply IH; lia.
Qed.

Lemma names_fuel fuel s : length s < fuel -> declared_names fuel s = names s.
Proof. intros H. apply declared_names_fuel; [exact H | lia]. Qed.

Lemma exec_loop_css {Acc} (push : Acc -> jsstring -> Acc) : forall fuel s i out,
  length s < fuel ->
  exec_loop push fuel cssVariableRegex s i out =
  Some (fold_left push (declared_names fuel s) out).
Proof.
  induction fuel as [|fuel IH]; intros s i out Hlt; [lia |]. simpl.
  pose proof (search_css s i) as Hs.
  destruct (next_declaration s) as [[name rest]|] eqn:E.
  - destruct Hs as [j ->]. simpl.
    apply next_declaration_suffix in E as (pre & _ & Hlt').
    apply IH. lia.
  - rewrite Hs. reflexivity.
Qed.

Lemma sourceVariables_names css :
  sourceVariables css = Some (fold_left Set_add (names css) []).
Proof.
  unfold sourceVariables, exec_all. rewrite exec_loop_css by lia. reflexivity.
Qed.

(** ** Texts put one after the other *)

Lemma closed_suffix x y : closed (x ++ y) = true -> closed y = true.
Proof.
  induction x as [|c x IH]; simpl; [auto |].
  intros H. apply andb_true_iff in H as [_ H]. auto.
Qed.

Lemma closed_no_open_tail pre c ws :
  closed (pre ++ c :: ws) = true -> isIdent c = true ->
  forallb isSpace ws = true -> False.
Proof.
  intros H Hc Hws. apply closed_suffix in H. simpl in H.
  rewrite Hc, Hws in H. discriminate.
Qed.

Lemma span_app_nonempty cls s b :
  snd (span cls s) <> [] ->
  span cls (s ++ b) = (fst (span cls s), snd (span cls s) ++ b).
Proof.
  induction s as [|c s IH]; simpl; [congruence |].
  destruct (cls c); [|reflexivity].
  destruct (span cls s) as [x y]. simpl in *. intros H.
  rewrite (IH H). reflexivity.
Qed.

Lemma span_snd_nil cls s : snd (span cls s) = [] -> forallb cls s = true.
Proof.
  intros H. rewrite <- (span_app cls s), H, app_nil_r. apply span_fst_all.
Qed.

Lemma nonempty_last {A} (l : list A) : l <> [] -> exists l' x, l = l' ++ [x].
Proof.
  intros H. destruct (exists_last H) as (l' & x & ->). eauto.
Qed.

Lemma declaration_at_app a b :
  a <> [] -> closed a = true ->
  declaration_at (a ++ b) =
  match declaration_at a with
  | Some (name, rest) => Some (name, rest ++ b)
  | None => None
  end.
Proof.
  intros Hne Hcl. unfold declaration_at.
  destruct a as [|c1 a]; [congruence |].
  change (str "--") with [HYPHEN; HYPHEN]. cbn [strip_prefix app].
  destruct (N.eqb_spec c1 HYPHEN) as [->|]; [|reflexivity].
  destruct a as [|c2 t].
  { simpl in Hcl. discriminate. }
  cbn [app]. destruct (N.eqb_spec c2 HYPHEN) as [->|]; [|reflexivity].
  assert (Hsnd : snd (span isIdent t) <> []).
  { intros E. apply span_snd_nil in E.
    destruct t as [|c t].
    - simpl in Hcl. discriminate.
    - destruct (nonempty_last (c :: t)) as (t' & x & Et); [discriminate |].
      rewrite Et in E, Hcl. rewrite forallb_app in E.
      apply andb_true_iff in E as [_ E]. simpl in E.
      apply andb_true_iff in E as [E _].
      apply (closed_no_open_tail (HYPHEN :: HYPHEN :: t') x []); auto. }
  rewrite (span_app_nonempty _ _ b Hsnd).
  pose proof (span_app isIdent t) as Et.
  pose proof (span_fst_all isIdent t) as Hall.
  destruct (span isIdent t) as [name t1]. simpl in *.
  destruct name as [|n0 name]; [reflexivity |].
  assert (Hsnd' : snd (span isSpace t1) <> []).
  { intros E. apply span_snd_nil in E.
    destruct (nonempty_last (n0 :: name)) as (n' & x & En); [discriminate |].
    rewrite En in Et, Hall. rewrite forallb_app in Hall.
    apply andb_true_iff in Hall as [_ Hall]. simpl in Hall.
    apply andb_true_iff in Hall as [Hall _].
    rewrite <- Et, <- app_assoc in Hcl.
    apply (closed_no_open_tail (HYPHEN :: HYPHEN :: n') x t1); auto. }
  rewrite (span_app_nonempty _ _ b Hsnd'). simpl.
  destruct (snd (span isSpace t1)) as [|d rest]; [congruence |].
  simpl. destruct (N.eqb d COLON); reflexivity.
Qed.

Lemma next_declaration_app : forall a b,
  closed a = true ->
  next_declaration (a ++ b) =
  match next_declaration a with
  | Some (name, rest) => Some (name, rest ++ b)
  | None => next_declaration b
  end.
Proof.
  induction a as [|c a IH]; intros b Hcl.
  - reflexivity.
  - cbn [next_declaration app].
    change (c :: a ++ b) with ((c :: a) ++ b).
    rewrite declaration_at_app by (auto; discriminate).
    destruct (declaration_at (c :: a)) as [[name rest]|]; [reflexivity |].
    apply IH. simpl in Hcl. apply andb_true_iff in Hcl as [_ Hcl]. exact Hcl.
Qed.

Lemma declared_names_app : forall fuel a b,
  closed a = true -> length (a ++ b) < fuel ->
  declared_names fuel (a ++ b) =
  declared_names fuel a ++ declared_names fuel b.
Proof.
  induction fuel as [|fuel IH]; intros a b Hcl Hlt; [lia |].
  cbn [declared_names]. rewrite next_declaration_app by exact Hcl.
  destruct (next_declaration a) as [[name rest]|] eqn:E.
  - destruct (next_declaration_suffix _ _ _ E) as (pre & Ea & Hlt').
    rewrite length_app in Hlt.
    rewrite IH.
    + simpl. f_equal. f_equal.
      change (match next_declaration b with
              | Some (name0, rest0) => name0 :: declared_names fuel rest0
              | None => []
              end) with (declared_names (S fuel) b).
      apply declared_names_fuel; lia.
    + rewrite Ea in Hcl. apply closed_suffix in Hcl. exact Hcl.
    + rewrite length_app. lia.
  - reflexivity.
Qed.

Lemma names_app a b : closed a = true -> names (a ++ b) = names a ++ names b.
Proof.
  intros Hcl. unfold names at 1. rewrite declared_names_app by (auto; lia).
  rewrite length_app. f_equal; apply names_fuel; lia.
Qed.

(** ** Sets of names *)

Lemma Set_add_elem (a : list jsstring) x y :
  y ∈ Set_add a x <-> y ∈ a \/ y = x.
Proof.
  unfold Set_add. case_bool_decide as Hx.
  - split; [auto | intros [H| ->]; auto].
  - rewrite elem_of_app, list_elem_of_singleton. reflexivity.
Qed.

Lemma Set_add_NoDup (a : list jsstring) x : NoDup a -> NoDup (Set_add a x).
Proof.
  intros H. unfold Set_add. case_bool_decide as Hx; [exact H |].
  apply NoDup_app. repeat split; [exact H | | apply NoDup_singleton].
  intros y Hy Hy'. apply list_elem_of_singleton in Hy'. congruence.
Qed.

Lemma fold_Set_add_elem (l : list jsstring) : forall acc y,
  y ∈ fold_left Set_add l acc <-> y ∈ acc \/ y ∈ l.
Proof.
  induction l as [|x l IH]; intros acc y; simpl.
  - rewrite elem_of_nil. tauto.
  - rewrite IH, Set_add_elem, elem_of_cons. tauto.
Qed.

Lemma fold_Set_add_NoDup (l : list jsstring) : forall acc,
  NoDup acc -> NoDup (fold_left Set_add l acc).
Proof.
  induction l as [|x l IH]; intros acc H; simpl; [exact H |].
  apply IH, Set_add_NoDup, H.
Qed.

Lemma sourceVariables_elem css vs y :
  sourceVariables css = Some vs -> (y ∈ vs <-> y ∈ names css).
Proof.
  rewrite sourceVariables_names. intros [= <-].
  rewrite fold_Set_add_elem, elem_of_nil. tauto.
Qed.

Lemma sourceVariables_NoDup css vs : sourceVariables css = Some vs -> NoDup vs.
Proof.
  rewrite sourceVariables_names. intros [= <-].
  apply fold_Set_add_NoDup, NoDup_nil_2.
Qed.

(** ** Names and white space *)

Lemma declaration_at_space c s : isIdent c = false -> declaration_at (c :: s) = None.
Proof.
  intros E. unfold declaration_at. change (str "--") with [HYPHEN; HYPHEN].
  cbn [strip_prefix]. destruct (N.eqb_spec c HYPHEN) as [->|]; [|reflexivity].
  discriminate.
Qed.

Lemma isSpace_not_ident c : isSpace c = true -> isIdent c = false.
Proof. intros H. cls_solve. Qed.

Lemma next_declaration_blank sep :
  forallb isSpace sep = true -> next_declaration sep = None.
Proof.
  induction sep as [|c sep IH]; simpl; [reflexivity |].
  intros H. apply andb_true_iff in H as [Hc H].
  rewrite (declaration_at_space _ _ (isSpace_not_ident _ Hc)). auto.
Qed.

Lemma closed_blank sep : forallb isSpace sep = true -> closed sep = true.
Proof.
  induction sep as [|c sep IH]; simpl; [reflexivity |].
  intros H. apply andb_true_iff in H as [Hc H].
  rewrite (isSpace_not_ident _ Hc). simpl. auto.
Qed.

Lemma names_blank sep : forallb isSpace sep = true -> names sep = [].
Proof.
  intros H. unfold names. simpl. rewrite (next_declaration_blank _ H).
  reflexivity.
Qed.

(** The names of two texts with white space between them. *)
Lemma names_separated a sep b :
  closed a = true -> forallb isSpace sep = true ->
  names (a ++ sep ++ b) = names a ++ names b.
Proof.
  intros Ha Hsep. rewrite names_app by exact Ha.
  rewrite names_app by (apply closed_blank, Hsep).
  rewrite (names_blank _ Hsep). reflexivity.
Qed.

Lemma declaration_at_name s name rest :
  declaration_at s = Some (name, rest) ->
  name <> [] /\ forallb isIdent name = true.
Proof.
  unfold declaration_at. destruct (strip_prefix (str "--") s) as [t|];
    [|discriminate].
  pose proof (span_fst_all isIdent t) as Hall.
  destruct (span isIdent t) as [n t1]. simpl in Hall.
  destruct n as [|n0 n]; [discriminate |].
  destruct (snd (span isSpace t1)) as [|d r]; [discriminate |].
  destruct (N.eqb d COLON); [|discriminate].
  intros [= <- _]. split; [discriminate | exact Hall].
Qed.

Lemma next_declaration_name : forall s name rest,
  next_declaration s = Some (name, rest) ->
  name <> [] /\ forallb isIdent name = true.
Proof.
  induction s as [|c s IH]; intros name rest; cbn [next_declaration].
  - destruct (declaration_at []) as [[n r]|] eqn:E; [|discriminate].
    intros [= <- <-]. eapply declaration_at_name, E.
  - destruct (declaration_at (c :: s)) as [[n r]|] eqn:E.
    + intros [= <- <-]. eapply declaration_at_name, E.
    + apply IH.
Qed.

Lemma declared_names_ident : forall fuel s name,
  name ∈ declared_names fuel s ->
  name <> [] /\ forallb isIdent name = true.
Proof.
  induction fuel as [|fuel IH]; intros s name; simpl.
  - intros H. apply elem_of_nil in H. destruct H.
  - destruct (next_declaration s) as [[n rest]|] eqn:E.
    + intros H. apply elem_of_cons in H as [->|H].
      * eapply next_declaration_name, E.
      * eapply IH, H.
    + intros H. apply elem_of_nil in H. destruct H.
Qed.

(** ** The test against the target text *)

Lemma lang_variablePattern name i mt c0 c :
  lang (variablePattern name) i mt c0 c <->
  (exists ws, mt = str "--" ++ name ++ ws ++ [COLON] /\
              forallb isSpace ws = true) /\ c = c0.
Proof.
  unfold variablePattern. cbn [lang]. split.
  - intros (t0 & r0 & c1 & -> & (-> & ->) & L).
    destruct L as (ws & r1 & c2 & -> & (Hws & ->) & L).
    destruct L as ((x & -> & Hx) & ->).
    apply N.eqb_eq in Hx. subst x. split; [|reflexivity].
    exists ws. rewrite <- app_assoc. auto.
  - intros [(ws & -> & Hws) ->].
    exists (str "--" ++ name), (ws ++ [COLON]), c0.
    split; [rewrite <- app_assoc; reflexivity |].
    split; [split; reflexivity |].
    exists ws, [COLON], c0. repeat split; auto.
    exists COLON. split; reflexivity.
Qed.

Lemma existsInTarget_true targetCss name :
  existsInTarget targetCss name = true <-> declares targetCss name.
Proof.
  unfold existsInTarget, declares. rewrite test_true. split.
  - intros (pre & mt & post & c & -> & L).
    apply lang_variablePattern in L as [(ws & -> & Hws) _].
    exists pre, ws, post. split; [|exact Hws].
    rewrite <- !app_assoc. reflexivity.
  - intros (pre & ws & post & -> & Hws).
    exists pre, (str "--" ++ name ++ ws ++ [COLON]), post, None. split.
    + rewrite <- !app_assoc. reflexivity.
    + apply lang_variablePattern. eauto.
Qed.

(** ** Paths *)

Lemma split_slash_nonempty s : split_slash s <> [].
Proof.
  destruct s as [|c s]; simpl; [discriminate |].
  destruct (N.eqb c SLASH); [discriminate |].
  destruct (split_slash s); discriminate.
Qed.

Lemma split_slash_app a b :
  split_slash (a ++ SLASH :: b) = split_slash a ++ split_slash b.
Proof.
  induction a as [|c a IH]; simpl.
  - reflexivity.
  - destruct (N.eqb c SLASH); [rewrite IH; reflexivity |].
    rewrite IH. pose proof (split_slash_nonempty a) as Hne.
    destruct (split_slash a); [congruence | reflexivity].
Qed.

Lemma split_slash_name n :
  forallb (fun c => negb (N.eqb c SLASH)) n = true -> split_slash n = [n].
Proof.
  induction n as [|c n IH]; simpl; [reflexivity |].
  intros H. apply andb_true_iff in H as [Hc H].
  apply negb_true_iff in Hc. rewrite Hc, (IH H). reflexivity.
Qed.

Lemma valid_name_spec n :
  valid_name n = true ->
  n <> [] /\ n <> str "." /\ n <> str ".." /\
  forallb (fun c => negb (N.eqb c SLASH)) n = true.
Proof.
  unfold valid_name. rewrite !andb_true_iff, !negb_true_iff.
  rewrite !bool_decide_eq_false. tauto.
Qed.

Lemma norm_step_name allow stack n :
  valid_name n = true -> norm_step allow stack n = n :: stack.
Proof.
  intros H. apply valid_name_spec in H as (H1 & H2 & H3 & _).
  unfold norm_step.
  rewrite (bool_decide_eq_false_2 _ H1), (bool_decide_eq_false_2 _ H2),
    (bool_decide_eq_false_2 _ H3). reflexivity.
Qed.

Lemma walk_app stack p q : walk stack (p ++ SLASH :: q) = walk (walk stack p) q.
Proof. unfold walk. rewrite split_slash_app, fold_left_app. reflexivity. Qed.

Lemma walk_slash stack q : walk stack (SLASH :: q) = walk stack q.
Proof. apply (walk_app stack [] q). Qed.

Lemma walk_name stack n : valid_name n = true -> walk stack n = n :: stack.
Proof.
  intros H. unfold walk.
  rewrite split_slash_name by (apply valid_name_spec in H; tauto).
  simpl. apply norm_step_name, H.
Qed.

Lemma walk_join_slash names : forall stack,
  Forall (fun n => valid_name n = true) names ->
  walk stack (join_slash names) = rev names ++ stack.
Proof.
  induction names as [|n names IH]; intros stack H; [reflexivity |].
  inversion H as [|? ? Hn Hns]; subst.
  destruct names as [|n' names].
  - simpl. apply walk_name, Hn.
  - change (join_slash (n :: n' :: names))
      with (n ++ SLASH :: join_slash (n' :: names)).
    rewrite walk_app, (walk_name _ _ Hn), IH by exact Hns.
    simpl. rewrite <- !app_assoc. reflexivity.
Qed.

Lemma walk_abs names stack :
  Forall (fun n => valid_name n = true) names ->
  walk stack (abs names) = rev names ++ stack.
Proof. intros H. unfold abs. rewrite walk_slash. apply walk_join_slash, H. Qed.

Lemma abs_slashes names : names <> [] -> abs names = slashes names.
Proof.
  unfold abs. induction names as [|n names IH]; [congruence |]. intros _.
  destruct names as [|n' names].
  - simpl. rewrite app_nil_r. reflexivity.
  - change (join_slash (n :: n' :: names))
      with (n ++ SLASH :: join_slash (n' :: names)).
    cbn [slashes]. f_equal. f_equal. apply IH. discriminate.
Qed.

Lemma slashes_app a b : slashes (a ++ b) = slashes a ++ slashes b.
Proof.
  induction a as [|n a IH]; simpl; [reflexivity |].
  rewrite IH, <- app_assoc. reflexivity.
Qed.

Lemma join_slash_nil_valid names :
  Forall (fun n => valid_name n = true) names -> join_slash names = [] ->
  names = [].
Proof.
  destruct names as [|n names]; [reflexivity |]. intros H E.
  inversion H as [|? ? Hn _]; subst. apply valid_name_spec in Hn as [Hn _].
  destruct names; simpl in E; [congruence |].
  destruct n; [congruence | discriminate].
Qed.

Lemma isAbsolute_nonempty p : isAbsolute p = true -> p <> [].
Proof. destruct p; [discriminate | discriminate]. Qed.

Lemma isAbsolute_slash p : isAbsolute p = true -> exists q, p = SLASH :: q.
Proof.
  destruct p as [|c q]; [discriminate |]. simpl. intros H.
  apply N.eqb_eq in H. subst c. eauto.
Qed.

Lemma isAbsolute_app p q : isAbsolute p = true -> isAbsolute (p ++ q) = true.
Proof. destruct p; [discriminate | auto]. Qed.

(** A normalized absolute path is the absolute path of the names left on
    the stack, with a separator after them when the path ended in one. *)
Lemma normalize_absolute p :
  isAbsolute p = true ->
  normalize p =
  match join_slash (rev (walk [] p)) with
  | [] => [SLASH]
  | t => SLASH :: (if trailingSeparator p then t ++ [SLASH] else t)
  end.
Proof.
  intros Habs. destruct p as [|c p]; [discriminate |].
  unfold normalize, normalizeString, norm_segments, walk. rewrite Habs.
  simpl negb.
  destruct (join_slash
              (rev (fold_left (norm_step false) (split_slash (c :: p)) [])));
    reflexivity.
Qed.

Lemma normalize_abs p :
  isAbsolute p = true -> trailingSeparator p = false ->
  normalize p = abs (rev (walk [] p)).
Proof.
  intros Habs Htr. rewrite (normalize_absolute _ Habs), Htr. unfold abs.
  destruct (join_slash (rev (walk [] p))); reflexivity.
Qed.

Lemma normalize_walk p :
  isAbsolute p = true ->
  Forall (fun n => valid_name n = true) (walk [] p) ->
  isAbsolute (normalize p) = true /\ walk [] (normalize p) = walk [] p.
Proof.
  intros Habs Hv. rewrite (normalize_absolute _ Habs).
  assert (Hv' : Forall (fun n => valid_name n = true) (rev (walk [] p))).
  { apply Forall_rev, Hv. }
  destruct (join_slash (rev (walk [] p))) as [|c t] eqn:E.
  - apply join_slash_nil_valid in E; [|exact Hv'].
    split; [reflexivity |].
    rewrite <- (rev_involutive (walk [] p)), E. reflexivity.
  - split; [reflexivity |]. rewrite walk_slash.
    destruct (trailingSeparator p).
    + rewrite <- E.
      change (join_slash (rev (walk [] p)) ++ [SLASH])
        with (join_slash (rev (walk [] p)) ++ SLASH :: []).
      rewrite walk_app, walk_join_slash by exact Hv'.
      rewrite rev_involutive, app_nil_r. reflexivity.
    + rewrite <- E, walk_join_slash by exact Hv'.
      rewrite rev_involutive, app_nil_r. reflexivity.
Qed.

Lemma join_2 a b :
  a <> [] -> b <> [] -> join [a; b] = normalize (a ++ SLASH :: b).
Proof.
  intros Ha Hb. unfold join.
  rewrite filter_cons_True, filter_cons_True by assumption.
  destruct a; [congruence | reflexivity].
Qed.

Lemma join_3 a b c :
  a <> [] -> b <> [] -> c <> [] ->
  join [a; b; c] = normalize (a ++ SLASH :: b ++ SLASH :: c).
Proof.
  intros Ha Hb Hc. unfold join.
  rewrite !filter_cons_True by assumption.
  destruct a; [congruence |]. destruct b; [congruence | reflexivity].
Qed.

Lemma trailingSeparator_app p n :
  n <> [] -> trailingSeparator (p ++ n) = trailingSeparator n.
Proof.
  intros Hn. unfold trailingSeparator. rewrite rev_app_distr.
  destruct (rev n) eqn:E; [|reflexivity].
  apply (f_equal (@rev N)) in E. rewrite rev_involutive in E. simpl in E.
  congruence.
Qed.

Lemma trailingSeparator_name n :
  forallb (fun c => negb (N.eqb c SLASH)) n = true ->
  trailingSeparator n = false.
Proof.
  intros H. unfold trailingSeparator.
  destruct (rev n) as [|c t] eqn:E; [reflexivity |].
  assert (Hin : In c n). { apply in_rev. rewrite E. left. reflexivity. }
  rewrite forallb_forall in H. apply H in Hin.
  apply negb_true_iff in Hin. exact Hin.
Qed.

Lemma trailingSeparator_join_slash p names :
  names <> [] -> Forall (fun n => valid_name n = true) names ->
  trailingSeparator (p ++ join_slash names) = false.
Proof.
  revert p. induction names as [|n names IH]; intros p Hne Hv; [congruence |].
  inversion Hv as [|? ? Hn Hns]; subst.
  apply valid_name_spec in Hn as (Hn1 & _ & _ & Hn4).
  destruct names as [|n' names].
  - simpl. rewrite trailingSeparator_app by exact Hn1.
    apply trailingSeparator_name, Hn4.
  - change (join_slash (n :: n' :: names))
      with (n ++ SLASH :: join_slash (n' :: names)).
    replace (p ++ n ++ SLASH :: join_slash (n' :: names))
      with ((p ++ n ++ [SLASH]) ++ join_slash (n' :: names))
      by (rewrite <- !app_assoc; reflexivity).
    apply IH; [discriminate | exact Hns].
Qed.

Lemma valid_name_nonempty n : valid_name n = true -> n <> [].
Proof. intros H. apply valid_name_spec in H. tauto. Qed.

Lemma join_slash_nonempty names :
  names <> [] -> Forall (fun n => valid_name n = true) names ->
  join_slash names <> [].
Proof.
  intros Hne Hv E. apply join_slash_nil_valid in E; auto.
Qed.

(** A directory and a name in it. *)
Lemma join_abs_name X n :
  Forall (fun n => valid_name n = true) X -> valid_name n = true ->
  join [abs X; n] = abs (X ++ [n]).
Proof.
  intros HX Hn. rewrite join_2;
    [| discriminate | apply valid_name_nonempty, Hn].
  rewrite normalize_abs.
  - rewrite walk_app, walk_abs, (walk_name _ _ Hn) by exact HX.
    rewrite app_nil_r. simpl. rewrite rev_involutive. reflexivity.
  - reflexivity.
  - replace (abs X ++ SLASH :: n) with ((abs X ++ [SLASH]) ++ n)
      by (rewrite <- app_assoc; reflexivity).
    apply valid_name_spec in Hn as (Hn1 & _ & _ & Hn4).
    rewrite trailingSeparator_app by exact Hn1.
    apply trailingSeparator_name, Hn4.
Qed.

Lemma valid_names_tail l : valid_names l -> valid_names (tail l).
Proof. intros H. destruct l; [exact H | inversion H; assumption]. Qed.

Lemma valid_names_parent l : valid_names l -> valid_names (parent l).
Proof.
  intros H. unfold parent, valid_names.
  apply Forall_rev, valid_names_tail, Forall_rev, H.
Qed.

Lemma walk_dotdot stack :
  valid_names stack -> walk stack (str "..") = tail stack.
Proof.
  intros H. unfold walk. change (split_slash (str "..")) with [str ".."].
  simpl. unfold norm_step.
  rewrite (bool_decide_eq_false_2 (str ".." = [])) by discriminate.
  rewrite (bool_decide_eq_false_2 (str ".." = str ".")) by discriminate.
  rewrite (bool_decide_eq_true_2 (str ".." = str "..")) by reflexivity.
  simpl. destruct stack as [|top below]; [reflexivity |].
  inversion H as [|? ? Htop _]; subst.
  apply valid_name_spec in Htop as (_ & _ & Htop & _).
  rewrite (bool_decide_eq_false_2 _ Htop). reflexivity.
Qed.

Lemma walk_up1 stack :
  valid_names stack -> walk stack (str "../") = tail stack.
Proof.
  intros H. change (str "../") with (str ".." ++ SLASH :: []).
  rewrite walk_app, walk_dotdot by exact H. reflexivity.
Qed.

Lemma walk_up2 stack :
  valid_names stack -> walk stack (str "../../") = tail (tail stack).
Proof.
  intros H. change (str "../../") with (str ".." ++ SLASH :: str "../").
  rewrite walk_app, walk_dotdot by exact H.
  apply walk_up1, valid_names_tail, H.
Qed.

Lemma targetRoot_walk w D :
  __dirname w = abs D -> valid_names D ->
  isAbsolute (targetRoot w) = true /\
  walk [] (targetRoot w) = rev (parent D).
Proof.
  intros HD Hv. unfold targetRoot. rewrite HD.
  rewrite join_2 by discriminate.
  assert (Hw : walk [] (abs D ++ SLASH :: str "../") = rev (parent D)).
  { rewrite walk_app, walk_abs, app_nil_r by exact Hv.
    rewrite walk_up1 by (apply Forall_rev, Hv).
    unfold parent. rewrite rev_involutive. reflexivity. }
  rewrite <- Hw. apply normalize_walk; [reflexivity |].
  rewrite Hw. apply Forall_rev, valid_names_parent, Hv.
Qed.

Lemma sourceRoot_walk w D :
  __dirname w = abs D -> valid_names D ->
  isAbsolute (sourceRoot w) = true /\
  walk [] (sourceRoot w) = rev (parent (parent D)).
Proof.
  intros HD Hv. unfold sourceRoot. rewrite HD.
  rewrite join_2 by discriminate.
  assert (Hw : walk [] (abs D ++ SLASH :: str "../../")
               = rev (parent (parent D))).
  { rewrite walk_app, walk_abs, app_nil_r by exact Hv.
    rewrite walk_up2 by (apply Forall_rev, Hv).
    unfold parent. rewrite !rev_involutive. reflexivity. }
  rewrite <- Hw. apply normalize_walk; [reflexivity |].
  rewrite Hw. apply Forall_rev, valid_names_parent, valid_names_parent, Hv.
Qed.

(** Names joined below a directory. *)
Lemma join_under root X names :
  isAbsolute root = true -> walk [] root = rev X ->
  valid_names names -> names <> [] ->
  join [root; join_slash names] = abs (X ++ names).
Proof.
  intros Habs Hw Hv Hne. rewrite join_2;
    [| apply isAbsolute_nonempty, Habs | apply join_slash_nonempty; auto].
  rewrite normalize_abs.
  - rewrite walk_app, Hw, walk_join_slash by exact Hv.
    rewrite rev_app_distr, !rev_involutive. reflexivity.
  - apply isAbsolute_app, Habs.
  - replace (root ++ SLASH :: join_slash names)
      with ((root ++ [SLASH]) ++ join_slash names)
      by (rewrite <- app_assoc; reflexivity).
    apply trailingSeparator_join_slash; auto.
Qed.

Lemma join_under2 root X A B :
  isAbsolute root = true -> walk [] root = rev X ->
  valid_names A -> A <> [] -> valid_names B -> B <> [] ->
  join [root; join_slash A; join_slash B] = abs (X ++ A ++ B).
Proof.
  intros Habs Hw HA HAne HB HBne. rewrite join_3;
    [| apply isAbsolute_nonempty, Habs | apply join_slash_nonempty; auto
     | apply join_slash_nonempty; auto].
  rewrite normalize_abs.
  - rewrite !walk_app, Hw, !walk_join_slash by assumption.
    rewrite !rev_app_distr, !rev_involutive, <- app_assoc. reflexivity.
  - apply isAbsolute_app, Habs.
  - replace (root ++ SLASH :: join_slash A ++ SLASH :: join_slash B)
      with ((root ++ SLASH :: join_slash A ++ [SLASH]) ++ join_slash B)
      by (rewrite <- !app_assoc; simpl; rewrite <- !app_assoc; reflexivity).
    apply trailingSeparator_join_slash; auto.
Qed.

Lemma walk_abs_nil X : valid_names X -> walk [] (abs X) = rev X.
Proof. intros H. rewrite walk_abs by exact H. apply app_nil_r. Qed.

Lemma strip_common_prefix A rest : strip_common A (A ++ rest) = ([], rest).
Proof.
  induction A as [|x A IH]; simpl; [destruct rest; reflexivity |].
  rewrite bool_decide_eq_true_2 by reflexivity. exact IH.
Qed.

Lemma relative_under cwd A rest :
  valid_names A -> valid_names rest ->
  relative cwd (abs A) (abs (A ++ rest)) = join_slash rest.
Proof.
  intros HA Hrest. unfold relative, resolve_segments, norm_segments.
  change (isAbsolute (abs A)) with true.
  change (isAbsolute (abs (A ++ rest))) with true. cbv iota.
  fold (walk [] (abs A)). fold (walk [] (abs (A ++ rest))).
  rewrite !walk_abs_nil, !rev_involutive by (try apply Forall_app; auto).
  rewrite strip_common_prefix. reflexivity.
Qed.

Lemma split_slash_join_slash names :
  names <> [] -> valid_names names -> split_slash (join_slash names) = names.
Proof.
  induction names as [|n names IH]; intros Hne Hv; [congruence |].
  inversion Hv as [|? ? Hn Hns]; subst.
  apply valid_name_spec in Hn as (_ & _ & _ & Hn).
  destruct names as [|n' names].
  - simpl. apply split_slash_name, Hn.
  - change (join_slash (n :: n' :: names))
      with (n ++ SLASH :: join_slash (n' :: names)).
    rewrite split_slash_app, (split_slash_name _ Hn), IH;
      [reflexivity | discriminate | exact Hns].
Qed.

Lemma filter_nonempty_valid names :
  valid_names names -> filter (fun a : jsstring => a ≠ []) names = names.
Proof.
  induction 1 as [|n names Hn _ IH]; [reflexivity |].
  rewrite filter_cons_True by (apply valid_name_nonempty, Hn).
  rewrite IH. reflexivity.
Qed.

Lemma basename_abs X n :
  valid_names X -> valid_name n = true -> basename (abs (X ++ [n])) = n.
Proof.
  intros HX Hn. unfold basename, abs.
  change (split_slash (SLASH :: join_slash (X ++ [n])))
    with ([] :: split_slash (join_slash (X ++ [n]))).
  assert (Hv : valid_names (X ++ [n])).
  { apply Forall_app. split; [exact HX | repeat constructor; exact Hn]. }
  rewrite split_slash_join_slash; [| destruct X; discriminate | exact Hv].
  rewrite filter_cons_False by (intros H; apply H; reflexivity).
  rewrite filter_nonempty_valid by exact Hv.
  apply last_last.
Qed.

Lemma includes_unfold s p :
  includes s p =
  startsWith s p || match s with [] => false | _ :: s' => includes s' p end.
Proof. destruct s; reflexivity. Qed.

Lemma includes_app x pat y : includes (x ++ pat ++ y) pat = true.
Proof.
  induction x as [|c x IH].
  - rewrite includes_unfold. apply orb_true_iff. left.
    apply startsWith_true. eauto.
  - rewrite includes_unfold. apply orb_true_iff. right. exact IH.
Qed.

(** ** The directory walk *)

Lemma js_bind_Ret {A B} (x : js A) (k : A -> js B) res :
  (x ≫= k) = Ret res -> exists a, x = Ret a /\ k a = Ret res.
Proof. destruct x; simpl; intros H; [eauto | discriminate | discriminate]. Qed.

Lemma orThrow_Ret {A} msg (x : option A) a : orThrow msg x = Ret a -> x = Some a.
Proof. destruct x; simpl; [intros [= ->]; reflexivity | discriminate]. Qed.

(** Every file the walk adds lies below the directory walked. *)
Lemma getAllFiles_below f :
  readdir_names f ->
  forall fuel X acc res,
    valid_names X ->
    getAllFiles fuel f (abs X) acc = Ret res ->
    forall p, In p res ->
      In p acc \/
      exists rest, rest <> [] /\ valid_names rest /\ p = abs (X ++ rest).
Proof.
  intros Hnames. induction fuel as [|fuel IH]; intros X acc res HX;
    [discriminate |].
  cbn [getAllFiles]. intros H.
  apply js_bind_Ret in H as (files & Hfiles & H).
  apply orThrow_Ret, Hnames in Hfiles.
  revert acc H.
  assert (Hgen : forall (a : js (list jsstring)),
    fold_left
      (fun (acc : js (list jsstring)) (file : jsstring) =>
         acc ≫= (fun arrayOfFiles =>
           orThrow "ENOENT: statSync" (isDirectory f (join [abs X; file])) ≫=
           (fun isDir : bool =>
              if isDir
              then getAllFiles fuel f (join [abs X; file]) arrayOfFiles
              else Ret (arrayOfFiles ++ [join [abs X; file]]))))
      files a = Ret res ->
    exists acc, a = Ret acc /\
      forall p, In p res ->
        In p acc \/
        exists rest, rest <> [] /\ valid_names rest /\ p = abs (X ++ rest)).
  { induction Hfiles as [|file files Hfile _ IHfiles]; intros a; simpl.
    - intros ->. eauto.
    - intros H. apply IHfiles in H as (acc1 & H1 & Hres).
      apply js_bind_Ret in H1 as (acc0 & -> & H1).
      apply js_bind_Ret in H1 as (isDir & _ & H1).
      exists acc0. split; [reflexivity |]. intros p Hp.
      destruct (Hres p Hp) as [Hin|Hshape]; [|auto].
      rewrite (join_abs_name _ _ HX Hfile) in H1.
      destruct isDir.
      + assert (HX' : valid_names (X ++ [file])).
        { apply Forall_app. split;
            [exact HX | constructor; [exact Hfile | constructor]]. }
        destruct (IH _ _ _ HX' H1 p Hin) as [Hin0|(rest & Hne & Hv & ->)];
          [auto |].
        right. exists (file :: rest). rewrite <- app_assoc.
        repeat split; [discriminate | constructor; assumption].
      + injection H1 as <-. apply in_app_or in Hin as [Hin|[<-|[]]]; [auto |].
        right. exists [file]. repeat split; [discriminate |].
        constructor; [exact Hfile | constructor]. }
  intros acc H. apply Hgen in H as (acc' & [= <-] & H). exact H.
Qed.

Lemma sourceComponentsDir_abs w D :
  __dirname w = abs D -> valid_names D ->
  sourceComponentsDir w = abs (parent (parent D) ++ componentsNames).
Proof.
  intros HD Hv. destruct (sourceRoot_walk w D HD Hv) as [Habs Hw].
  unfold sourceComponentsDir.
  apply (join_under _ _ componentsNames Habs Hw);
    [repeat constructor | discriminate].
Qed.

Lemma targetComponentsDir_abs w D :
  __dirname w = abs D -> valid_names D ->
  targetComponentsDir w = abs (parent D ++ componentsNames).
Proof.
  intros HD Hv. destruct (targetRoot_walk w D HD Hv) as [Habs Hw].
  unfold targetComponentsDir.
  apply (join_under _ _ componentsNames Habs Hw);
    [repeat constructor | discriminate].
Qed.

Lemma valid_componentsNames : valid_names componentsNames.
Proof. repeat constructor. Qed.

(** The files of the source components directory. *)
Lemma allSourceFiles_below w D files p :
  __dirname w = abs D -> valid_names D -> readdir_names (fs w) ->
  allSourceFiles w = Ret files -> In p files ->
  exists rest,
    rest <> [] /\ valid_names rest /\
    p = abs (parent (parent D) ++ componentsNames ++ rest).
Proof.
  intros HD Hv Hnames. unfold allSourceFiles.
  rewrite (sourceComponentsDir_abs w D HD Hv).
  destruct (existsSync (fs w) _).
  - intros H Hin. eapply getAllFiles_below in H; eauto.
    + destruct H as [[]|(rest & Hne & Hr & ->)].
      exists rest. rewrite <- app_assoc. auto.
    + apply Forall_app. split;
        [apply valid_names_parent, valid_names_parent, Hv
        | exact valid_componentsNames].
  - intros [= <-] [].
Qed.

(** ** The fast-check driver *)

Lemma constantFrom_nil : 
  constantFrom [] = Throw (Error "fc.constantFrom expects at least one parameter").
Proof. reflexivity. Qed.

(** ** The import check *)

Lemma forEach_Ret {A} (f : A -> js unit) l :
  forEach f l = Ret tt <-> forall x, In x l -> f x = Ret tt.
Proof.
  induction l as [|x l IH]; simpl.
  - split; [intros _ y [] | reflexivity].
  - destruct (f x) as [[]| |] eqn:E; simpl.
    + rewrite IH. split.
      * intros H y [<-|Hy]; auto.
      * intros H y Hy. apply H. right. exact Hy.
    + split; [discriminate | intros H].
      specialize (H x (or_introl eq_refl)). congruence.
    + split; [discriminate | intros H].
      specialize (H x (or_introl eq_refl)). congruence.
Qed.

Lemma checkImport_eq w componentFile importPath :
  checkImport w componentFile importPath =
  if subject_to_resolution importPath
  then expect ToBeTrue_resolves (resolves w componentFile importPath)
  else Ret tt.
Proof.
  unfold checkImport, subject_to_resolution, resolves.
  destruct (startsWith importPath (str ".")),
    (startsWith importPath (str "@/")),
    (startsWith importPath (str "@/assets")); reflexivity.
Qed.

Lemma checkImport_cases w componentFile importPath :
  checkImport w componentFile importPath = Ret tt \/
  checkImport w componentFile importPath
    = Throw (AssertionError ToBeTrue_resolves).
Proof.
  rewrite checkImport_eq. destruct (subject_to_resolution importPath); [|auto].
  destruct (resolves w componentFile importPath); simpl; auto.
Qed.

Lemma forEach_checkImport_cases w componentFile imports :
  forEach (checkImport w componentFile) imports = Ret tt \/
  forEach (checkImport w componentFile) imports
    = Throw (AssertionError ToBeTrue_resolves).
Proof.
  induction imports as [|ip imports IH]; simpl; [auto |].
  destruct (checkImport_cases w componentFile ip) as [-> | ->]; simpl; auto.
Qed.

Lemma exists_fallbacks (exists_ : jsstring -> bool) c :
  exists_ c || exists_ (c ++ str ".ts") || exists_ (c ++ str ".tsx")
  || exists_ (join [c; str "index.ts"]) || exists_ (join [c; str "index.tsx"])
  = true <->
  exists p, In p (fallbacks c) /\ exists_ p = true.
Proof.
  rewrite !orb_true_iff. unfold fallbacks. split.
  - intros [[[[H|H]|H]|H]|H]; eexists; (split; [|exact H]); simpl; auto 6.
  - intros (p & Hin & H). simpl in Hin.
    destruct Hin as [<-|[<-|[<-|[<-|[<-|[]]]]]]; auto 6.
Qed.

Lemma resolves_fallbacks w componentFile importPath :
  resolves w componentFile importPath = true <->
  exists p,
    In p (fallbacks (candidate w componentFile importPath)) /\
    existsSync (fs w) p = true.
Proof.
  unfold resolves, candidate, aliasExists, relativeExists.
  destruct (startsWith importPath (str "@/")); apply exists_fallbacks.
Qed.

(** * The properties of the test file *)

(** ** Empty universes *)

(** Whatever the project, a test whose universe is empty ends with the
    error of [fc.constantFrom]. *)
Lemma property1_empty_universe w random :
  allSourceFiles w = Ret [] ->
  property1 w random
  = Throw (Error "fc.constantFrom expects at least one parameter").
Proof. intros H. unfold property1. rewrite H. reflexivity. Qed.

Lemma property2_empty_universe w random :
  componentFiles w = Ret [] ->
  property2 w random
  = Throw (Error "fc.constantFrom expects at least one parameter").
Proof. intros H. unfold property2. rewrite H. reflexivity. Qed.

Lemma property3_empty_universe w random source target :
  readJson w (join [__dirname w; str "../../package.json"]) = Ret source ->
  readJson w (join [__dirname w; str "../package.json"]) = Ret target ->
  sourceRadixPackages source = [] ->
  property3 w random
  = Throw (Error "fc.constantFrom expects at least one parameter").
Proof.
  intros H1 H2 H3. unfold property3. rewrite H1. simpl. rewrite H2. simpl.
  rewrite H3. reflexivity.
Qed.

(** C1. A property whose universe is empty should pass with no sample
    drawn.  The test file gives the empty universe to [fc.constantFrom],
    which throws when it has no value: on a project with no source
    components directory, no Radix dependency in the source manifest and no
    custom property in the source style sheets, each of the four tests ends
    with that error, whatever the random source. *)
Theorem empty_universe_throws (random : nat -> nat) :
  allSourceFiles Scenario.bare = Ret [] /\
  componentFiles Scenario.bare = Ret [] /\
  sourceRadixPackages
    (Scenario.manifest [(str "react", str "^18.2.0")]) = [] /\
  property1 Scenario.bare random
    = Throw (Error "fc.constantFrom expects at least one parameter") /\
  property2 Scenario.bare random
    = Throw (Error "fc.constantFrom expects at least one parameter") /\
  property3 Scenario.bare random
    = Throw (Error "fc.constantFrom expects at least one parameter") /\
  property4 Scenario.bare random
    = Throw (Error "fc.constantFrom expects at least one parameter").
Proof. repeat split; vm_compute; reflexivity. Qed.

(** ** Version specifiers *)

Lemma three_component_version_ends_in_digit v :
  three_component_version v ->
  exists c t, rev v = c :: t /\ isDigit c = true.
Proof.
  intros (p & d1 & d2 & d3 & -> & _ & _ & _ & Hne & Hall).
  destruct (nonempty_last d3 Hne) as (d' & c & ->).
  rewrite forallb_app in Hall. apply andb_true_iff in Hall as [_ Hc].
  simpl in Hc. apply andb_true_iff in Hc as [Hc _].
  exists c. eexists. split; [|exact Hc].
  replace (p ++ d1 ++ DOT :: d2 ++ DOT :: d' ++ [c])
    with ((p ++ d1 ++ DOT :: d2 ++ DOT :: d') ++ [c])
    by (rewrite <- !app_assoc; simpl; rewrite <- !app_assoc; reflexivity).
  rewrite rev_app_distr. reflexivity.
Qed.

(** C3, as stated (the predicate holds only of a prefix, a three-component
    version and nothing else), fails: [1.2.3-beta] is accepted. *)
Lemma isValidVersion_accepts_trailing_text :
  ~ (isValidVersion (str "1.2.3-beta") = true <->
     three_component_version (str "1.2.3-beta")).
Proof.
  intros [H _].
  assert (Hv : isValidVersion (str "1.2.3-beta") = true)
    by (vm_compute; reflexivity).
  apply H, three_component_version_ends_in_digit in Hv
    as (c & t & Hrev & Hc).
  vm_compute in Hrev. injection Hrev as <- _. vm_compute in Hc. discriminate.
Qed.

(** C3 (amended). The validity predicate of the manifest check holds of a
    specifier exactly when the specifier begins with an optional caret or
    tilde followed by a three-component numeric version; the pattern has no
    end anchor, so any text may follow the third component. *)
Theorem isValidVersion_begins_with_version (v : jsstring) :
  isValidVersion v = true <-> begins_with_version v.
Proof. apply isValidVersion_true. Qed.

(** ** Import paths *)

Lemma property2_predicate_eq w componentFile content imports :
  readFileSync (fs w) componentFile = Some content ->
  extractImports content = Some imports ->
  property2_predicate w componentFile =
  (forEach (checkImport w componentFile) imports ;; Ret true).
Proof.
  intros H1 H2. unfold property2_predicate. rewrite H1. simpl.
  rewrite H2. reflexivity.
Qed.

Lemma property2_predicate_true w componentFile content imports :
  readFileSync (fs w) componentFile = Some content ->
  extractImports content = Some imports ->
  (property2_predicate w componentFile = Ret true <->
   forall importPath, In importPath imports ->
     subject_to_resolution importPath = true ->
     resolves w componentFile importPath = true).
Proof.
  intros H1 H2. rewrite (property2_predicate_eq _ _ _ _ H1 H2).
  transitivity (forEach (checkImport w componentFile) imports = Ret tt).
  - destruct (forEach (checkImport w componentFile) imports) as [[]| |];
      simpl; split; congruence.
  - rewrite forEach_Ret. split.
    + intros H ip Hin Hs. specialize (H ip Hin).
      rewrite checkImport_eq, Hs in H.
      destruct (resolves w componentFile ip); [reflexivity | discriminate].
    + intros H ip Hin. rewrite checkImport_eq.
      destruct (subject_to_resolution ip) eqn:Hs; [|reflexivity].
      rewrite (H ip Hin Hs). reflexivity.
Qed.

(** C2, as stated (no alias reference is exempted), fails: a reference that
    begins with [@/assets] is skipped.  In the migrated project the file
    [Button.tsx] imports [@/assets/logo.svg], an alias reference that does
    not resolve, and the property holds of the file. *)
Lemma asset_import_exempted :
  extractImports Scenario.buttonTsx
    = Some [str "@/lib/utils"; str "@/assets/logo.svg"; str "./ui/card"] /\
  startsWith (str "@/assets/logo.svg") (str "@/") = true /\
  resolves Scenario.migrated (str "/repo/app/src/components/Button.tsx")
    (str "@/assets/logo.svg") = false /\
  property2_predicate Scenario.migrated
    (str "/repo/app/src/components/Button.tsx") = Ret true.
Proof. repeat split; vm_compute; reflexivity. Qed.

(** C2 (amended). Every import reference found in a target component file
    that begins with [.] or with [@/], except those that begin with
    [@/assets], is subjected to the resolution check, and the import-path
    property fails on the file exactly when one of these references fails
    to resolve under the fallback rules; it then fails on the expectation
    that the reference resolves. *)
Theorem import_paths_checked (w : env) (componentFile content : jsstring) :
  readFileSync (fs w) componentFile = Some content ->
  exists imports,
    extractImports content = Some imports /\
    (property2_predicate w componentFile = Ret true <->
     forall importPath, In importPath imports ->
       subject_to_resolution importPath = true ->
       resolves w componentFile importPath = true) /\
    (property2_predicate w componentFile = Ret true \/
     property2_predicate w componentFile
       = Throw (AssertionError ToBeTrue_resolves)).
Proof.
  intros H1. destruct (extractImports_total content) as [imports H2].
  exists imports. split; [exact H2 |]. split.
  - apply (property2_predicate_true _ _ _ _ H1 H2).
  - rewrite (property2_predicate_eq _ _ _ _ H1 H2).
    destruct (forEach_checkImport_cases w componentFile imports) as [-> | ->];
      simpl; auto.
Qed.

Lemma import_paths_checked_witness :
  readFileSync (fs Scenario.migrated)
    (str "/repo/app/src/components/ui/card.tsx") = Some Scenario.cardTsx /\
  exists imports,
    extractImports Scenario.cardTsx = Some imports /\
    (property2_predicate Scenario.migrated
       (str "/repo/app/src/components/ui/card.tsx") = Ret true <->
     forall importPath, In importPath imports ->
       subject_to_resolution importPath = true ->
       resolves Scenario.migrated
         (str "/repo/app/src/components/ui/card.tsx") importPath = true) /\
    (property2_predicate Scenario.migrated
       (str "/repo/app/src/components/ui/card.tsx") = Ret true \/
     property2_predicate Scenario.migrated
       (str "/repo/app/src/components/ui/card.tsx")
       = Throw (AssertionError ToBeTrue_resolves)).
Proof.
  split; [reflexivity |].
  apply (import_paths_checked Scenario.migrated
           (str "/repo/app/src/components/ui/card.tsx") Scenario.cardTsx).
  reflexivity.
Defined.

(** C5. The resolver finds a candidate path resolved exactly when one of
    five entries exists: the candidate path, the candidate with [.ts] or
    [.tsx] appended, and [index.ts] or [index.tsx] inside the candidate.
    The check of a reference that reaches the resolver is satisfied exactly
    when the resolver says so; when none of the five exists it ends with a
    failed expectation (a reported violation), and the check of a reference
    never ends with any other error. *)
Theorem resolver_five_fallbacks (w : env) (componentFile importPath : jsstring) :
  (resolves w componentFile importPath = true <->
   exists p,
     In p (fallbacks (candidate w componentFile importPath)) /\
     existsSync (fs w) p = true) /\
  (subject_to_resolution importPath = true ->
   (checkImport w componentFile importPath = Ret tt <->
    resolves w componentFile importPath = true) /\
   ((forall p, In p (fallbacks (candidate w componentFile importPath)) ->
       existsSync (fs w) p = false) ->
    checkImport w componentFile importPath
      = Throw (AssertionError ToBeTrue_resolves))) /\
  (checkImport w componentFile importPath = Ret tt \/
   checkImport w componentFile importPath
     = Throw (AssertionError ToBeTrue_resolves)).
Proof.
  split; [apply resolves_fallbacks |].
  split; [|apply checkImport_cases].
  intros Hs. rewrite checkImport_eq, Hs. split.
  - destruct (resolves w componentFile importPath); simpl;
      split; congruence.
  - intros Hnone.
    destruct (resolves w componentFile importPath) eqn:E; [|reflexivity].
    apply resolves_fallbacks in E as (p & Hin & Hp).
    rewrite (Hnone p Hin) in Hp. discriminate.
Qed.

Lemma resolver_five_fallbacks_witness :
  subject_to_resolution (str "./ui/card") = true /\
  (checkImport Scenario.migrated (str "/repo/app/src/components/Button.tsx")
     (str "./ui/card") = Ret tt <->
   resolves Scenario.migrated (str "/repo/app/src/components/Button.tsx")
     (str "./ui/card") = true).
Proof.
  split; [reflexivity |].
  apply (proj1 (proj2 (resolver_five_fallbacks Scenario.migrated
           (str "/repo/app/src/components/Button.tsx") (str "./ui/card")))).
  reflexivity.
Defined.

(** ** Dependencies *)

Lemma get_is_Some l name : name ∈ l.*1 -> is_Some (get l name).
Proof.
  induction l as [|[key value] l IH]; simpl; intros H.
  - apply elem_of_nil in H. destruct H.
  - apply elem_of_cons in H as [-> | H].
    + destruct (get l key); [eauto |].
      rewrite bool_decide_eq_true_2 by reflexivity. eauto.
    + apply IH in H as [value' ->]. eauto.
Qed.

Lemma insert_index_elem n key l p :
  p ∈ insert_index n key l -> p = (n, key) \/ p ∈ l.
Proof.
  induction l as [|[n' key'] l IH]; simpl; intros H.
  - apply list_elem_of_singleton in H. auto.
  - destruct (n <? n')%N.
    + apply elem_of_cons in H as [H | H]; auto.
    + apply elem_of_cons in H as [-> | H].
      * right. left.
      * apply IH in H as [H | H]; [auto | right; right; exact H].
Qed.

Lemma index_keys_own keys : forall acc p,
  p ∈ fold_left
        (fun acc key =>
           match arrayIndex key with
           | Some n => insert_index n key acc
           | None => acc
           end) keys acc ->
  p ∈ acc \/ p.2 ∈ keys.
Proof.
  induction keys as [|key keys IH]; simpl; intros acc p H; [auto |].
  apply IH in H as [H | H]; [|right; right; exact H].
  destruct (arrayIndex key) as [n|]; [|auto].
  apply insert_index_elem in H as [-> | H]; [right; left | auto].
Qed.

Lemma Object_keys_own o name : name ∈ Object_keys o -> name ∈ ownKeys o.
Proof.
  unfold Object_keys. intros H. apply elem_of_app in H as [H | H].
  - apply list_elem_of_fmap in H as (p & -> & H).
    apply index_keys_own in H as [H | H]; [|exact H].
    apply elem_of_nil in H. destruct H.
  - apply list_elem_of_In, filter_In in H as [H _].
    apply list_elem_of_In, H.
Qed.

Lemma ownKeys_lookup o name : name ∈ ownKeys o -> is_Some (o !! name).
Proof.
  unfold ownKeys. intros H. apply fold_Set_add_elem in H as [H | H].
  - apply elem_of_nil in H. destruct H.
  - apply get_is_Some, H.
Qed.

Lemma sourceRadixPackages_In source name :
  In name (sourceRadixPackages source) ->
  startsWith name (str "@radix-ui/") = true /\
  exists sourceDeps sourceVersion,
    dependencies source = Some sourceDeps /\
    sourceDeps !! name = Some sourceVersion.
Proof.
  unfold sourceRadixPackages. intros H.
  apply filter_In in H as [H Hs]. split; [exact Hs |].
  apply list_elem_of_In, Object_keys_own, ownKeys_lookup in H as [v Hv].
  destruct (dependencies source) as [sourceDeps|]; simpl in Hv.
  - eauto.
  - discriminate.
Qed.

Lemma property3_predicate_present w source target name sourceDeps sv tv :
  dependencies source = Some sourceDeps ->
  sourceDeps !! name = Some sv ->
  default ∅ (dependencies target) !! name = Some tv ->
  property3_predicate w source target name =
  (expect ToBeTrue_validSource (isValidVersion sv);;
   expect ToBeTrue_validTarget (isValidVersion tv);;
   Ret true).
Proof.
  intros Hs Hsv Htv. unfold property3_predicate, toHaveProperty.
  rewrite Hs, Htv. simpl. rewrite Hsv. simpl. reflexivity.
Qed.

Lemma property3_predicate_absent w source target name sourceDeps sv :
  dependencies source = Some sourceDeps ->
  sourceDeps !! name = Some sv ->
  default ∅ (dependencies target) !! name = None ->
  property3_predicate w source target name =
  if getPathInfo_exists w (default ∅ (dependencies target)) name
  then Throw (AssertionError ToBeDefined_target)
  else Throw (AssertionError ToHaveProperty).
Proof.
  intros Hs Hsv Htv. unfold property3_predicate, toHaveProperty.
  rewrite Hs, Htv. simpl. rewrite Hsv.
  destruct (getPathInfo_exists w _ name); reflexivity.
Qed.

(** C6. For a Radix dependency name of the source manifest, the manifest
    property holds exactly when the name is a key of the target
    dependencies and the source and the target specifiers both satisfy the
    version-syntax predicate; the two versions are not compared, so source
    [^1.0.0] against target [^1.1.2] passes; a name absent from the target
    fails on one of the two expectations that look the name up in the
    target (the property expectation, or the expectation that the target
    version is defined). *)
Theorem manifest_property (w : env) (source target : packageJson)
    (name : jsstring) :
  In name (sourceRadixPackages source) ->
  exists sourceVersion,
    default ∅ (dependencies source) !! name = Some sourceVersion /\
    (property3_predicate w source target name = Ret true <->
     exists targetVersion,
       default ∅ (dependencies target) !! name = Some targetVersion /\
       isValidVersion sourceVersion = true /\
       isValidVersion targetVersion = true) /\
    (default ∅ (dependencies target) !! name = None ->
     property3_predicate w source target name
       = Throw (AssertionError ToHaveProperty) \/
     property3_predicate w source target name
       = Throw (AssertionError ToBeDefined_target)) /\
    property3_predicate w Scenario.sourceManifest Scenario.targetManifest
      (str "@radix-ui/react-dialog") = Ret true.
Proof.
  intros Hin.
  apply sourceRadixPackages_In in Hin as (_ & sourceDeps & sv & Hs & Hsv).
  exists sv. rewrite Hs. simpl. split; [exact Hsv |].
  split; [|split].
  - destruct (default ∅ (dependencies target) !! name) as [tv|] eqn:Htv.
    + rewrite (property3_predicate_present _ _ _ _ _ _ _ Hs Hsv Htv).
      destruct (isValidVersion sv) eqn:E1, (isValidVersion tv) eqn:E2;
        simpl; split; intros H; try discriminate;
        try (destruct H as (tv' & [= <-] & H1 & H2); congruence);
        eauto.
    + rewrite (property3_predicate_absent _ _ _ _ _ _ Hs Hsv Htv).
      split.
      * destruct (getPathInfo_exists w _ name); discriminate.
      * intros (tv & [=] & _).
  - intros Htv. rewrite (property3_predicate_absent _ _ _ _ _ _ Hs Hsv Htv).
    destruct (getPathInfo_exists w _ name); auto.
  - vm_compute. reflexivity.
Qed.

Lemma manifest_property_witness :
  In (str "@radix-ui/react-dialog")
    (sourceRadixPackages Scenario.sourceManifest) /\
  exists sourceVersion,
    default ∅ (dependencies Scenario.sourceManifest)
      !! str "@radix-ui/react-dialog" = Some sourceVersion /\
    (property3_predicate Scenario.migrated Scenario.sourceManifest
       Scenario.targetManifest (str "@radix-ui/react-dialog") = Ret true <->
     exists targetVersion,
       default ∅ (dependencies Scenario.targetManifest)
         !! str "@radix-ui/react-dialog" = Some targetVersion /\
       isValidVersion sourceVersion = true /\
       isValidVersion targetVersion = true) /\
    (default ∅ (dependencies Scenario.targetManifest)
       !! str "@radix-ui/react-dialog" = None ->
     property3_predicate Scenario.migrated Scenario.sourceManifest
       Scenario.targetManifest (str "@radix-ui/react-dialog")
       = Throw (AssertionError ToHaveProperty) \/
     property3_predicate Scenario.migrated Scenario.sourceManifest
       Scenario.targetManifest (str "@radix-ui/react-dialog")
       = Throw (AssertionError ToBeDefined_target)) /\
    property3_predicate Scenario.migrated Scenario.sourceManifest
      Scenario.targetManifest (str "@radix-ui/react-dialog") = Ret true.
Proof.
  assert (Hin : In (str "@radix-ui/react-dialog")
                  (sourceRadixPackages Scenario.sourceManifest)).
  { vm_compute. left. reflexivity. }
  split; [exact Hin |].
  exact (manifest_property Scenario.migrated Scenario.sourceManifest
           Scenario.targetManifest (str "@radix-ui/react-dialog") Hin).
Defined.

(** ** File migration *)

Lemma includes_components S rest :
  rest <> [] ->
  includes (abs (S ++ componentsNames ++ rest)) (str "/src/components/") = true.
Proof.
  intros Hne. rewrite abs_slashes by (destruct S; discriminate).
  rewrite slashes_app. destruct rest as [|r0 rest]; [congruence |].
  change (slashes (componentsNames ++ r0 :: rest))
    with (str "/src/components/" ++ r0 ++ slashes rest).
  apply includes_app.
Qed.

Lemma extname_basename p q : basename p = basename q -> extname p = extname q.
Proof. unfold extname. intros ->. reflexivity. Qed.

(** The target path of a file that lies below the source components
    directory. *)
Lemma targetPath_abs w D rest :
  __dirname w = abs D -> valid_names D ->
  valid_names rest -> rest <> [] ->
  relative (cwd w) (sourceComponentsDir w)
    (abs (parent (parent D) ++ componentsNames ++ rest)) = join_slash rest /\
  targetPath w (abs (parent (parent D) ++ componentsNames ++ rest))
  = abs (parent D ++ componentsNames ++ rest).
Proof.
  intros HD Hv Hrest Hne.
  assert (Hrel : relative (cwd w) (sourceComponentsDir w)
            (abs (parent (parent D) ++ componentsNames ++ rest))
          = join_slash rest).
  { rewrite (sourceComponentsDir_abs w D HD Hv), app_assoc.
    apply relative_under; [|exact Hrest].
    apply Forall_app. split;
      [apply valid_names_parent, valid_names_parent, Hv
      | exact valid_componentsNames]. }
  split; [exact Hrel |].
  unfold targetPath. rewrite Hrel.
  destruct (targetRoot_walk w D HD Hv) as [Habs Hw].
  apply (join_under2 _ _ componentsNames rest Habs Hw);
    [exact valid_componentsNames | discriminate | exact Hrest | exact Hne].
Qed.

(** C9. In the file-migration check the target path of a sampled source
    component file is the target components directory joined with the path
    of the file relative to the source components directory: a file found
    under the source components directory by a chain of names has that
    chain for its relative path, and its target path is the same chain
    under the target components directory.  So the base name and the
    extension of the target path are those of the source file for every
    file of the universe, and the check passes or fails on the existence
    of the target path alone. *)
Theorem target_path_by_construction (w : env) (D : list jsstring)
    (files : list jsstring) (sourceFilePath : jsstring) :
  __dirname w = abs D -> valid_names D -> readdir_names (fs w) ->
  allSourceFiles w = Ret files -> In sourceFilePath files ->
  (exists rest,
     rest <> [] /\ valid_names rest /\
     sourceFilePath = abs (parent (parent D) ++ componentsNames ++ rest) /\
     relative (cwd w) (sourceComponentsDir w) sourceFilePath
     = join_slash rest /\
     targetPath w sourceFilePath
     = abs (parent D ++ componentsNames ++ rest)) /\
  targetPath w sourceFilePath
  = join [targetComponentsDir w;
          relative (cwd w) (sourceComponentsDir w) sourceFilePath] /\
  basename (targetPath w sourceFilePath) = basename sourceFilePath /\
  extname (targetPath w sourceFilePath) = extname sourceFilePath /\
  property1_predicate w sourceFilePath
  = if existsSync (fs w) (targetPath w sourceFilePath)
    then Ret true else Throw (AssertionError ToBeTrue_exists).
Proof.
  intros HD Hv Hnames Hfiles Hin.
  destruct (allSourceFiles_below w D files sourceFilePath HD Hv Hnames
              Hfiles Hin) as (rest & Hne & Hrest & ->).
  destruct (targetPath_abs w D rest HD Hv Hrest Hne) as [Hrel Htp].
  assert (Hbase : basename (targetPath w
                     (abs (parent (parent D) ++ componentsNames ++ rest)))
                  = basename
                      (abs (parent (parent D) ++ componentsNames ++ rest))).
  { rewrite Htp. destruct (nonempty_last rest Hne) as (rest' & n & ->).
    apply Forall_app in Hrest as [Hrest' Hn].
    inversion Hn as [|? ? Hn' _]; subst.
    assert (HX1 : valid_names ((parent D ++ componentsNames) ++ rest')).
    { apply Forall_app; split; [apply Forall_app; split |];
        [apply valid_names_parent, Hv | exact valid_componentsNames
        | exact Hrest']. }
    assert (HX2 : valid_names
                    ((parent (parent D) ++ componentsNames) ++ rest')).
    { apply Forall_app; split; [apply Forall_app; split |];
        [apply valid_names_parent, valid_names_parent, Hv
        | exact valid_componentsNames | exact Hrest']. }
    rewrite !app_assoc.
    rewrite (basename_abs _ _ HX1 Hn'), (basename_abs _ _ HX2 Hn').
    reflexivity. }
  split; [|split; [|split; [exact Hbase | split]]].
  - exists rest. split; [exact Hne |]. split; [exact Hrest |].
    split; [reflexivity |]. split; [exact Hrel | exact Htp].
  - rewrite Htp, Hrel, (targetComponentsDir_abs w D HD Hv).
    symmetry. rewrite app_assoc.
    apply join_under; [reflexivity | | exact Hrest | exact Hne].
    apply walk_abs_nil. apply Forall_app. split;
      [apply valid_names_parent, Hv | exact valid_componentsNames].
  - apply extname_basename, Hbase.
  - unfold property1_predicate.
    rewrite (includes_components _ _ Hne).
    rewrite (bool_decide_eq_true_2 _ Hbase).
    rewrite (bool_decide_eq_true_2 _ (extname_basename _ _ Hbase)).
    destruct (existsSync (fs w) _); reflexivity.
Qed.

Lemma migrated_readdir_names : readdir_names (fs Scenario.migrated).
Proof.
  intros d l. simpl.
  repeat (case_bool_decide;
          [intros [= <-]; repeat (constructor; [reflexivity |]); constructor |]).
  discriminate.
Qed.

Lemma target_path_by_construction_witness :
  (__dirname Scenario.migrated = abs [str "repo"; str "app"; str "tests"] /\
   valid_names [str "repo"; str "app"; str "tests"] /\
   readdir_names (fs Scenario.migrated) /\
   allSourceFiles Scenario.migrated
     = Ret [str "/repo/src/components/Button.tsx";
            str "/repo/src/components/ui/card.tsx"] /\
   In (str "/repo/src/components/ui/card.tsx")
     [str "/repo/src/components/Button.tsx";
      str "/repo/src/components/ui/card.tsx"]) /\
  (exists rest,
     rest <> [] /\ valid_names rest /\
     str "/repo/src/components/ui/card.tsx"
     = abs (parent (parent [str "repo"; str "app"; str "tests"])
            ++ componentsNames ++ rest) /\
     relative (cwd Scenario.migrated) (sourceComponentsDir Scenario.migrated)
       (str "/repo/src/components/ui/card.tsx")
     = join_slash rest /\
     targetPath Scenario.migrated (str "/repo/src/components/ui/card.tsx")
     = abs (parent [str "repo"; str "app"; str "tests"]
            ++ componentsNames ++ rest)) /\
  targetPath Scenario.migrated (str "/repo/src/components/ui/card.tsx")
  = join [targetComponentsDir Scenario.migrated;
          relative (cwd Scenario.migrated)
            (sourceComponentsDir Scenario.migrated)
            (str "/repo/src/components/ui/card.tsx")] /\
  basename (targetPath Scenario.migrated
              (str "/repo/src/components/ui/card.tsx"))
  = basename (str "/repo/src/components/ui/card.tsx") /\
  extname (targetPath Scenario.migrated
             (str "/repo/src/components/ui/card.tsx"))
  = extname (str "/repo/src/components/ui/card.tsx") /\
  property1_predicate Scenario.migrated
    (str "/repo/src/components/ui/card.tsx")
  = if existsSync (fs Scenario.migrated)
         (targetPath Scenario.migrated
            (str "/repo/src/components/ui/card.tsx"))
    then Ret true else Throw (AssertionError ToBeTrue_exists).
Proof.
  assert (H1 : __dirname Scenario.migrated
               = abs [str "repo"; str "app"; str "tests"])
    by reflexivity.
  assert (H2 : valid_names [str "repo"; str "app"; str "tests"])
    by (repeat (constructor; [reflexivity |]); constructor).
  assert (H4 : allSourceFiles Scenario.migrated
     = Ret [str "/repo/src/components/Button.tsx";
            str "/repo/src/components/ui/card.tsx"])
    by (vm_compute; reflexivity).
  assert (H5 : In (str "/repo/src/components/ui/card.tsx")
     [str "/repo/src/components/Button.tsx";
      str "/repo/src/components/ui/card.tsx"])
    by (right; left; reflexivity).
  split; [repeat split; auto using migrated_readdir_names |].
  exact (target_path_by_construction Scenario.migrated _ _ _ H1 H2
           migrated_readdir_names H4 H5).
Defined.

(** ** Import extraction *)

Lemma no_import_keyword content :
  (forall pre c post,
     content = pre ++ str "import" ++ c :: post -> isSpace c = false) ->
  ~ has_import_text content.
Proof.
  intros H (pre & mt & post & sp & -> & L).
  destruct L as (ws1 & cl & ws2 & ws3 & q1 & q2 & -> & [Hne Hws] & _).
  destruct ws1 as [|c ws1]; [congruence |].
  simpl in Hws. apply andb_true_iff in Hws as [Hc _].
  rewrite (H pre c (ws1 ++ cl ++ ws2 ++ str "from" ++ ws3 ++
                     q1 :: sp ++ [q2] ++ post)) in Hc; [discriminate |].
  rewrite <- !app_assoc. simpl. rewrite <- !app_assoc. reflexivity.
Qed.

Lemma no_from_keyword content :
  (forall pre a b post,
     content = pre ++ a :: str "from" ++ b :: post ->
     isSpace a && isSpace b = false) ->
  ~ has_import_text content.
Proof.
  intros H (pre & mt & post & sp & -> & L).
  destruct L as (ws1 & cl & ws2 & ws3 & q1 & q2 & -> & _ & _ &
                 [Hne2 Hws2] & [Hne3 Hws3] & _).
  destruct (nonempty_last ws2 Hne2) as (ws2' & a & ->).
  destruct ws3 as [|b ws3]; [congruence |].
  rewrite forallb_app in Hws2. apply andb_true_iff in Hws2 as [_ Ha].
  simpl in Ha, Hws3. apply andb_true_iff in Ha as [Ha _].
  apply andb_true_iff in Hws3 as [Hb _].
  assert (Hab : isSpace a && isSpace b = false).
  { apply (H (pre ++ str "import" ++ ws1 ++ cl ++ ws2') a b
             (ws3 ++ q1 :: sp ++ [q2] ++ post)).
    rewrite <- !app_assoc. simpl. rewrite <- !app_assoc. reflexivity. }
  rewrite Ha, Hb in Hab. discriminate.
Qed.

(** C10, as stated (only single-line statements are recognized, and for any
    content an export-from yields no reference), fails: white space in the
    pattern matches line breaks, so an import statement written on two
    lines is recognized, and the specifier of an export-from that follows
    a side-effect import on the same line is extracted. *)
Lemma import_pattern_crosses_lines :
  extractImports (str "import x" ++ [LF] ++ str "  from './y'")
    = Some [str "./y"] /\
  extractImports (str "import './a.css'; export * from './b'")
    = Some [str "./b"].
Proof. split; vm_compute; reflexivity. Qed.

(** C10 (amended). Import extraction yields a reference only from a text of
    the form [import], white space, a text on one line, white space, [from],
    white space, a quoted specifier on one line; the white space may hold
    line breaks, so the statement need not be on one line.  A content with
    no such text yields no reference: in particular a content in which
    [import] is never followed by white space (a dynamic [import(...)], an
    export-from), a content with no [from] between white space (a
    side-effect import), and, standing alone, a side-effect import, an
    import whose clause spans lines, an export-from and a dynamic
    import. *)
Theorem import_extraction :
  (forall content, exists imports,
     extractImports content = Some imports /\
     (forall specifier, In specifier imports ->
        exists pre mt post,
          content = pre ++ mt ++ post /\ import_text mt specifier) /\
     (imports = [] <-> ~ has_import_text content)) /\
  (forall content,
     (forall pre c post,
        content = pre ++ str "import" ++ c :: post -> isSpace c = false) ->
     extractImports content = Some []) /\
  (forall content,
     (forall pre a b post,
        content = pre ++ a :: str "from" ++ b :: post ->
        isSpace a && isSpace b = false) ->
     extractImports content = Some []) /\
  extractImports (str "import './styles.css'") = Some [] /\
  extractImports
    (str "import {" ++ [LF] ++ str "  a," ++ [LF] ++ str "  b" ++ [LF] ++
     str "} from './x'") = Some [] /\
  extractImports (str "export { a } from './x'") = Some [] /\
  extractImports (str "const m = await import('./x')") = Some [].
Proof.
  split; [|split; [|split]].
  - intros content. destruct (extractImports_total content) as [imports H].
    exists imports. split; [exact H |]. split.
    + apply (extractImports_sound _ _ H).
    + rewrite <- extractImports_nil, H. split; congruence.
  - intros content H. apply extractImports_nil, no_import_keyword, H.
  - intros content H. apply extractImports_nil, no_from_keyword, H.
  - repeat split; vm_compute; reflexivity.
Qed.

Lemma import_extraction_witness :
  (forall pre c post,
     str "import('./x')" = pre ++ str "import" ++ c :: post ->
     isSpace c = false) /\
  extractImports (str "import('./x')") = Some [].
Proof.
  assert (H : forall pre c post,
     str "import('./x')" = pre ++ str "import" ++ c :: post ->
     isSpace c = false).
  { intros pre c post H.
    destruct pre as [|x pre]; [injection H as <- _; reflexivity |].
    exfalso. vm_compute in H.
    do 13 (destruct pre as [|? pre]; simpl in H; [discriminate H |];
           apply (f_equal (@tail N)) in H; simpl in H).
    destruct pre; discriminate H. }
  split; [exact H |].
  exact (proj1 (proj2 import_extraction) (str "import('./x')") H).
Defined.

(** ** Custom properties *)

Lemma sourceVariables_total css : is_Some (sourceVariables css).
Proof. rewrite sourceVariables_names. eauto. Qed.

Lemma sourceVariables_set css vs :
  sourceVariables css = Some vs ->
  list_to_set vs =@{gset jsstring} list_to_set (names css).
Proof.
  intros H. apply set_eq. intros y. rewrite !elem_of_list_to_set.
  apply (sourceVariables_elem _ _ _ H).
Qed.

(** C7, as stated (the set extracted from [a+b] is that extracted from
    [b+a]), fails: a declaration head may begin at the end of one text and
    end at the start of the other.  With or without the line break the test
    puts between the two texts, [--foo] followed by [: red] declares [foo],
    and [: red] followed by [--foo] declares nothing. *)
Lemma concatenation_order_matters :
  sourceVariables (str "--foo" ++ str ": red") = Some [str "foo"] /\
  sourceVariables (str ": red" ++ str "--foo") = Some [] /\
  sourceVariables (sourceCss (str "--foo") (str ": red")) = Some [str "foo"] /\
  sourceVariables (sourceCss (str ": red") (str "--foo")) = Some [].
Proof. repeat split; vm_compute; reflexivity. Qed.

(** C7 (amended). Duplicate declarations of a name collapse to one element
    of the extracted set.  For two style-sheet texts neither of which ends
    in the middle of a declaration head (a word character or hyphen with
    only white space after it), put one after the other directly or with
    white space between them as the test does, the extracted set is the
    union of the sets of the two texts, whichever comes first. *)
Theorem sourceVariables_order_irrelevant (a b sep : jsstring) :
  closed a = true -> closed b = true -> forallb isSpace sep = true ->
  exists va vb vab vba,
    sourceVariables a = Some va /\ sourceVariables b = Some vb /\
    sourceVariables (a ++ sep ++ b) = Some vab /\
    sourceVariables (b ++ sep ++ a) = Some vba /\
    NoDup vab /\ NoDup vba /\
    list_to_set vab =@{gset jsstring} list_to_set va ∪ list_to_set vb /\
    list_to_set vba =@{gset jsstring} list_to_set vab.
Proof.
  intros Ha Hb Hsep.
  destruct (sourceVariables_total a) as [va Hva].
  destruct (sourceVariables_total b) as [vb Hvb].
  destruct (sourceVariables_total (a ++ sep ++ b)) as [vab Hvab].
  destruct (sourceVariables_total (b ++ sep ++ a)) as [vba Hvba].
  exists va, vb, vab, vba. repeat (split; [assumption |]).
  split; [apply (sourceVariables_NoDup _ _ Hvab) |].
  split; [apply (sourceVariables_NoDup _ _ Hvba) |].
  rewrite (sourceVariables_set _ _ Hva), (sourceVariables_set _ _ Hvb),
    (sourceVariables_set _ _ Hvab), (sourceVariables_set _ _ Hvba).
  rewrite (names_separated a sep b Ha Hsep), (names_separated b sep a Hb Hsep).
  rewrite !list_to_set_app_L. split; [reflexivity |]. apply union_comm_L.
Qed.

Lemma sourceVariables_order_irrelevant_witness :
  (closed (str ":root { --primary: #fff; }" ++ [LF]) = true /\
   closed (str "body { --radius: 4px; --primary: #000; }" ++ [LF]) = true /\
   forallb isSpace [LF] = true) /\
  exists va vb vab vba,
    sourceVariables (str ":root { --primary: #fff; }" ++ [LF]) = Some va /\
    sourceVariables (str "body { --radius: 4px; --primary: #000; }" ++ [LF])
      = Some vb /\
    sourceVariables
      ((str ":root { --primary: #fff; }" ++ [LF]) ++ [LF] ++
       (str "body { --radius: 4px; --primary: #000; }" ++ [LF])) = Some vab /\
    sourceVariables
      ((str "body { --radius: 4px; --primary: #000; }" ++ [LF]) ++ [LF] ++
       (str ":root { --primary: #fff; }" ++ [LF])) = Some vba /\
    NoDup vab /\ NoDup vba /\
    list_to_set vab =@{gset jsstring} list_to_set va ∪ list_to_set vb /\
    list_to_set vba =@{gset jsstring} list_to_set vab.
Proof.
  split; [repeat split; vm_compute; reflexivity |].
  apply (sourceVariables_order_irrelevant
           (str ":root { --primary: #fff; }" ++ [LF])
           (str "body { --radius: 4px; --primary: #000; }" ++ [LF]) [LF]);
    vm_compute; reflexivity.
Defined.

Lemma property4_predicate_eq targetCss name :
  property4_predicate targetCss name =
  if existsInTarget targetCss name then Ret true
  else Throw (AssertionError ToBeTrue_existsInTarget).
Proof.
  unfold property4_predicate. destruct (existsInTarget targetCss name);
    reflexivity.
Qed.

Lemma names_primary pre post :
  closed pre = true ->
  str "primary" ∈ names (pre ++ str "--primary: #fff;" ++ post).
Proof.
  intros Hpre. rewrite names_app by exact Hpre.
  apply elem_of_app. right. unfold names.
  change (length (str "--primary: #fff;" ++ post))
    with (16 + length post).
  cbn [declared_names Nat.add].
  assert (Hd : next_declaration (str "--primary: #fff;" ++ post)
               = Some (str "primary", str " #fff;" ++ post))
    by reflexivity.
  rewrite Hd. apply elem_of_cons. left. reflexivity.
Qed.

(** C8. A name of the extracted source set is made of word characters and
    hyphens, and the preservation check holds of it exactly when the target
    text has the two hyphens, that name, white space if any, and a colon;
    otherwise the check fails on its expectation.  In particular a source
    text with the declaration [--primary: #fff;] has [primary] in its set,
    and the check fails for [primary] on a target text with no
    declaration of it. *)
Theorem css_variable_preserved (source target name : jsstring)
    (vs : list jsstring) :
  sourceVariables source = Some vs -> In name vs ->
  (name <> [] /\ forallb isIdent name = true) /\
  (property4_predicate target name = Ret true <-> declares target name) /\
  (~ declares target name ->
   property4_predicate target name
     = Throw (AssertionError ToBeTrue_existsInTarget)) /\
  (forall pre post, closed pre = true ->
     exists vs',
       sourceVariables (pre ++ str "--primary: #fff;" ++ post) = Some vs' /\
       In (str "primary") vs') /\
  (~ declares target (str "primary") ->
   property4_predicate target (str "primary")
     = Throw (AssertionError ToBeTrue_existsInTarget)).
Proof.
  intros Hvs Hin.
  assert (Hcheck : forall n,
    (property4_predicate target n = Ret true <-> declares target n) /\
    (~ declares target n ->
     property4_predicate target n
       = Throw (AssertionError ToBeTrue_existsInTarget))).
  { intros n. rewrite property4_predicate_eq, <- existsInTarget_true.
    destruct (existsInTarget target n); split;
      try split; try congruence; intros H; congruence. }
  split; [|split; [apply Hcheck | split; [apply Hcheck | split;
                                           [|apply Hcheck]]]].
  - apply list_elem_of_In in Hin.
    apply (sourceVariables_elem _ _ _ Hvs) in Hin.
    apply (declared_names_ident _ _ _ Hin).
  - intros pre post Hpre.
    destruct (sourceVariables_total (pre ++ str "--primary: #fff;" ++ post))
      as [vs' Hvs'].
    exists vs'. split; [exact Hvs' |].
    apply list_elem_of_In, (sourceVariables_elem _ _ _ Hvs').
    apply names_primary, Hpre.
Qed.

Lemma css_variable_preserved_witness :
  (sourceVariables
     (sourceCss (str ":root { --primary: #fff; }")
        (str "body { --radius: 4px; }"))
   = Some [str "primary"; str "radius"] /\
   In (str "radius") [str "primary"; str "radius"]) /\
  (property4_predicate (str ":root { --primary: #fff; --radius : 4px; }")
     (str "radius") = Ret true <->
   declares (str ":root { --primary: #fff; --radius : 4px; }")
     (str "radius")).
Proof.
  assert (H1 : sourceVariables
     (sourceCss (str ":root { --primary: #fff; }")
        (str "body { --radius: 4px; }"))
   = Some [str "primary"; str "radius"]) by (vm_compute; reflexivity).
  assert (H2 : In (str "radius") [str "primary"; str "radius"])
    by (right; left; reflexivity).
  split; [split; [exact H1 | exact H2] |].
  exact (proj1 (proj2 (css_variable_preserved _
           (str ":root { --primary: #fff; --radius : 4px; }") _ _ H1 H2))).
Defined.

(** * Further properties of the code *)

(** ** The directory walk, exactly *)

Lemma getAllFiles_step_Ret f fuel dir (a : js (list jsstring)) file res :
  (a ≫= (fun arrayOfFiles =>
     orThrow "ENOENT: statSync" (isDirectory f (join [dir; file])) ≫=
     (fun isDir : bool =>
        if isDir then getAllFiles fuel f (join [dir; file]) arrayOfFiles
        else Ret (arrayOfFiles ++ [join [dir; file]])))) = Ret res ->
  exists a0 isDir,
    a = Ret a0 /\ isDirectory f (join [dir; file]) = Some isDir /\
    (if isDir then getAllFiles fuel f (join [dir; file]) a0
     else Ret (a0 ++ [join [dir; file]])) = Ret res.
Proof.
  intros H. apply js_bind_Ret in H as (a0 & -> & H).
  apply js_bind_Ret in H as (isDir & Hd & H). apply orThrow_Ret in Hd.
  eauto.
Qed.

Lemma getAllFiles_added (f : filesystem) :
  forall (fuel : nat) (dirPath : jsstring) (arrayOfFiles res : list jsstring),
    getAllFiles fuel f dirPath arrayOfFiles = Ret res ->
    exists added,
      res = arrayOfFiles ++ added /\
      forall p, In p added <-> file_below f dirPath p.
Proof.
  induction fuel as [|fuel IH]; intros dir acc res; [discriminate |].
  cbn [getAllFiles]. intros H.
  apply js_bind_Ret in H as (entries & Hentries & H).
  apply orThrow_Ret in Hentries.
  assert (Hinv : forall p,
    file_below f dir p <->
    exists e, In e entries /\
      ((isDirectory f (join [dir; e]) = Some false /\ p = join [dir; e]) \/
       (isDirectory f (join [dir; e]) = Some true /\
        file_below f (join [dir; e]) p))).
  { intros p. split.
    - intros Hb. inversion Hb as [d l file Hl Hin Hd | d l sub q Hl Hin Hd Hq];
        subst; rewrite Hentries in Hl; injection Hl as <-; eauto 6.
    - intros (e & Hin & [[Hd ->] | [Hd Hq]]).
      + eapply file_below_here; eauto.
      + eapply file_below_deeper; eauto. }
  assert (Hgen : forall l (a : js (list jsstring)),
    fold_left
      (fun (acc : js (list jsstring)) (file : jsstring) =>
         acc ≫= (fun arrayOfFiles =>
           orThrow "ENOENT: statSync" (isDirectory f (join [dir; file])) ≫=
           (fun isDir : bool =>
              if isDir
              then getAllFiles fuel f (join [dir; file]) arrayOfFiles
              else Ret (arrayOfFiles ++ [join [dir; file]]))))
      l a = Ret res ->
    exists a0 added,
      a = Ret a0 /\ res = a0 ++ added /\
      forall p, In p added <->
        exists e, In e l /\
          ((isDirectory f (join [dir; e]) = Some false /\ p = join [dir; e]) \/
           (isDirectory f (join [dir; e]) = Some true /\
            file_below f (join [dir; e]) p))).
  { induction l as [|file l IHl]; intros a; simpl.
    - intros Ha. simpl in Ha. subst a. exists res, [].
      split; [reflexivity | split; [symmetry; apply app_nil_r |]].
      intros p. split; [intros [] | intros (e & [] & _)].
    - intros Hfold. apply IHl in Hfold as (a1 & added1 & Hstep & -> & Hadded1).
      apply getAllFiles_step_Ret in Hstep as (a0 & isDir & -> & Hd & Hstep).
      destruct isDir.
      + apply IH in Hstep as (added0 & -> & Hadded0).
        exists a0, (added0 ++ added1).
        split; [reflexivity | split; [symmetry; apply app_assoc |]].
        intros p. split.
        * intros Hin. apply in_app_or in Hin as [Hin|Hin].
          -- exists file. split; [left; reflexivity |]. right.
             split; [exact Hd | apply Hadded0, Hin].
          -- apply Hadded1 in Hin as (e & He & Hc). exists e. auto.
        * intros (e & [<-|He] & Hc).
          -- apply in_or_app. left. apply Hadded0.
             destruct Hc as [[Hd' _]|[_ Hq]]; [congruence | exact Hq].
          -- apply in_or_app. right. apply Hadded1. eauto.
      + injection Hstep as <-.
        exists a0, (join [dir; file] :: added1).
        split; [reflexivity |
                split; [rewrite <- app_assoc; reflexivity |]].
        intros p. split.
        * intros [<-|Hin].
          -- exists file. split; [left; reflexivity |]. left. auto.
          -- apply Hadded1 in Hin as (e & He & Hc). exists e. auto.
        * intros (e & [<-|He] & Hc).
          -- destruct Hc as [[_ ->]|[Hd' _]]; [left; reflexivity | congruence].
          -- right. apply Hadded1. eauto. }
  apply Hgen in H as (a0 & added & [= <-] & -> & Hadded).
  exists added. split; [reflexivity |]. intros p. rewrite Hinv. apply Hadded.
Qed.

Lemma file_below_not_directory f dir p :
  file_below f dir p -> isDirectory f p = Some false.
Proof. induction 1; auto. Qed.

(** X1. The walk returns the array it was given followed by the files it
    found, and the files it found are exactly the entries below the
    directory that are not directories. *)
Theorem getAllFiles_exact (f : filesystem) (fuel : nat) (dirPath : jsstring)
    (arrayOfFiles res : list jsstring) :
  getAllFiles fuel f dirPath arrayOfFiles = Ret res ->
  exists added,
    res = arrayOfFiles ++ added /\
    (forall p, In p added <-> file_below f dirPath p) /\
    (forall p, In p added -> isDirectory f p = Some false).
Proof.
  intros H. destruct (getAllFiles_added f _ _ _ _ H) as (added & Hres & Hadd).
  exists added. split; [exact Hres |]. split; [exact Hadd |].
  intros p Hp. apply Hadd in Hp. eapply file_below_not_directory, Hp.
Qed.

Lemma getAllFiles_exact_witness :
  getAllFiles 8 (fs Scenario.migrated) (str "/repo/src/components") []
  = Ret [str "/repo/src/components/Button.tsx";
         str "/repo/src/components/ui/card.tsx"] /\
  exists added,
    [str "/repo/src/components/Button.tsx";
     str "/repo/src/components/ui/card.tsx"] = [] ++ added /\
    (forall p, In p added <->
       file_below (fs Scenario.migrated) (str "/repo/src/components") p) /\
    (forall p, In p added -> isDirectory (fs Scenario.migrated) p = Some false).
Proof.
  assert (H : getAllFiles 8 (fs Scenario.migrated)
                (str "/repo/src/components") []
    = Ret [str "/repo/src/components/Button.tsx";
           str "/repo/src/components/ui/card.tsx"])
    by (vm_compute; reflexivity).
  split; [exact H |].
  exact (getAllFiles_exact (fs Scenario.migrated) 8 _ _ _ H).
Defined.

Lemma getAllFiles_unfold fuel f dir acc :
  getAllFiles (S fuel) f dir acc =
  (files ← orThrow "ENOENT: readdirSync" (readdirSync f dir);
   fold_left (visit (getAllFiles fuel f) f dir) files (Ret acc)).
Proof. reflexivity. Qed.

Lemma file_below_abs f :
  readdir_names f ->
  forall dir p, file_below f dir p ->
  forall X, dir = abs X -> valid_names X ->
  exists rest, rest <> [] /\ valid_names rest /\ p = abs (X ++ rest).
Proof.
  intros Hnames dir p Hb.
  induction Hb as [dir entries file Hl Hin Hd
                  | dir entries sub p Hl Hin Hd Hb IH]; intros X -> HX.
  - assert (Hfile : valid_name file = true).
    { apply Hnames in Hl. unfold valid_names in Hl.
      rewrite Forall_forall in Hl. apply Hl, list_elem_of_In, Hin. }
    exists [file]. rewrite (join_abs_name _ _ HX Hfile).
    repeat split; [discriminate | constructor; [exact Hfile | constructor]].
  - assert (Hsub : valid_name sub = true).
    { apply Hnames in Hl. unfold valid_names in Hl.
      rewrite Forall_forall in Hl. apply Hl, list_elem_of_In, Hin. }
    assert (HX' : valid_names (X ++ [sub])).
    { apply Forall_app. split; [exact HX | constructor; [exact Hsub | constructor]]. }
    destruct (IH (X ++ [sub]) (join_abs_name _ _ HX Hsub) HX')
      as (rest & Hne & Hrest & ->).
    exists (sub :: rest). rewrite <- app_assoc.
    repeat split; [discriminate | constructor; assumption].
Qed.

Lemma startsWith_abs_below X rest :
  X <> [] -> rest <> [] ->
  startsWith (abs (X ++ rest)) (abs X ++ [SLASH]) = true.
Proof.
  intros HX Hrest. apply startsWith_true.
  rewrite (abs_slashes X HX).
  rewrite (abs_slashes (X ++ rest)) by (destruct X; [congruence | discriminate]).
  rewrite slashes_app. destruct rest as [|r rest]; [congruence |].
  exists (r ++ slashes rest). rewrite <- app_assoc. reflexivity.
Qed.

(** X3. When [readdirSync] gives proper entry names, each path the walk
    adds is the directory path followed by a chain of entry names, so it
    begins with the directory path and a separator. *)
Theorem getAllFiles_under (f : filesystem) (fuel : nat) (X : list jsstring)
    (arrayOfFiles res : list jsstring) :
  readdir_names f -> valid_names X ->
  getAllFiles fuel f (abs X) arrayOfFiles = Ret res ->
  exists added,
    res = arrayOfFiles ++ added /\
    forall p, In p added ->
      exists rest,
        rest <> [] /\ valid_names rest /\ p = abs (X ++ rest) /\
        (X <> [] -> startsWith p (abs X ++ [SLASH]) = true).
Proof.
  intros Hnames HX H.
  destruct (getAllFiles_added f _ _ _ _ H) as (added & Hres & Hadd).
  exists added. split; [exact Hres |]. intros p Hp. apply Hadd in Hp.
  destruct (file_below_abs f Hnames _ _ Hp X eq_refl HX)
    as (rest & Hne & Hrest & ->).
  exists rest. repeat split; auto.
  intros HXne. apply startsWith_abs_below; assumption.
Qed.

Lemma getAllFiles_under_witness :
  (readdir_names (fs Scenario.migrated) /\
   valid_names [str "repo"; str "src"; str "components"] /\
   getAllFiles 8 (fs Scenario.migrated)
     (abs [str "repo"; str "src"; str "components"]) []
   = Ret [str "/repo/src/components/Button.tsx";
          str "/repo/src/components/ui/card.tsx"]) /\
  exists added,
    [str "/repo/src/components/Button.tsx";
     str "/repo/src/components/ui/card.tsx"] = [] ++ added /\
    forall p, In p added ->
      exists rest,
        rest <> [] /\ valid_names rest /\
        p = abs ([str "repo"; str "src"; str "components"] ++ rest) /\
        ([str "repo"; str "src"; str "components"] <> [] ->
         startsWith p
           (abs [str "repo"; str "src"; str "components"] ++ [SLASH]) = true).
Proof.
  assert (H2 : valid_names [str "repo"; str "src"; str "components"])
    by (repeat (constructor; [reflexivity |]); constructor).
  assert (H3 : getAllFiles 8 (fs Scenario.migrated)
     (abs [str "repo"; str "src"; str "components"]) []
   = Ret [str "/repo/src/components/Button.tsx";
          str "/repo/src/components/ui/card.tsx"])
    by (vm_compute; reflexivity).
  split; [repeat split; auto using migrated_readdir_names |].
  exact (getAllFiles_under (fs Scenario.migrated) 8 _ _ _
           migrated_readdir_names H2 H3).
Defined.

(** ** Component files *)

Lemma endsWith_true s p : endsWith s p = true <-> exists stem, s = stem ++ p.
Proof.
  unfold endsWith. rewrite startsWith_true. split.
  - intros (t & H). exists (rev t).
    apply (f_equal (@rev N)) in H. rewrite rev_involutive in H.
    rewrite H, rev_app_distr, rev_involutive. reflexivity.
  - intros (stem & ->). exists (rev stem). apply rev_app_distr.
Qed.

(** X4. When the target components directory exists, the component files
    are exactly the files below it whose path ends in [.ts] or [.tsx];
    every other file (style sheets, images, [.js], [.json]) is left out of
    the import check. *)
Theorem componentFiles_filter (w : env) (files : list jsstring) :
  existsSync (fs w) (targetComponentsDir w) = true ->
  componentFiles w = Ret files ->
  forall p,
    In p files <->
    file_below (fs w) (targetComponentsDir w) p /\
    exists stem, p = stem ++ str ".ts" \/ p = stem ++ str ".tsx".
Proof.
  intros He H. unfold componentFiles in H. rewrite He in H.
  apply js_bind_Ret in H as (walked & Hw & [= <-]).
  destruct (getAllFiles_added _ _ _ _ _ Hw) as (added & -> & Hadd).
  intros p. rewrite filter_In. simpl. rewrite Hadd, orb_true_iff.
  rewrite !endsWith_true. split.
  - intros [Hb [[stem ->]|[stem ->]]]; split; eauto.
  - intros [Hb [stem [-> | ->]]]; split; eauto.
Qed.

Lemma componentFiles_filter_witness :
  (existsSync (fs Scenario.migrated) (targetComponentsDir Scenario.migrated)
   = true /\
   componentFiles Scenario.migrated
   = Ret [str "/repo/app/src/components/Button.tsx";
          str "/repo/app/src/components/ui/card.tsx"]) /\
  forall p,
    In p [str "/repo/app/src/components/Button.tsx";
          str "/repo/app/src/components/ui/card.tsx"] <->
    file_below (fs Scenario.migrated)
      (targetComponentsDir Scenario.migrated) p /\
    exists stem, p = stem ++ str ".ts" \/ p = stem ++ str ".tsx".
Proof.
  assert (H1 : existsSync (fs Scenario.migrated)
                 (targetComponentsDir Scenario.migrated) = true)
    by (vm_compute; reflexivity).
  assert (H2 : componentFiles Scenario.migrated
   = Ret [str "/repo/app/src/components/Button.tsx";
          str "/repo/app/src/components/ui/card.tsx"])
    by (vm_compute; reflexivity).
  split; [split; assumption |].
  exact (componentFiles_filter Scenario.migrated _ H1 H2).
Defined.

(** ** What a run of [fc.assert] tells *)

Lemma generate_In values r : values <> [] -> In (generate values r) values.
Proof.
  intros Hne. unfold generate. apply nth_In.
  apply Nat.mod_upper_bound. destruct values; [congruence | discriminate].
Qed.

Lemma check_runs_Ret values predicate random runs :
  check_runs values predicate random runs = Ret tt <->
  forall i, In i runs -> predicate (generate values (random i)) = Ret true.
Proof.
  induction runs as [|i runs IH]; simpl.
  - split; [intros _ j [] | reflexivity].
  - destruct (predicate (generate values (random i))) as [[|]| |] eqn:E;
      simpl.
    + rewrite IH. split.
      * intros H j [<-|Hj]; auto.
      * intros H j Hj. apply H. right. exact Hj.
    + split; [discriminate | intros H].
      specialize (H i (or_introl eq_refl)). congruence.
    + split; [discriminate | intros H].
      specialize (H i (or_introl eq_refl)). congruence.
    + split; [discriminate | intros H].
      specialize (H i (or_introl eq_refl)). congruence.
Qed.

Lemma shrink_reports values predicate r x cause :
  In x values -> failure (predicate x) = Some cause ->
  exists y c,
    shrink values predicate r x cause = PropertyFailed y c /\
    In y values /\ failure (predicate y) = Some c.
Proof.
  intros Hx Hf. unfold shrink.
  destruct (Nat.eqb (r mod length values) 0 || Nat.leb (length values) 1);
    [eauto |].
  destruct (failure (predicate (nth 0 values []))) as [c0|] eqn:E; [|eauto].
  exists (nth 0 values []), c0. repeat split; [|exact E].
  apply nth_In. destruct values; [destruct Hx | simpl; lia].
Qed.

Lemma check_runs_Throw values predicate random runs e :
  values <> [] ->
  check_runs values predicate random runs = Throw e ->
  exists x cause,
    e = PropertyFailed x cause /\ In x values /\
    failure (predicate x) = Some cause.
Proof.
  intros Hne. induction runs as [|i runs IH]; simpl; [discriminate |].
  pose proof (generate_In values (random i) Hne) as Hin.
  destruct (predicate (generate values (random i))) as [[|]| |] eqn:E; simpl.
  - exact IH.
  - intros [= <-].
    destruct (shrink_reports values predicate (random i) _
                (Error "Property failed by returning false") Hin)
      as (y & c & -> & Hy & Hc); [rewrite E; reflexivity | eauto].
  - intros [= <-].
    destruct (shrink_reports values predicate (random i) _ e0 Hin)
      as (y & c & -> & Hy & Hc); [rewrite E; reflexivity | eauto].
  - discriminate.
Qed.

Lemma fc_assert_all_pass values predicate random :
  (forall x, In x values -> predicate x = Ret true) -> values <> [] ->
  fc_assert values predicate random = Ret tt.
Proof.
  intros H Hne. apply check_runs_Ret. intros i _. apply H, generate_In, Hne.
Qed.

Lemma fc_assert_Throw values predicate random e :
  values <> [] ->
  fc_assert values predicate random = Throw e ->
  exists x cause,
    e = PropertyFailed x cause /\ In x values /\
    failure (predicate x) = Some cause.
Proof. intros Hne. unfold fc_assert. apply check_runs_Throw, Hne. Qed.

Lemma constantFrom_Ret values : values <> [] -> constantFrom values = Ret values.
Proof. destruct values; [congruence | reflexivity]. Qed.

(** X5. A run of 100 samples over a universe of more than 100 elements
    leaves some element unchecked: whatever the random source, there is an
    element of the universe such that the assertion passes as soon as the
    predicate holds of all the others. *)
Theorem fc_assert_misses_an_element (values : list jsstring)
    (random : nat -> nat) :
  numRuns < length values ->
  exists j, j < length values /\
    (forall i, i < numRuns -> random i mod length values <> j) /\
    forall predicate,
      (forall k, k < length values -> k <> j ->
         predicate (nth k values []) = Ret true) ->
      fc_assert values predicate random = Ret tt.
Proof.
  intros Hlen.
  set (n := length values).
  set (drawn := map (fun i => random i mod n) (seq 0 numRuns)).
  assert (Hex : exists j, In j (seq 0 n) /\ ~ In j drawn).
  { destruct (List.Forall_Exists_dec (fun x => In x drawn)
                (fun x => in_dec Nat.eq_dec x drawn) (seq 0 n)) as [Hall|Hex].
    - exfalso.
      assert (Hincl : incl (seq 0 n) drawn).
      { intros x Hx. rewrite List.Forall_forall in Hall. apply Hall, Hx. }
      apply NoDup_incl_length in Hincl; [| apply seq_NoDup].
      unfold drawn in Hincl.
      rewrite length_map, !length_seq in Hincl. unfold n in Hincl. lia.
    - apply List.Exists_exists in Hex. exact Hex. }
  destruct Hex as (j & Hj & Hnot). apply in_seq in Hj.
  exists j. split; [lia |].
  assert (Hmiss : forall i, i < numRuns -> random i mod n <> j).
  { intros i Hi Heq. apply Hnot. unfold drawn. apply in_map_iff.
    exists i. split; [exact Heq | apply in_seq; lia]. }
  split; [exact Hmiss |].
  intros predicate Hp. apply check_runs_Ret. intros i Hi.
  apply in_seq in Hi. unfold generate. apply Hp.
  - apply Nat.mod_upper_bound. unfold n in *. lia.
  - apply Hmiss. lia.
Qed.

Lemma fc_assert_misses_an_element_witness :
  numRuns < length (map (fun i => [N.of_nat i]) (seq 0 101)) /\
  exists j, j < length (map (fun i => [N.of_nat i]) (seq 0 101)) /\
    (forall i, i < numRuns ->
       (fun i => i) i mod length (map (fun i => [N.of_nat i]) (seq 0 101))
       <> j) /\
    forall predicate,
      (forall k, k < length (map (fun i => [N.of_nat i]) (seq 0 101)) ->
         k <> j ->
         predicate (nth k (map (fun i => [N.of_nat i]) (seq 0 101)) [])
         = Ret true) ->
      fc_assert (map (fun i => [N.of_nat i]) (seq 0 101)) predicate
        (fun i => i) = Ret tt.
Proof.
  assert (H : numRuns < length (map (fun i => [N.of_nat i]) (seq 0 101))).
  { rewrite length_map, length_seq. unfold numRuns. lia. }
  split; [exact H |].
  exact (fc_assert_misses_an_element _ (fun i => i) H).
Defined.

(** ** The four tests, run *)

Lemma property1_predicate_walked w D files sourceFilePath :
  __dirname w = abs D -> valid_names D -> readdir_names (fs w) ->
  allSourceFiles w = Ret files -> In sourceFilePath files ->
  property1_predicate w sourceFilePath
  = if existsSync (fs w) (targetPath w sourceFilePath)
    then Ret true else Throw (AssertionError ToBeTrue_exists).
Proof.
  intros HD Hv Hnames Hfiles Hin.
  destruct (allSourceFiles_below w D files sourceFilePath HD Hv Hnames
              Hfiles Hin) as (rest & Hne & Hrest & ->).
  destruct (targetPath_abs w D rest HD Hv Hrest Hne) as [Hrel Htp].
  assert (Hbase : basename (targetPath w
                     (abs (parent (parent D) ++ componentsNames ++ rest)))
                  = basename
                      (abs (parent (parent D) ++ componentsNames ++ rest))).
  { rewrite Htp. destruct (nonempty_last rest Hne) as (rest' & n & ->).
    apply Forall_app in Hrest as [Hrest' Hn].
    inversion Hn as [|? ? Hn' _]; subst.
    assert (HX1 : valid_names ((parent D ++ componentsNames) ++ rest')).
    { apply Forall_app; split; [apply Forall_app; split |];
        [apply valid_names_parent, Hv | exact valid_componentsNames
        | exact Hrest']. }
    assert (HX2 : valid_names
                    ((parent (parent D) ++ componentsNames) ++ rest')).
    { apply Forall_app; split; [apply Forall_app; split |];
        [apply valid_names_parent, valid_names_parent, Hv
        | exact valid_componentsNames | exact Hrest']. }
    rewrite !app_assoc.
    rewrite (basename_abs _ _ HX1 Hn'), (basename_abs _ _ HX2 Hn').
    reflexivity. }
  unfold property1_predicate.
  rewrite (includes_components _ _ Hne).
  rewrite (bool_decide_eq_true_2 _ Hbase).
  rewrite (bool_decide_eq_true_2 _ (extname_basename _ _ Hbase)).
  destruct (existsSync (fs w) _); reflexivity.
Qed.

(** X6. The file-migration test passes, whatever the samples, when every
    file below the source components directory has its target path; when it
    fails, the counterexample it reports is a source component file whose
    target path does not exist. *)
Theorem property1_outcome (w : env) (D files : list jsstring)
    (random : nat -> nat) :
  __dirname w = abs D -> valid_names D -> readdir_names (fs w) ->
  allSourceFiles w = Ret files -> files <> [] ->
  ((forall f, In f files -> existsSync (fs w) (targetPath w f) = true) ->
   property1 w random = Ret tt) /\
  (forall e, property1 w random = Throw e ->
     exists f,
       In f files /\ existsSync (fs w) (targetPath w f) = false /\
       e = PropertyFailed f (AssertionError ToBeTrue_exists)).
Proof.
  intros HD Hv Hnames Hfiles Hne. unfold property1. rewrite Hfiles.
  cbn [mbind js_bind]. rewrite (constantFrom_Ret _ Hne). cbn [mbind js_bind].
  split.
  - intros Hall. apply fc_assert_all_pass; [|exact Hne].
    intros f Hf.
    rewrite (property1_predicate_walked w D files f HD Hv Hnames Hfiles Hf).
    rewrite (Hall f Hf). reflexivity.
  - intros e He. apply (fc_assert_Throw _ _ _ _ Hne) in He
      as (f & cause & -> & Hf & Hcause).
    exists f. split; [exact Hf |].
    rewrite (property1_predicate_walked w D files f HD Hv Hnames Hfiles Hf)
      in Hcause.
    destruct (existsSync (fs w) (targetPath w f)); simpl in Hcause;
      [discriminate |].
    injection Hcause as <-. auto.
Qed.

Lemma property1_outcome_witness :
  (__dirname Scenario.migrated = abs [str "repo"; str "app"; str "tests"] /\
   valid_names [str "repo"; str "app"; str "tests"] /\
   readdir_names (fs Scenario.migrated) /\
   allSourceFiles Scenario.migrated
     = Ret [str "/repo/src/components/Button.tsx";
            str "/repo/src/components/ui/card.tsx"] /\
   [str "/repo/src/components/Button.tsx";
    str "/repo/src/components/ui/card.tsx"] <> []) /\
  ((forall f, In f [str "/repo/src/components/Button.tsx";
                    str "/repo/src/components/ui/card.tsx"] ->
      existsSync (fs Scenario.migrated) (targetPath Scenario.migrated f)
      = true) ->
   property1 Scenario.migrated (fun i => i) = Ret tt).
Proof.
  assert (H1 : __dirname Scenario.migrated
               = abs [str "repo"; str "app"; str "tests"])
    by reflexivity.
  assert (H2 : valid_names [str "repo"; str "app"; str "tests"])
    by (repeat (constructor; [reflexivity |]); constructor).
  assert (H4 : allSourceFiles Scenario.migrated
     = Ret [str "/repo/src/components/Button.tsx";
            str "/repo/src/components/ui/card.tsx"])
    by (vm_compute; reflexivity).
  assert (H5 : [str "/repo/src/components/Button.tsx";
                str "/repo/src/components/ui/card.tsx"] <> [])
    by discriminate.
  split; [repeat split; auto using migrated_readdir_names |].
  exact (proj1 (property1_outcome Scenario.migrated _ _ (fun i => i)
                  H1 H2 migrated_readdir_names H4 H5)).
Defined.

Lemma forEach_Throw {A} (f : A -> js unit) l e :
  forEach f l = Throw e -> exists x, In x l /\ f x = Throw e.
Proof.
  induction l as [|x l IH]; simpl; [discriminate |].
  destruct (f x) as [[]| |] eqn:E; simpl.
  - intros H. apply IH in H as (y & Hy & H). eauto.
  - intros [= <-]. eauto.
  - discriminate.
Qed.

(** X7. The import-path test passes, whatever the samples, when every
    component file can be read and every reference it holds that is subject
    to resolution resolves; when it fails, the counterexample is a component
    file that cannot be read, or one holding an extracted reference, subject
    to resolution, that does not resolve. *)
Theorem property2_outcome (w : env) (files : list jsstring)
    (random : nat -> nat) :
  componentFiles w = Ret files -> files <> [] ->
  ((forall f, In f files ->
      exists content imports,
        readFileSync (fs w) f = Some content /\
        extractImports content = Some imports /\
        forall importPath, In importPath imports ->
          subject_to_resolution importPath = true ->
          resolves w f importPath = true) ->
   property2 w random = Ret tt) /\
  (forall e, property2 w random = Throw e ->
     exists f, In f files /\
       ((readFileSync (fs w) f = None /\
         e = PropertyFailed f (Error "ENOENT: readFileSync")) \/
        (exists content imports importPath,
           readFileSync (fs w) f = Some content /\
           extractImports content = Some imports /\
           In importPath imports /\
           subject_to_resolution importPath = true /\
           resolves w f importPath = false /\
           e = PropertyFailed f (AssertionError ToBeTrue_resolves)))).
Proof.
  intros Hfiles Hne. unfold property2. rewrite Hfiles.
  cbn [mbind js_bind]. rewrite (constantFrom_Ret _ Hne). cbn [mbind js_bind].
  split.
  - intros Hall. apply fc_assert_all_pass; [|exact Hne].
    intros f Hf. destruct (Hall f Hf) as (content & imports & H1 & H2 & H3).
    apply (property2_predicate_true _ _ _ _ H1 H2). exact H3.
  - intros e He. apply (fc_assert_Throw _ _ _ _ Hne) in He
      as (f & cause & -> & Hf & Hcause).
    exists f. split; [exact Hf |].
    destruct (readFileSync (fs w) f) as [content|] eqn:Hread.
    + right. destruct (extractImports_total content) as [imports Himp].
      rewrite (property2_predicate_eq _ _ _ _ Hread Himp) in Hcause.
      destruct (forEach (checkImport w f) imports) as [[]|e'|] eqn:Hfor;
        simpl in Hcause; try discriminate.
      injection Hcause as <-.
      apply forEach_Throw in Hfor as (ip & Hip & Hcheck).
      rewrite checkImport_eq in Hcheck.
      destruct (subject_to_resolution ip) eqn:Hs; [|discriminate].
      destruct (resolves w f ip) eqn:Hr; simpl in Hcheck; [discriminate |].
      injection Hcheck as <-.
      exists content, imports, ip. auto 10.
    + left. unfold property2_predicate in Hcause. rewrite Hread in Hcause.
      simpl in Hcause. injection Hcause as <-. auto.
Qed.

Lemma property2_outcome_witness :
  (componentFiles Scenario.migrated
   = Ret [str "/repo/app/src/components/Button.tsx";
          str "/repo/app/src/components/ui/card.tsx"] /\
   [str "/repo/app/src/components/Button.tsx";
    str "/repo/app/src/components/ui/card.tsx"] <> []) /\
  (forall e, property2 Scenario.migrated (fun i => i) = Throw e ->
     exists f, In f [str "/repo/app/src/components/Button.tsx";
                     str "/repo/app/src/components/ui/card.tsx"] /\
       ((readFileSync (fs Scenario.migrated) f = None /\
         e = PropertyFailed f (Error "ENOENT: readFileSync")) \/
        (exists content imports importPath,
           readFileSync (fs Scenario.migrated) f = Some content /\
           extractImports content = Some imports /\
           In importPath imports /\
           subject_to_resolution importPath = true /\
           resolves Scenario.migrated f importPath = false /\
           e = PropertyFailed f (AssertionError ToBeTrue_resolves)))).
Proof.
  assert (H1 : componentFiles Scenario.migrated
   = Ret [str "/repo/app/src/components/Button.tsx";
          str "/repo/app/src/components/ui/card.tsx"])
    by (vm_compute; reflexivity).
  assert (H2 : [str "/repo/app/src/components/Button.tsx";
                str "/repo/app/src/components/ui/card.tsx"] <> [])
    by discriminate.
  split; [split; assumption |].
  exact (proj2 (property2_outcome Scenario.migrated _ (fun i => i) H1 H2)).
Defined.

Lemma property3_predicate_cases w source target name :
  In name (sourceRadixPackages source) ->
  exists sourceVersion,
    default ∅ (dependencies source) !! name = Some sourceVersion /\
    match default ∅ (dependencies target) !! name with
    | None =>
        property3_predicate w source target name
        = Throw (AssertionError ToHaveProperty) \/
        property3_predicate w source target name
        = Throw (AssertionError ToBeDefined_target)
    | Some targetVersion =>
        property3_predicate w source target name =
        if isValidVersion sourceVersion
        then if isValidVersion targetVersion then Ret true
             else Throw (AssertionError ToBeTrue_validTarget)
        else Throw (AssertionError ToBeTrue_validSource)
    end.
Proof.
  intros Hin.
  apply sourceRadixPackages_In in Hin as (_ & sourceDeps & sv & Hs & Hsv).
  exists sv. rewrite Hs. simpl. split; [exact Hsv |].
  destruct (default ∅ (dependencies target) !! name) as [tv|] eqn:Htv.
  - rewrite (property3_predicate_present _ _ _ _ _ _ _ Hs Hsv Htv).
    destruct (isValidVersion sv), (isValidVersion tv); reflexivity.
  - rewrite (property3_predicate_absent _ _ _ _ _ _ Hs Hsv Htv).
    destruct (getPathInfo_exists w _ name); auto.
Qed.

(** X8. The dependency test passes, whatever the samples, when every Radix
    dependency of the source manifest is a key of the target dependencies
    and both specifiers are valid; when it fails, the counterexample is a
    Radix dependency name of the source and the failed expectation tells
    what is wrong with it: absent from the target, source specifier invalid,
    or target specifier invalid. *)
Theorem property3_outcome (w : env) (source target : packageJson)
    (random : nat -> nat) :
  readJson w (join [__dirname w; str "../../package.json"]) = Ret source ->
  readJson w (join [__dirname w; str "../package.json"]) = Ret target ->
  sourceRadixPackages source <> [] ->
  ((forall name, In name (sourceRadixPackages source) ->
      exists sv tv,
        default ∅ (dependencies source) !! name = Some sv /\
        default ∅ (dependencies target) !! name = Some tv /\
        isValidVersion sv = true /\ isValidVersion tv = true) ->
   property3 w random = Ret tt) /\
  (forall e, property3 w random = Throw e ->
     exists name sv,
       In name (sourceRadixPackages source) /\
       default ∅ (dependencies source) !! name = Some sv /\
       ((default ∅ (dependencies target) !! name = None /\
         (e = PropertyFailed name (AssertionError ToHaveProperty) \/
          e = PropertyFailed name (AssertionError ToBeDefined_target))) \/
        (isValidVersion sv = false /\
         e = PropertyFailed name (AssertionError ToBeTrue_validSource)) \/
        (exists tv,
           default ∅ (dependencies target) !! name = Some tv /\
           isValidVersion tv = false /\
           e = PropertyFailed name (AssertionError ToBeTrue_validTarget)))).
Proof.
  intros Hs Ht Hne. unfold property3. rewrite Hs. cbn [mbind js_bind].
  rewrite Ht. cbn [mbind js_bind]. rewrite (constantFrom_Ret _ Hne).
  cbn [mbind js_bind]. split.
  - intros Hall. apply fc_assert_all_pass; [|exact Hne].
    intros name Hname. destruct (Hall name Hname) as (sv & tv & H1 & H2 & H3 & H4).
    destruct (property3_predicate_cases w source target name Hname)
      as (sv' & Hsv' & Hcase).
    rewrite H1 in Hsv'. injection Hsv' as <-. rewrite H2 in Hcase.
    rewrite Hcase, H3, H4. reflexivity.
  - intros e He. apply (fc_assert_Throw _ _ _ _ Hne) in He
      as (name & cause & -> & Hname & Hcause).
    destruct (property3_predicate_cases w source target name Hname)
      as (sv & Hsv & Hcase).
    exists name, sv. split; [exact Hname |]. split; [exact Hsv |].
    destruct (default ∅ (dependencies target) !! name) as [tv|] eqn:Htv.
    + rewrite Hcase in Hcause.
      destruct (isValidVersion sv) eqn:E1.
      * destruct (isValidVersion tv) eqn:E2; simpl in Hcause;
          [discriminate |].
        injection Hcause as <-. right. right. exists tv. auto.
      * simpl in Hcause. injection Hcause as <-. right. left. auto.
    + left. split; [reflexivity |].
      destruct Hcase as [Hc|Hc]; rewrite Hc in Hcause; simpl in Hcause;
        injection Hcause as <-; auto.
Qed.

Lemma property3_outcome_witness :
  (readJson Scenario.half_migrated
     (join [__dirname Scenario.half_migrated; str "../../package.json"])
   = Ret (Scenario.manifest
            [(str "@radix-ui/react-dialog", str "^1.0.0");
             (str "@radix-ui/react-slot", str "^1.0.2")]) /\
   readJson Scenario.half_migrated
     (join [__dirname Scenario.half_migrated; str "../package.json"])
   = Ret Scenario.targetManifest /\
   sourceRadixPackages
     (Scenario.manifest
        [(str "@radix-ui/react-dialog", str "^1.0.0");
         (str "@radix-ui/react-slot", str "^1.0.2")]) <> []) /\
  (forall e, property3 Scenario.half_migrated (fun _ => 1) = Throw e ->
     exists name sv,
       In name (sourceRadixPackages
         (Scenario.manifest
            [(str "@radix-ui/react-dialog", str "^1.0.0");
             (str "@radix-ui/react-slot", str "^1.0.2")])) /\
       default ∅ (dependencies
         (Scenario.manifest
            [(str "@radix-ui/react-dialog", str "^1.0.0");
             (str "@radix-ui/react-slot", str "^1.0.2")])) !! name = Some sv /\
       ((default ∅ (dependencies Scenario.targetManifest) !! name = None /\
         (e = PropertyFailed name (AssertionError ToHaveProperty) \/
          e = PropertyFailed name (AssertionError ToBeDefined_target))) \/
        (isValidVersion sv = false /\
         e = PropertyFailed name (AssertionError ToBeTrue_validSource)) \/
        (exists tv,
           default ∅ (dependencies Scenario.targetManifest) !! name = Some tv /\
           isValidVersion tv = false /\
           e = PropertyFailed name (AssertionError ToBeTrue_validTarget)))).
Proof.
  assert (H1 : readJson Scenario.half_migrated
     (join [__dirname Scenario.half_migrated; str "../../package.json"])
   = Ret (Scenario.manifest
            [(str "@radix-ui/react-dialog", str "^1.0.0");
             (str "@radix-ui/react-slot", str "^1.0.2")]))
    by (vm_compute; reflexivity).
  assert (H2 : readJson Scenario.half_migrated
     (join [__dirname Scenario.half_migrated; str "../package.json"])
   = Ret Scenario.targetManifest) by (vm_compute; reflexivity).
  assert (H3 : sourceRadixPackages
     (Scenario.manifest
        [(str "@radix-ui/react-dialog", str "^1.0.0");
         (str "@radix-ui/react-slot", str "^1.0.2")]) <> [])
    by (vm_compute; discriminate).
  split; [repeat split; assumption |].
  exact (proj2 (property3_outcome Scenario.half_migrated _ _ (fun _ => 1)
                  H1 H2 H3)).
Defined.

(** ** Extracted names and the target text *)

Lemma lang_cssVariableRegex i mt c0 c :
  lang cssVariableRegex i mt c0 c <->
  exists name ws,
    c = Some name /\ mt = str "--" ++ name ++ ws ++ [COLON] /\
    name <> [] /\ forallb isIdent name = true /\ forallb isSpace ws = true.
Proof.
  unfold cssVariableRegex. cbn [lang]. split.
  - intros (t0 & r0 & c1 & -> & (-> & ->) & L).
    destruct L as (name & r1 & c2 & -> & ((c3 & Hne & Hid & _) & ->) & L).
    destruct L as (ws & r2 & c4 & -> & (Hws & ->) & L).
    destruct L as ((x & -> & Hx) & ->).
    apply N.eqb_eq in Hx. subst x. exists name, ws. auto.
  - intros (name & ws & -> & -> & Hne & Hid & Hws).
    exists (str "--"), (name ++ ws ++ [COLON]), c0.
    split; [reflexivity |]. split; [split; reflexivity |].
    exists name, (ws ++ [COLON]), (Some name).
    split; [reflexivity |]. split; [split; [exists c0; auto | reflexivity] |].
    exists ws, [COLON], (Some name). split; [reflexivity |].
    split; [split; auto |]. split; [|reflexivity].
    exists COLON. split; reflexivity.
Qed.

Lemma declares_surrounded target name pre post :
  declares target name -> declares (pre ++ target ++ post) name.
Proof.
  intros (p & ws & q & -> & Hws). exists (pre ++ p), ws, (q ++ post).
  split; [|exact Hws]. rewrite <- !app_assoc. reflexivity.
Qed.

Lemma sourceVariables_sound css vs :
  sourceVariables css = Some vs ->
  forall name, In name vs -> declares css name.
Proof.
  unfold sourceVariables, exec_all. intros H.
  refine (exec_loop_invariant Set_add
            (fun acc => forall n, In n acc -> declares css n)
            cssVariableRegex css _ _ css [] [] vs eq_refl _ H).
  - intros acc pre mt post c HP -> L n Hin.
    apply list_elem_of_In, Set_add_elem in Hin as [Hin| ->].
    + apply HP, list_elem_of_In, Hin.
    + apply lang_cssVariableRegex in L as (name & ws & -> & -> & _ & _ & Hws).
      simpl. exists pre, ws, post. split; [|exact Hws].
      rewrite <- !app_assoc. reflexivity.
  - intros n [].
Qed.

(** X9. Every name the extraction gives is declared in the text it was
    extracted from, so a style sheet passes the preservation check against
    itself, and against any target text that contains it: adding text
    around a target never makes a preserved name unpreserved. *)
Theorem sourceVariables_declared (css : jsstring) (vs : list jsstring)
    (name : jsstring) :
  sourceVariables css = Some vs -> In name vs ->
  declares css name /\
  forall pre post, property4_predicate (pre ++ css ++ post) name = Ret true.
Proof.
  intros H Hin. pose proof (sourceVariables_sound _ _ H _ Hin) as Hd.
  split; [exact Hd |]. intros pre post.
  rewrite property4_predicate_eq.
  rewrite (proj2 (existsInTarget_true _ _)); [reflexivity |].
  apply declares_surrounded, Hd.
Qed.

Lemma sourceVariables_declared_witness :
  (sourceVariables (str "a { --x: 1; --y : 2 }") = Some [str "x"; str "y"] /\
   In (str "y") [str "x"; str "y"]) /\
  declares (str "a { --x: 1; --y : 2 }") (str "y") /\
  forall pre post,
    property4_predicate (pre ++ str "a { --x: 1; --y : 2 }" ++ post) (str "y")
    = Ret true.
Proof.
  assert (H1 : sourceVariables (str "a { --x: 1; --y : 2 }")
               = Some [str "x"; str "y"]) by (vm_compute; reflexivity).
  assert (H2 : In (str "y") [str "x"; str "y"]) by (right; left; reflexivity).
  split; [split; assumption |].
  exact (sourceVariables_declared _ _ _ H1 H2).
Defined.

(** X10. The style-sheet test passes, whatever the samples, when every
    extracted source name is declared in the target text; when it fails,
    the counterexample is an extracted source name that the target text
    does not declare. *)
Theorem property4_outcome (w : env)
    (sourceAppCss sourceIndexCss targetCss : jsstring) (vs : list jsstring)
    (random : nat -> nat) :
  readText w (join [sourceRoot w; str "src/App.css"]) = Ret sourceAppCss ->
  readText w (join [sourceRoot w; str "src/index.css"]) = Ret sourceIndexCss ->
  readText w (join [targetRoot w; str "src/styles.css"]) = Ret targetCss ->
  sourceVariables (sourceCss sourceAppCss sourceIndexCss) = Some vs ->
  vs <> [] ->
  ((forall name, In name vs -> declares targetCss name) ->
   property4 w random = Ret tt) /\
  (forall e, property4 w random = Throw e ->
     exists name,
       In name vs /\ ~ declares targetCss name /\
       e = PropertyFailed name (AssertionError ToBeTrue_existsInTarget)).
Proof.
  intros Ha Hb Ht Hvs Hne. unfold property4.
  rewrite Ha. cbn [mbind js_bind]. rewrite Hb. cbn [mbind js_bind].
  rewrite Ht. cbn [mbind js_bind]. rewrite Hvs. cbn [orDiverge mbind js_bind].
  rewrite (constantFrom_Ret _ Hne). cbn [mbind js_bind]. split.
  - intros Hall. apply fc_assert_all_pass; [|exact Hne].
    intros name Hname. rewrite property4_predicate_eq.
    rewrite (proj2 (existsInTarget_true _ _) (Hall name Hname)). reflexivity.
  - intros e He. apply (fc_assert_Throw _ _ _ _ Hne) in He
      as (name & cause & -> & Hname & Hcause).
    exists name. split; [exact Hname |].
    rewrite property4_predicate_eq in Hcause.
    destruct (existsInTarget targetCss name) eqn:E; simpl in Hcause;
      [discriminate |].
    injection Hcause as <-. split; [|reflexivity].
    intros Hd. apply existsInTarget_true in Hd. congruence.
Qed.

Lemma property4_outcome_witness :
  (readText Scenario.migrated
     (join [sourceRoot Scenario.migrated; str "src/App.css"])
   = Ret (str ":root { --primary: #fff; }" ++ [LF]) /\
   readText Scenario.migrated
     (join [sourceRoot Scenario.migrated; str "src/index.css"])
   = Ret (str "body { --radius: 4px; --primary: #000; }" ++ [LF]) /\
   readText Scenario.migrated
     (join [targetRoot Scenario.migrated; str "src/styles.css"])
   = Ret (str ":root { --primary: #fff; --radius : 4px; }" ++ [LF]) /\
   sourceVariables
     (sourceCss (str ":root { --primary: #fff; }" ++ [LF])
        (str "body { --radius: 4px; --primary: #000; }" ++ [LF]))
   = Some [str "primary"; str "radius"] /\
   [str "primary"; str "radius"] <> []) /\
  (forall e, property4 Scenario.migrated (fun i => i) = Throw e ->
     exists name,
       In name [str "primary"; str "radius"] /\
       ~ declares (str ":root { --primary: #fff; --radius : 4px; }" ++ [LF])
           name /\
       e = PropertyFailed name (AssertionError ToBeTrue_existsInTarget)).
Proof.
  assert (H1 : readText Scenario.migrated
     (join [sourceRoot Scenario.migrated; str "src/App.css"])
   = Ret (str ":root { --primary: #fff; }" ++ [LF]))
    by (vm_compute; reflexivity).
  assert (H2 : readText Scenario.migrated
     (join [sourceRoot Scenario.migrated; str "src/index.css"])
   = Ret (str "body { --radius: 4px; --primary: #000; }" ++ [LF]))
    by (vm_compute; reflexivity).
  assert (H3 : readText Scenario.migrated
     (join [targetRoot Scenario.migrated; str "src/styles.css"])
   = Ret (str ":root { --primary: #fff; --radius : 4px; }" ++ [LF]))
    by (vm_compute; reflexivity).
  assert (H4 : sourceVariables
     (sourceCss (str ":root { --primary: #fff; }" ++ [LF])
        (str "body { --radius: 4px; --primary: #000; }" ++ [LF]))
   = Some [str "primary"; str "radius"]) by (vm_compute; reflexivity).
  assert (H5 : [str "primary"; str "radius"] <> []) by discriminate.
  split; [repeat split; assumption |].
  exact (proj2 (property4_outcome Scenario.migrated _ _ _ _ (fun i => i)
                  H1 H2 H3 H4 H5)).
Defined.

(** ** Where the candidates of a reference are *)

Lemma walk_dot stack : walk stack (str ".") = stack.
Proof.
  unfold walk. change (split_slash (str ".")) with [str "."].
  simpl. unfold norm_step.
  rewrite (bool_decide_eq_false_2 (str "." = [])) by discriminate.
  rewrite (bool_decide_eq_true_2 (str "." = str ".")) by reflexivity.
  reflexivity.
Qed.

(** The directory of a file: the file joined with [..]. *)
Lemma join_dotdot F file :
  valid_names F -> valid_name file = true ->
  join [abs (F ++ [file]); str ".."] = abs F.
Proof.
  intros HF Hfile.
  assert (HFf : valid_names (F ++ [file])).
  { apply Forall_app. split; [exact HF | constructor; [exact Hfile | constructor]]. }
  rewrite join_2 by discriminate. rewrite normalize_abs.
  - rewrite walk_app, walk_abs, app_nil_r by exact HFf.
    rewrite walk_dotdot by (apply Forall_rev, HFf).
    rewrite rev_app_distr. simpl. rewrite rev_involutive. reflexivity.
  - reflexivity.
  - replace (abs (F ++ [file]) ++ SLASH :: str "..")
      with ((abs (F ++ [file]) ++ [SLASH]) ++ str "..")
      by (rewrite <- app_assoc; reflexivity).
    rewrite trailingSeparator_app by discriminate. reflexivity.
Qed.

(** Names joined below a directory, after a prefix of the path that walks
    from the directory to [Y]. *)
Lemma join_walked X Y pre names :
  valid_names X -> valid_names names -> names <> [] ->
  walk (rev X) pre = rev Y ->
  join [abs X; pre ++ SLASH :: join_slash names] = abs (Y ++ names).
Proof.
  intros HX Hv Hne Hpre. rewrite join_2; [| discriminate |].
  - rewrite normalize_abs.
    + rewrite !walk_app, walk_abs, app_nil_r by exact HX.
      rewrite Hpre, walk_join_slash by exact Hv.
      rewrite rev_app_distr, !rev_involutive. reflexivity.
    + reflexivity.
    + replace (abs X ++ SLASH :: pre ++ SLASH :: join_slash names)
        with ((abs X ++ SLASH :: pre ++ [SLASH]) ++ join_slash names)
        by (rewrite <- !app_assoc; simpl; rewrite <- !app_assoc; reflexivity).
      apply trailingSeparator_join_slash; auto.
  - destruct pre; discriminate.
Qed.

Lemma candidate_alias w D componentFile names :
  __dirname w = abs D -> valid_names D -> valid_names names -> names <> [] ->
  candidate w componentFile (str "@/" ++ join_slash names)
  = abs (parent D ++ str "src" :: names).
Proof.
  intros HD Hv Hn Hne. unfold candidate.
  change (startsWith (str "@/" ++ join_slash names) (str "@/")) with true.
  change (replace (str "@/" ++ join_slash names) (str "@/") (str "src/"))
    with (str "src/" ++ join_slash names).
  assert (E : str "src/" ++ join_slash names = join_slash (str "src" :: names)).
  { destruct names; [congruence | reflexivity]. }
  rewrite E. destruct (targetRoot_walk w D HD Hv) as [Habs Hw].
  apply (join_under _ _ _ Habs Hw); [|discriminate].
  constructor; [reflexivity | exact Hn].
Qed.

Lemma candidate_here w F file names :
  valid_names F -> valid_name file = true -> valid_names names ->
  names <> [] ->
  candidate w (abs (F ++ [file])) (str "./" ++ join_slash names)
  = abs (F ++ names).
Proof.
  intros HF Hfile Hn Hne. unfold candidate.
  change (startsWith (str "./" ++ join_slash names) (str "@/")) with false.
  cbv iota. rewrite (join_dotdot _ _ HF Hfile).
  change (str "./" ++ join_slash names)
    with (str "." ++ SLASH :: join_slash names).
  apply join_walked; auto using walk_dot.
Qed.

Lemma candidate_above w F file names :
  valid_names F -> valid_name file = true -> valid_names names ->
  names <> [] ->
  candidate w (abs (F ++ [file])) (str "../" ++ join_slash names)
  = abs (parent F ++ names).
Proof.
  intros HF Hfile Hn Hne. unfold candidate.
  change (startsWith (str "../" ++ join_slash names) (str "@/")) with false.
  cbv iota. rewrite (join_dotdot _ _ HF Hfile).
  change (str "../" ++ join_slash names)
    with (str ".." ++ SLASH :: join_slash names).
  apply join_walked; auto.
  rewrite walk_dotdot by (apply Forall_rev, HF).
  unfold parent. rewrite rev_involutive. reflexivity.
Qed.

(** X11. Where a reference is looked for.  An alias reference [@/a/b] is
    looked for under [src] of the target root, whichever file imports it; a
    reference [./a/b] in the directory of the importing file, and a
    reference [../a/b] in the directory above it.  The fourth and fifth
    fallbacks of a candidate directory are its entries [index.ts] and
    [index.tsx]. *)
Theorem candidate_location (w : env) (D F names : list jsstring)
    (file : jsstring) :
  __dirname w = abs D -> valid_names D ->
  valid_names F -> valid_name file = true ->
  valid_names names -> names <> [] ->
  (forall componentFile,
     candidate w componentFile (str "@/" ++ join_slash names)
     = abs (parent D ++ str "src" :: names)) /\
  candidate w (abs (F ++ [file])) (str "./" ++ join_slash names)
  = abs (F ++ names) /\
  candidate w (abs (F ++ [file])) (str "../" ++ join_slash names)
  = abs (parent F ++ names) /\
  (forall X, valid_names X ->
     fallbacks (abs X)
     = [abs X; abs X ++ str ".ts"; abs X ++ str ".tsx";
        abs (X ++ [str "index.ts"]); abs (X ++ [str "index.tsx"])]).
Proof.
  intros HD Hv HF Hfile Hn Hne.
  split; [intros componentFile; apply (candidate_alias _ _ _ _ HD Hv Hn Hne) |].
  split; [apply (candidate_here _ _ _ _ HF Hfile Hn Hne) |].
  split; [apply (candidate_above _ _ _ _ HF Hfile Hn Hne) |].
  intros X HX. unfold fallbacks.
  rewrite !join_abs_name by (exact HX || reflexivity). reflexivity.
Qed.

Lemma candidate_location_witness :
  (__dirname Scenario.migrated = abs [str "repo"; str "app"; str "tests"] /\
   valid_names [str "repo"; str "app"; str "tests"] /\
   valid_names [str "repo"; str "app"; str "src"; str "components"] /\
   valid_name (str "Button.tsx") = true /\
   valid_names [str "ui"; str "card"] /\
   [str "ui"; str "card"] <> []) /\
  candidate Scenario.migrated (str "/repo/app/src/components/Button.tsx")
    (str "./ui/card")
  = str "/repo/app/src/components/ui/card".
Proof.
  assert (H1 : __dirname Scenario.migrated
               = abs [str "repo"; str "app"; str "tests"]) by reflexivity.
  assert (H2 : valid_names [str "repo"; str "app"; str "tests"])
    by (repeat constructor).
  assert (H3 : valid_names [str "repo"; str "app"; str "src";
                            str "components"]) by (repeat constructor).
  assert (H4 : valid_name (str "Button.tsx") = true) by reflexivity.
  assert (H5 : valid_names [str "ui"; str "card"]) by (repeat constructor).
  assert (H6 : [str "ui"; str "card"] <> []) by discriminate.
  split; [repeat split; assumption |].
  exact (proj1 (proj2 (candidate_location Scenario.migrated _ _ _ _
                         H1 H2 H3 H4 H5 H6))).
Defined.

(** ** The loops end *)

Lemma check_runs_Diverge values predicate random runs :
  check_runs values predicate random runs = Diverge ->
  exists i, In i runs /\ predicate (generate values (random i)) = Diverge.
Proof.
  induction runs as [|i runs IH]; simpl; [discriminate |].
  destruct (predicate (generate values (random i))) as [[|]| |] eqn:E; simpl.
  - intros H. apply IH in H as (j & Hj & H). eauto.
  - discriminate.
  - discriminate.
  - intros _. eauto.
Qed.

Lemma fc_assert_Diverge values predicate random :
  fc_assert values predicate random = Diverge ->
  exists x, predicate x = Diverge.
Proof.
  unfold fc_assert. intros H.
  apply check_runs_Diverge in H as (i & _ & H). eauto.
Qed.

Lemma property2_predicate_ends w componentFile :
  property2_predicate w componentFile <> Diverge.
Proof.
  destruct (readFileSync (fs w) componentFile) as [content|] eqn:Hread.
  - destruct (extractImports_total content) as [imports Himp].
    rewrite (property2_predicate_eq _ _ _ _ Hread Himp).
    destruct (forEach_checkImport_cases w componentFile imports)
      as [-> | ->]; discriminate.
  - unfold property2_predicate. rewrite Hread. discriminate.
Qed.

Lemma property4_predicate_ends targetCss name :
  property4_predicate targetCss name <> Diverge.
Proof.
  rewrite property4_predicate_eq.
  destruct (existsInTarget targetCss name); discriminate.
Qed.

(** X12. The two [exec] loops end on every text: neither pattern matches an
    empty text, so each iteration moves forward, and a loop given more
    iterations than the text has code units has the result of the loop run
    to its end. *)
Theorem exec_loops_end (text : jsstring) (fuel : nat) :
  length text < fuel ->
  (exists imports,
     extractImports text = Some imports /\
     exec_loop array_push fuel importRegex text 0 [] = Some imports) /\
  (exists variables,
     sourceVariables text = Some variables /\
     exec_loop Set_add fuel cssVariableRegex text 0 [] = Some variables).
Proof.
  intros Hfuel. split.
  - destruct (extractImports_total text) as [imports H]. exists imports.
    split; [exact H |]. rewrite <- H. unfold extractImports, exec_all.
    apply exec_loop_fuel; [exact importRegex_advancing | lia | lia].
  - destruct (sourceVariables_total text) as [vs H]. exists vs.
    split; [exact H |]. rewrite <- H. unfold sourceVariables, exec_all.
    apply exec_loop_fuel; [exact cssVariableRegex_advancing | lia | lia].
Qed.

Lemma exec_loops_end_witness :
  length (str "a { --x: 1 }") < 40 /\
  exists variables,
    sourceVariables (str "a { --x: 1 }") = Some variables /\
    exec_loop Set_add 40 cssVariableRegex (str "a { --x: 1 }") 0 []
    = Some variables.
Proof.
  assert (H : length (str "a { --x: 1 }") < 40) by (simpl; lia).
  split; [exact H |]. exact (proj2 (exec_loops_end _ 40 H)).
Defined.

(** X13. Only the directory walk can keep a test from ending: the
    import-path test is still running when its fuel is spent only when the
    walk of the target components is, and the style-sheet test always ends;
    the predicates of both end on every sample. *)
Theorem tests_end (w : env) (random : nat -> nat) :
  (forall componentFile, property2_predicate w componentFile <> Diverge) /\
  (forall targetCss name, property4_predicate targetCss name <> Diverge) /\
  (property2 w random = Diverge ->
   getAllFiles (depth w) (fs w) (targetComponentsDir w) [] = Diverge) /\
  property4 w random <> Diverge.
Proof.
  split; [apply property2_predicate_ends |].
  split; [apply property4_predicate_ends |]. split.
  - unfold property2, componentFiles.
    destruct (existsSync (fs w) (targetComponentsDir w)).
    + destruct (getAllFiles (depth w) (fs w) (targetComponentsDir w) [])
        as [files| |]; [|discriminate | reflexivity].
      cbn [mbind js_bind mret js_ret].
      destruct (List.filter _ files) as [|x l];
        cbn [constantFrom mbind js_bind]; [discriminate |].
      intros H. apply fc_assert_Diverge in H as (y & H).
      destruct (property2_predicate_ends w y H).
    + cbn [constantFrom mbind js_bind]. discriminate.
  - unfold property4, readText.
    destruct (readFileSync (fs w) (join [sourceRoot w; str "src/App.css"]))
      as [a|]; cbn [orThrow mbind js_bind]; [|discriminate].
    destruct (readFileSync (fs w) (join [sourceRoot w; str "src/index.css"]))
      as [b|]; cbn [orThrow mbind js_bind]; [|discriminate].
    destruct (readFileSync (fs w) (join [targetRoot w; str "src/styles.css"]))
      as [t|]; cbn [orThrow mbind js_bind]; [|discriminate].
    destruct (sourceVariables_total (sourceCss a b)) as [vs ->].
    cbn [orDiverge mbind js_bind].
    destruct vs as [|v vs]; [discriminate |]. cbn [constantFrom mbind js_bind].
    intros H. apply fc_assert_Diverge in H as (x & H).
    destruct (property4_predicate_ends t x H).
Qed.

(** ** Specifiers the version predicate rejects *)

(** X15. A specifier the version predicate accepts begins with a digit, a
    caret or a tilde, and stays accepted whatever is written after it; so
    specifiers such as [latest], [*], [>=1.0.0] or [workspace:*], and the
    text of a version that is not defined, are rejected. *)
Theorem isValidVersion_shape (v : jsstring) :
  isValidVersion v = true ->
  (exists c t, v = c :: t /\ (isDigit c || isRangePrefix c) = true) /\
  (forall rest, isValidVersion (v ++ rest) = true) /\
  isValidVersion (toString None) = false.
Proof.
  intros H. apply isValidVersion_true in H
    as (core & rest & -> & p & d1 & d2 & d3 & -> & Hp & H1 & H2 & H3).
  split; [|split].
  - destruct Hp as [->|[->| ->]].
    + destruct H1 as [Hne Hd]. destruct d1 as [|c d1]; [congruence |].
      simpl in Hd. apply andb_true_iff in Hd as [Hc _].
      exists c. eexists. split; [reflexivity |]. rewrite Hc. reflexivity.
    + eexists. eexists. split; [reflexivity | reflexivity].
    + eexists. eexists. split; [reflexivity | reflexivity].
  - intros rest'. apply isValidVersion_true.
    exists (p ++ d1 ++ DOT :: d2 ++ DOT :: d3), (rest ++ rest').
    split; [symmetry; apply app_assoc |].
    exists p, d1, d2, d3. auto.
  - vm_compute. reflexivity.
Qed.

Lemma isValidVersion_shape_witness :
  isValidVersion (str "^1.0.0") = true /\
  forall rest, isValidVersion (str "^1.0.0" ++ rest) = true.
Proof.
  assert (H : isValidVersion (str "^1.0.0") = true) by (vm_compute; reflexivity).
  split; [exact H |]. exact (proj1 (proj2 (isValidVersion_shape _ H))).
Defined.

(** ** When the walk does not return *)

Lemma fold_visit_stops walk_below f dir (r : js (list jsstring)) entries :
  (forall x, r <> Ret x) ->
  forall a,
    fold_left (visit walk_below f dir) entries a = r ->
    a = r \/
    exists file arrayOfFiles,
      In file entries /\ visit walk_below f dir (Ret arrayOfFiles) file = r.
Proof.
  intros Hr. induction entries as [|file entries IH]; intros a; simpl.
  - auto.
  - intros H. apply IH in H as [H | (file' & acc' & Hin & Hv)].
    + destruct a as [a0|e0|].
      * right. exists file, a0. auto.
      * left. exact H.
      * left. exact H.
    + right. exists file', acc'. auto.
Qed.

Lemma visit_stops walk_below f dir (r : js (list jsstring)) arrayOfFiles file :
  (forall x, r <> Ret x) ->
  visit walk_below f dir (Ret arrayOfFiles) file = r ->
  (isDirectory f (join [dir; file]) = None /\
   r = Throw (Error "ENOENT: statSync")) \/
  (isDirectory f (join [dir; file]) = Some true /\
   walk_below (join [dir; file]) arrayOfFiles = r).
Proof.
  intros Hr. unfold visit. cbn [mbind js_bind].
  destruct (isDirectory f (join [dir; file])) as [[|]|]; cbn [orThrow mbind js_bind].
  - auto.
  - intros H. symmetry in H. destruct (Hr _ H).
  - auto.
Qed.

(** X19. The walk throws only on a directory it cannot list or on an entry
    it cannot stat: when [getAllFiles] throws, the error is that of
    [readdirSync] on the directory walked or on a directory met below it,
    or that of [statSync] on an entry of such a directory. *)
Theorem getAllFiles_throws (fuel : nat) (f : filesystem)
    (dirPath : jsstring) (arrayOfFiles : list jsstring) (e : exn) :
  getAllFiles fuel f dirPath arrayOfFiles = Throw e ->
  exists d,
    dir_below f dirPath d /\
    ((readdirSync f d = None /\ e = Error "ENOENT: readdirSync") \/
     (exists entries file,
        readdirSync f d = Some entries /\ In file entries /\
        isDirectory f (join [d; file]) = None /\
        e = Error "ENOENT: statSync")).
Proof.
  revert dirPath arrayOfFiles.
  induction fuel as [|fuel IH]; intros dir acc; [discriminate |].
  rewrite getAllFiles_unfold.
  destruct (readdirSync f dir) as [entries|] eqn:Hdir;
    cbn [orThrow mbind js_bind].
  - intros H. apply fold_visit_stops in H as [H | (file & acc' & Hin & Hv)];
      [discriminate | | discriminate].
    apply visit_stops in Hv as [[Hstat [= <-]] | [Hstat Hrec]];
      [| | discriminate].
    + exists dir. split; [constructor |]. right. exists entries, file. auto.
    + apply IH in Hrec as (d & Hd & Hcase). exists d. split; [|exact Hcase].
      exact (dir_below_deeper f dir entries file d Hdir Hin Hstat Hd).
  - intros [= <-]. exists dir. split; [constructor | auto].
Qed.

Lemma getAllFiles_throws_witness :
  getAllFiles 8
    (Scenario.mkfs [(str "/a", [str "b"; str "gone"]); (str "/a/b", [])] [])
    (str "/a") []
  = Throw (Error "ENOENT: statSync") /\
  exists d,
    dir_below
      (Scenario.mkfs [(str "/a", [str "b"; str "gone"]); (str "/a/b", [])] [])
      (str "/a") d /\
    ((readdirSync
        (Scenario.mkfs [(str "/a", [str "b"; str "gone"]); (str "/a/b", [])]
           []) d = None /\
      Error "ENOENT: statSync" = Error "ENOENT: readdirSync") \/
     (exists entries file,
        readdirSync
          (Scenario.mkfs [(str "/a", [str "b"; str "gone"]); (str "/a/b", [])]
             []) d = Some entries /\
        In file entries /\
        isDirectory
          (Scenario.mkfs [(str "/a", [str "b"; str "gone"]); (str "/a/b", [])]
             []) (join [d; file]) = None /\
        Error "ENOENT: statSync" = Error "ENOENT: statSync")).
Proof.
  assert (H : getAllFiles 8
    (Scenario.mkfs [(str "/a", [str "b"; str "gone"]); (str "/a/b", [])] [])
    (str "/a") [] = Throw (Error "ENOENT: statSync"))
    by (vm_compute; reflexivity).
  split; [exact H |]. exact (getAllFiles_throws _ _ _ _ _ H).
Defined.

(** X20. The walk runs out of its bound only in a tree that deep: when
    [getAllFiles] is still running with its fuel spent, there are as many
    directories as the fuel counts, each in the one before, below the
    directory walked. *)
Theorem getAllFiles_runs_on (fuel : nat) (f : filesystem)
    (dirPath : jsstring) (arrayOfFiles : list jsstring) :
  getAllFiles fuel f dirPath arrayOfFiles = Diverge -> nested f fuel dirPath.
Proof.
  revert dirPath arrayOfFiles.
  induction fuel as [|fuel IH]; intros dir acc; [intros _; exact I |].
  rewrite getAllFiles_unfold.
  destruct (readdirSync f dir) as [entries|] eqn:Hdir;
    cbn [orThrow mbind js_bind]; [|discriminate].
  intros H. apply fold_visit_stops in H as [H | (file & acc' & Hin & Hv)];
    [discriminate | | discriminate].
  apply visit_stops in Hv as [[_ [=]] | [Hstat Hrec]]; [|discriminate].
  apply IH in Hrec. cbn [nested]. exists entries, file. auto.
Qed.

Lemma getAllFiles_runs_on_witness :
  getAllFiles 1 (fs Scenario.migrated) (str "/repo/app/src/components") []
  = Diverge /\
  nested (fs Scenario.migrated) 1 (str "/repo/app/src/components").
Proof.
  assert (H : getAllFiles 1 (fs Scenario.migrated)
                (str "/repo/app/src/components") [] = Diverge)
    by (vm_compute; reflexivity).
  split; [exact H |]. exact (getAllFiles_runs_on _ _ _ _ H).
Defined.

Lemma tests_end_witness :
  property2
    {| __dirname := str "/repo/app/tests"; cwd := str "/repo/app";
       fs := fs Scenario.migrated; JSON_parse := fun _ => None;
       getPathInfo_exists := fun _ _ => false; depth := 1 |}
    (fun i => i) = Diverge /\
  getAllFiles 1 (fs Scenario.migrated)
    (targetComponentsDir
       {| __dirname := str "/repo/app/tests"; cwd := str "/repo/app";
          fs := fs Scenario.migrated; JSON_parse := fun _ => None;
          getPathInfo_exists := fun _ _ => false; depth := 1 |}) []
  = Diverge.
Proof.
  assert (H : property2
    {| __dirname := str "/repo/app/tests"; cwd := str "/repo/app";
       fs := fs Scenario.migrated; JSON_parse := fun _ => None;
       getPathInfo_exists := fun _ _ => false; depth := 1 |}
    (fun i => i) = Diverge) by (vm_compute; reflexivity).
  split; [exact H |].
  exact (proj1 (proj2 (proj2 (tests_end _ (fun i => i)))) H).
Defined.

(** ** The theme script of the root route *)

Lemma without_elem tokens classList c :
  c ∈ without tokens classList <-> c ∈ classList /\ c ∉ tokens.
Proof.
  unfold without. rewrite !list_elem_of_In, filter_In, negb_true_iff.
  rewrite bool_decide_eq_false, <- !list_elem_of_In. reflexivity.
Qed.

Lemma without_idem tokens classList :
  without tokens (without tokens classList) = without tokens classList.
Proof.
  unfold without. induction classList as [|c l IH]; [reflexivity |].
  simpl. destruct (negb (bool_decide (c ∈ tokens))) eqn:E; [|exact IH].
  simpl. rewrite E, IH. reflexivity.
Qed.

Lemma without_app tokens a b :
  without tokens (a ++ b) = without tokens a ++ without tokens b.
Proof. apply List.filter_app. Qed.

Lemma without_one_in tokens c : c ∈ tokens -> without tokens [c] = [].
Proof.
  intros H. unfold without. simpl. rewrite (bool_decide_eq_true_2 _ H).
  reflexivity.
Qed.

Lemma without_one_out tokens c : c ∉ tokens -> without tokens [c] = [c].
Proof.
  intros H. unfold without. simpl. rewrite (bool_decide_eq_false_2 _ H).
  reflexivity.
Qed.

Lemma Set_add_new classList c : c ∉ classList -> Set_add classList c = classList ++ [c].
Proof. intros H. unfold Set_add. rewrite (bool_decide_eq_false_2 _ H). reflexivity. Qed.

Lemma Set_add_old classList c : c ∈ classList -> Set_add classList c = classList.
Proof. intros H. unfold Set_add. rewrite (bool_decide_eq_true_2 _ H). reflexivity. Qed.

Lemma add_theme classList c :
  c ∈ [str "light"; str "dark"] ->
  Set_add (without [str "light"; str "dark"] classList) c
  = without [str "light"; str "dark"] classList ++ [c].
Proof.
  intros H. apply Set_add_new. rewrite without_elem. tauto.
Qed.

(** The script, by the theme it reads. *)
Lemma themeScript_eq b classList :
  themeScript b classList =
  match localStorage b with
  | None => classList
  | Some storage =>
      let e := orString (getItem storage (str "vite-ui-theme")) (str "dark") in
      let others := without [str "light"; str "dark"] classList in
      if bool_decide (str "system" = e) then
        match matchMedia_matches b with
        | None => others
        | Some matches =>
            others ++ [if matches then str "dark" else str "light"]
        end
      else
        match validateToken e with
        | Ret _ => Set_add others e
        | _ => others
        end
  end.
Proof.
  unfold themeScript, themeScript_try.
  destruct (localStorage b) as [storage|]; [|reflexivity].
  change (classList_remove [str "light"; str "dark"] classList)
    with (Ret (without [str "light"; str "dark"] classList)).
  cbn [update]. cbv zeta.
  destruct (bool_decide (str "system" = _)).
  - destruct (matchMedia_matches b) as [[|]|]; [| |reflexivity].
    + change (classList_add [str "dark"]
                (without [str "light"; str "dark"] classList))
        with (Ret (Set_add (without [str "light"; str "dark"] classList)
                     (str "dark"))).
      cbn [update snd]. apply add_theme.
      apply elem_of_cons; right; apply elem_of_cons; left; reflexivity.
    + change (classList_add [str "light"]
                (without [str "light"; str "dark"] classList))
        with (Ret (Set_add (without [str "light"; str "dark"] classList)
                     (str "light"))).
      cbn [update snd]. apply add_theme.
      apply elem_of_cons; left; reflexivity.
  - unfold classList_add. cbn [forEach].
    destruct (validateToken _) as [[]| |]; reflexivity.
Qed.

(** X16. The theme class the script sets.  With a storage that can be read,
    a stored theme [dark], no stored theme and an empty one give the class
    [dark], a stored [light] gives [light], and a stored [system] gives the
    one the colour-scheme query tells; the class list then is the list
    without [light] and [dark], in its order, with that class at its
    end. *)
Theorem themeScript_theme (b : browser) (storage : gmap jsstring jsstring)
    (classList : list jsstring) :
  localStorage b = Some storage ->
  let others := without [str "light"; str "dark"] classList in
  (getItem storage (str "vite-ui-theme") = None \/
   getItem storage (str "vite-ui-theme") = Some [] \/
   getItem storage (str "vite-ui-theme") = Some (str "dark") ->
   themeScript b classList = others ++ [str "dark"]) /\
  (getItem storage (str "vite-ui-theme") = Some (str "light") ->
   themeScript b classList = others ++ [str "light"]) /\
  (forall matches,
     getItem storage (str "vite-ui-theme") = Some (str "system") ->
     matchMedia_matches b = Some matches ->
     themeScript b classList
     = others ++ [if matches then str "dark" else str "light"]).
Proof.
  intros Hs others. rewrite themeScript_eq, Hs. split; [|split].
  - intros [-> | [-> | ->]]; apply add_theme;
      apply elem_of_cons; right; apply elem_of_cons; left; reflexivity.
  - intros ->. apply add_theme. apply elem_of_cons; left; reflexivity.
  - intros matches -> ->. reflexivity.
Qed.

Lemma themeScript_theme_witness :
  localStorage {| localStorage := Some ∅; matchMedia_matches := Some false |}
  = Some ∅ /\
  themeScript {| localStorage := Some ∅; matchMedia_matches := Some false |}
    [str "light"; str "no-js"]
  = [str "no-js"; str "dark"].
Proof.
  split; [reflexivity |].
  exact (proj1 (themeScript_theme
                  {| localStorage := Some ∅; matchMedia_matches := Some false |}
                  ∅ [str "light"; str "no-js"] eq_refl)
           (or_introl eq_refl)).
Defined.

(** X17. When the script sets no theme class.  A stored theme that is not
    empty and is none of [light], [dark] and [system], and a stored [system]
    where the colour-scheme query throws, leave the root element with
    neither [light] nor [dark], since both are removed first; a storage
    that cannot be read leaves the class list as it was. *)
Theorem themeScript_no_theme (b : browser) (classList : list jsstring) :
  (localStorage b = None -> themeScript b classList = classList) /\
  (forall storage e,
     localStorage b = Some storage ->
     getItem storage (str "vite-ui-theme") = Some e ->
     e <> [] -> e <> str "light" -> e <> str "dark" ->
     (e = str "system" -> matchMedia_matches b = None) ->
     (str "light" ∉ themeScript b classList) /\
     (str "dark" ∉ themeScript b classList)).
Proof.
  split.
  - intros H. rewrite themeScript_eq, H. reflexivity.
  - intros storage e Hs He Hne Hl Hd Hsys. rewrite themeScript_eq, Hs, He.
    assert (Ho : orString (Some e) (str "dark") = e)
      by (destruct e; [congruence | reflexivity]).
    cbv zeta. rewrite Ho.
    assert (Hothers : forall c, c ∈ [str "light"; str "dark"] ->
              c ∉ without [str "light"; str "dark"] classList).
    { intros c Hc. rewrite without_elem. tauto. }
    assert (Hl' : str "light" ∈ [str "light"; str "dark"])
      by (apply elem_of_cons; left; reflexivity).
    assert (Hd' : str "dark" ∈ [str "light"; str "dark"])
      by (apply elem_of_cons; right; apply elem_of_cons; left; reflexivity).
    assert (Hboth :
              (str "light" ∉ without [str "light"; str "dark"] classList) /\
              (str "dark" ∉ without [str "light"; str "dark"] classList))
      by (split; apply Hothers; assumption).
    case_bool_decide as Hsystem.
    + rewrite (Hsys (eq_sym Hsystem)). exact Hboth.
    + destruct (validateToken e) as [[]| |]; try exact Hboth.
      split; intros H; apply Set_add_elem in H as [H|H];
        [exact (Hothers _ Hl' H) | congruence
        | exact (Hothers _ Hd' H) | congruence].
Qed.

Lemma themeScript_no_theme_witness :
  (localStorage
     {| localStorage := Some {[ str "vite-ui-theme" := str "blue" ]};
        matchMedia_matches := Some true |}
   = Some {[ str "vite-ui-theme" := str "blue" ]} /\
   getItem {[ str "vite-ui-theme" := str "blue" ]} (str "vite-ui-theme")
   = Some (str "blue")) /\
  (str "light" ∉
     themeScript
       {| localStorage := Some {[ str "vite-ui-theme" := str "blue" ]};
          matchMedia_matches := Some true |} [str "dark"]) /\
  (str "dark" ∉
     themeScript
       {| localStorage := Some {[ str "vite-ui-theme" := str "blue" ]};
          matchMedia_matches := Some true |} [str "dark"]).
Proof.
  assert (H1 : localStorage
     {| localStorage := Some {[ str "vite-ui-theme" := str "blue" ]};
        matchMedia_matches := Some true |}
   = Some {[ str "vite-ui-theme" := str "blue" ]}) by reflexivity.
  assert (H2 : getItem {[ str "vite-ui-theme" := str "blue" ]}
                 (str "vite-ui-theme") = Some (str "blue"))
    by (unfold getItem; rewrite lookup_singleton;
        apply decide_True; reflexivity).
  split; [split; assumption |].
  refine (proj2 (themeScript_no_theme _ [str "dark"]) _ _ H1 H2 _ _ _ _);
    discriminate.
Defined.

(** X18. Running the script again changes nothing, and the script keeps
    every class other than [light] and [dark], whatever it finds in the
    browser. *)
Theorem themeScript_idempotent (b : browser) (classList : list jsstring) :
  themeScript b (themeScript b classList) = themeScript b classList /\
  (forall c, c <> str "light" -> c <> str "dark" ->
     c ∈ classList -> c ∈ themeScript b classList).
Proof.
  assert (Hth : forall m : bool,
            (if m then str "dark" else str "light")
            ∈ [str "light"; str "dark"]).
  { intros [|]; [apply elem_of_cons; right |]; apply elem_of_cons; left;
      reflexivity. }
  split.
  - rewrite !themeScript_eq. destruct (localStorage b) as [storage|];
      [|reflexivity].
    cbv zeta. set (e := orString _ _).
    set (others := without [str "light"; str "dark"] classList).
    case_bool_decide as Hsystem; cbv iota.
    + destruct (matchMedia_matches b) as [m|]; cbv iota.
      * rewrite without_app, (without_one_in _ _ (Hth m)), app_nil_r.
        unfold others. rewrite without_idem. reflexivity.
      * unfold others. rewrite without_idem. reflexivity.
    + destruct (validateToken e) as [[]| |] eqn:Ev; cbv iota;
        try (unfold others; rewrite without_idem; reflexivity).
      destruct (decide (e ∈ [str "light"; str "dark"])) as [Hin|Hout].
      * unfold others.
        rewrite (add_theme classList e Hin), without_app,
          (without_one_in _ _ Hin), app_nil_r, without_idem.
        apply (add_theme classList e Hin).
      * assert (Hkeep : without [str "light"; str "dark"] (Set_add others e)
                        = Set_add others e).
        { unfold Set_add. case_bool_decide.
          - unfold others. apply without_idem.
          - rewrite without_app, (without_one_out _ _ Hout).
            unfold others. rewrite without_idem. reflexivity. }
        rewrite Hkeep. apply Set_add_old, Set_add_elem. auto.
  - intros c Hl Hd Hc. rewrite themeScript_eq.
    destruct (localStorage b) as [storage|]; [|exact Hc]. cbv zeta.
    assert (Ho : c ∈ without [str "light"; str "dark"] classList).
    { apply without_elem. split; [exact Hc |].
      intros H. apply elem_of_cons in H as [H|H]; [congruence |].
      apply elem_of_cons in H as [H|H]; [congruence |].
      apply elem_of_nil in H. exact H. }
    case_bool_decide; cbv iota.
    + destruct (matchMedia_matches b); [|exact Ho].
      apply elem_of_app. auto.
    + destruct (validateToken _) as [[]| |]; try exact Ho.
      apply Set_add_elem. auto.
Qed.

(** ** Two runs of a test *)














